(** * Shift planner, hire recommendations and roster builder of App.jsx

    A shallow embedding of the algorithmic core of [src/App.jsx]
    ([buildShiftPlanStrategic], [computeHireRecommendations], [buildRoster]
    and the limit resolution of the [aggregates] memo) together with the
    properties its specification states about it, and further properties
    of the same code, of the requirement that the memo hands to the
    planner, of the coverage table of [exportShiftCSV] and
    [ShiftAndCoverage] and of the clock times of the roster.

    Conventions of the embedding:
    - a JavaScript number that the code computes is an integer or [NaN]; it
      is a [Z] where the code can only produce an integer and a [num] where
      [NaN] can arise (a read past the end of an array, [parseInt] of a
      string without digits). Integers are exact: the embedding does not
      model the loss of precision beyond 2^53;
    - quotients ([a / b] before [Math.ceil], [Math.floor], [Math.round] or a
      comparison) are exact rationals of [Q];
    - the variables that the closures of [buildShiftPlanStrategic] share
      ([deficit], [covFT], [covPT], [placedFT], [placedPT], [shiftsFT],
      [shiftsPT]) are the fields of a [State] that every closure takes and
      returns;
    - a [while] loop takes a fuel and counts its iterations; it yields
      [None] only when the fuel runs out. *)

From Stdlib Require Import ZArith QArith Qround Lia Ascii String.
From stdpp Require Import base list sorting strings pretty.

#[local] Open Scope Z_scope.

(** ** JavaScript numbers and the helpers of the file *)

Inductive num : Set :=
  | Int (z : Z)
  | NaN.

Definition lift2 (f : Z -> Z -> Z) (a b : num) : num :=
  match a, b with
  | Int x, Int y => Int (f x y)
  | _, _ => NaN
  end.

(** [a + b], [a - b], [Math.max(a, b)], [Math.min(a, b)]: each is [NaN] as
    soon as an argument is. *)
Definition nadd : num -> num -> num := lift2 Z.add.
Definition nsub : num -> num -> num := lift2 Z.sub.
Definition nmax : num -> num -> num := lift2 Z.max.
Definition nmin : num -> num -> num := lift2 Z.min.

(** [a > b]: false when an argument is [NaN]. *)
Definition ngt (a b : num) : bool :=
  match a, b with
  | Int x, Int y => x >? y
  | _, _ => false
  end.

(** [arr[h]] read as a number: [undefined] past the end, which arithmetic
    turns into [NaN]. *)
Definition readNum (arr : list Z) (h : nat) : num :=
  match arr !! h with
  | Some v => Int v
  | None => NaN
  end.

(** [arr[h]] for an index that is in range: the coverage arrays have one
    slot per hour and a candidate window never leaves the day. *)
Definition get (arr : list Z) (h : nat) : Z := default 0 (arr !! h).

(** [a || b] on strings: the empty string is the only falsy one. *)
Definition strOr (a b : string) : string :=
  if String.eqb a "" then b else a.

(** *** [parseInt(s, 10)] *)

Definition isWhiteSpace (c : ascii) : bool :=
  let n := nat_of_ascii c in
  ((9 <=? n) && (n <=? 13) || (n =? 32))%nat.

Fixpoint skipWhiteSpace (s : string) : string :=
  match s with
  | String c s' => if isWhiteSpace c then skipWhiteSpace s' else s
  | EmptyString => s
  end.

Definition digitOf (c : ascii) : option Z :=
  let n := nat_of_ascii c in
  if ((48 <=? n) && (n <=? 57))%nat then Some (Z.of_nat n - 48) else None.

(** The value of the longest prefix of decimal digits; [acc] is [None] as
    long as no digit was read. *)
Fixpoint readDigits (s : string) (acc : option Z) : option Z :=
  match s with
  | String c s' =>
      match digitOf c with
      | Some d => readDigits s' (Some (10 * default 0 acc + d))
      | None => acc
      end
  | EmptyString => acc
  end.

(** Leading white space is skipped, one sign is read, then digits up to the
    first other character; [NaN] when there is no digit. Strings are ASCII.
    The result is the integer that the digits write. The code's [parseInt]
    returns that integer as long as its size is at most 2^53 and the
    nearest number beyond; statements about the value that is read keep
    within 2^53 ([exactBound] below). *)
Definition parseInt (s : string) : num :=
  let s := skipWhiteSpace s in
  let '(sign, s) :=
    match s with
    | String "-" s' => (-1, s')
    | String "+" s' => (1, s')
    | _ => (1, s)
    end in
  match readDigits s None with
  | Some v => Int (sign * v)
  | None => NaN
  end.

(** [const snap30 = (minutes) => Math.round(minutes / 30) * 30].
    [Math.round] rounds to the nearest integer, a half towards +infinity. *)
Definition round (x : Q) : Z := Qfloor (x + (1 # 2))%Q.
Definition snap30 (minutes : Q) : Z := round (minutes / 30)%Q * 30.

(** [const ceilDiv = (a, b) => Math.ceil(a / b)]. For [b = 0] JavaScript
    yields an infinity or [NaN]; [num] has no infinities and the embedding
    renders every such value as [NaN] (no computation of the file consumes
    one). *)
Definition ceilDiv (a : num) (b : Z) : num :=
  match a with
  | Int x => if b =? 0 then NaN else Int (Qceiling (inject_Z x / inject_Z b)%Q)
  | NaN => NaN
  end.

(** [const isWeekendName = (weekday) => weekday === 'Saturday' || weekday === 'Sunday'] *)
Definition isWeekendName (weekday : string) : bool :=
  String.eqb weekday "Saturday" || String.eqb weekday "Sunday".

(** ** The planner: [buildShiftPlanStrategic] *)

Record Limits := { capFT : Z; capPT : Z; maxFTShifts : Z; maxPTShifts : Z }.

Record Opts := {
  strategy : string;
  mixedFtPercent : num;
  isWeekend : bool;
  ptLenHours : Z
}.

(** [{ start, end, count }] *)
Record ShiftWindow := { start : Z; end_ : Z; count : Z }.

(** The class of a shift, the ['FT'] or ['PT'] that [scoreWindow] takes. *)
Inductive Class := ClsFT | ClsPT.

#[global] Instance Class_eq_dec : EqDecision Class.
Proof. solve_decision. Defined.

(** The variables shared by the closures. *)
Record State := {
  deficit : list Z;
  covFT : list Z;
  covPT : list Z;
  placedFT : Z;
  placedPT : Z;
  shiftsFT : list ShiftWindow;
  shiftsPT : list ShiftWindow
}.

Module Plan.
(** The object that [buildShiftPlanStrategic] returns. [maxConcurrent] is
    [None] for the [-Infinity] of an empty [Math.max]. *)
Record t := {
  shiftsFT : list ShiftWindow;
  shiftsPT : list ShiftWindow;
  coverage : list Z;
  required : list Z;
  shortage : list num;
  excess : list num;
  maxConcurrent : option Z;
  limits : Limits;
  hoursShort : Z;
  totalShortUnits : num
}.
End Plan.

Definition H : Z := 24.
Definition FT : Z := 8.

(** [Array.from({ length: n }, (_, s) => s)]: no element when [n <= 0]. *)
Definition arrayFromLength (n : Z) : list nat := seq 0 (Z.to_nat n).

(** The hours [h = s; h < s + len; h++] of a loop over a window. *)
Definition hoursFrom (s : nat) (len : Z) : list nat := seq s (Z.to_nat len).

(** [covFT[h] += 1; deficit[h] = Math.max(0, deficit[h] - 1)]. The hour is
    inside both arrays whenever a window is placed (lemmas
    [feasible_in_day], [reachable_shape] and [windowScore_defined] below),
    so no assignment extends an array. *)
Definition coverFT (st : State) (h : nat) : State :=
  {| deficit := alter (fun d => Z.max 0 (d - 1)) h (deficit st);
     covFT := alter (fun v => v + 1) h (covFT st);
     covPT := covPT st;
     placedFT := placedFT st; placedPT := placedPT st;
     shiftsFT := shiftsFT st; shiftsPT := shiftsPT st |}.

(** [covPT[h] += 1; deficit[h] = Math.max(0, deficit[h] - 1)] *)
Definition coverPT (st : State) (h : nat) : State :=
  {| deficit := alter (fun d => Z.max 0 (d - 1)) h (deficit st);
     covFT := covFT st;
     covPT := alter (fun v => v + 1) h (covPT st);
     placedFT := placedFT st; placedPT := placedPT st;
     shiftsFT := shiftsFT st; shiftsPT := shiftsPT st |}.

(** [shiftsFT.push(w)] *)
Definition pushFT (w : ShiftWindow) (st : State) : State :=
  {| deficit := deficit st; covFT := covFT st; covPT := covPT st;
     placedFT := placedFT st; placedPT := placedPT st;
     shiftsFT := shiftsFT st ++ [w]; shiftsPT := shiftsPT st |}.

(** [shiftsPT.push(w)] *)
Definition pushPT (w : ShiftWindow) (st : State) : State :=
  {| deficit := deficit st; covFT := covFT st; covPT := covPT st;
     placedFT := placedFT st; placedPT := placedPT st;
     shiftsFT := shiftsFT st; shiftsPT := shiftsPT st ++ [w] |}.

(** [placedFT += 1] *)
Definition countFT (st : State) : State :=
  {| deficit := deficit st; covFT := covFT st; covPT := covPT st;
     placedFT := placedFT st + 1; placedPT := placedPT st;
     shiftsFT := shiftsFT st; shiftsPT := shiftsPT st |}.

(** [placedPT += 1] *)
Definition countPT (st : State) : State :=
  {| deficit := deficit st; covFT := covFT st; covPT := covPT st;
     placedFT := placedFT st; placedPT := placedPT st + 1;
     shiftsFT := shiftsFT st; shiftsPT := shiftsPT st |}.

(** The comparator [(a, b) => a.start - b.start || a.end - b.end]. *)
Definition compareWindows (a b : ShiftWindow) : Z :=
  let d := start a - start b in
  if d =? 0 then end_ a - end_ b else d.

(** [arr.sort(cmp)] is a stable sort: insertion after the elements that do
    not compare greater. *)
Fixpoint insertWindow (p : ShiftWindow) (l : list ShiftWindow) : list ShiftWindow :=
  match l with
  | [] => [p]
  | q :: l' =>
      if compareWindows q p <=? 0 then q :: insertWindow p l' else p :: q :: l'
  end.

Definition sortWindows (arr : list ShiftWindow) : list ShiftWindow :=
  fold_left (fun sorted p => insertWindow p sorted) arr [].

(** One step of the loop of [merge]: [last.count += p.count] when the last
    window of [out] has the start and end of [p], [out.push({ ...p })]
    otherwise. *)
Fixpoint mergeStep (out : list ShiftWindow) (p : ShiftWindow) : list ShiftWindow :=
  match out with
  | [] => [p]
  | [last] =>
      if (start last =? start p) && (end_ last =? end_ p)
      then [{| start := start last; end_ := end_ last; count := count last + count p |}]
      else [last; p]
  | q :: out' => q :: mergeStep out' p
  end.

Definition merge (arr : list ShiftWindow) : list ShiftWindow :=
  fold_left mergeStep (sortWindows arr) [].

(** [Math.max(...arr)] *)
Definition maxOf (arr : list Z) : option Z :=
  match arr with
  | [] => None
  | v :: arr' => Some (fold_left Z.max arr' v)
  end.

(** [arr.reduce((s, v) => s + v, 0)] *)
Definition sumNum (arr : list num) : num := fold_left nadd arr (Int 0).

(** A [while] loop whose condition [cond] does all the work: [Some (st, n)]
    when the condition is false at its [n]-th evaluation, [None] when the
    fuel does not reach that far. *)
Fixpoint while (fuel : nat) (cond : State -> bool * State) (st : State)
  : option (State * nat) :=
  match fuel with
  | O => None
  | S fuel' =>
      let '(b, st') := cond st in
      if b then
        match while fuel' cond st' with
        | Some (st'', n) => Some (st'', S n)
        | None => None
        end
      else Some (st', 1%nat)
  end.

(** [f() || g()] *)
Definition orElse (f g : State -> bool * State) (st : State) : bool * State :=
  let '(b, st') := f st in
  if b then (true, st') else g st'.

(** [a < b] on rationals. *)
Definition Qltb (a b : Q) : bool := negb (Qle_bool b a).

Section Planner.
Variable requiredPerHourInt : list Z.
Variable limits : Limits.
Variable opts : Opts.

Definition PT : Z := ptLenHours opts.
Definition startsFT : list nat := arrayFromLength (H - FT + 1).
Definition startsPT : list nat := arrayFromLength (H - PT + 1).

(** [deficit = requiredPerHourInt.slice()], [covFT = covPT = Array(H).fill(0)],
    no shift placed. *)
Definition initialState : State :=
  {| deficit := requiredPerHourInt;
     covFT := replicate (Z.to_nat H) 0;
     covPT := replicate (Z.to_nat H) 0;
     placedFT := 0; placedPT := 0;
     shiftsFT := []; shiftsPT := [] |}.

Definition canPlaceFTAt (st : State) (s : nat) : bool :=
  if placedFT st >=? maxFTShifts limits then false
  else
    forallb (fun h =>
      if get (covFT st) h >=? capFT limits then false
      else if get (covFT st) h + get (covPT st) h >=? capFT limits + capPT limits then false
      else true) (hoursFrom s FT).

Definition canPlacePTAt (st : State) (s : nat) : bool :=
  if placedPT st >=? maxPTShifts limits then false
  else
    forallb (fun h =>
      if get (covPT st) h >=? capPT limits then false
      else if get (covFT st) h + get (covPT st) h >=? capFT limits + capPT limits then false
      else true) (hoursFrom s PT).

Definition scoreWindow (st : State) (s : nat) (len : Z) (type : Class) : num :=
  fold_left (fun score h =>
    let totalRoom :=
      Z.max 0 (capFT limits + capPT limits - (get (covFT st) h + get (covPT st) h)) in
    if totalRoom <=? 0 then score
    else
      let roomType :=
        match type with
        | ClsFT => Z.min totalRoom (Z.max 0 (capFT limits - get (covFT st) h))
        | ClsPT => Z.min totalRoom (Z.max 0 (capPT limits - get (covPT st) h))
        end in
      if roomType >? 0
      then nadd score (nmin (readNum (deficit st) h) (Int roomType))
      else score)
    (hoursFrom s len) (Int 0).

(** The body of the scan [for (const s of starts)]: [(bestS, best)] is
    replaced when the window at [s] can be placed and scores more. *)
Definition scanFT (st : State) (acc : Z * Z) (s : nat) : Z * Z :=
  let '(bestS, best) := acc in
  if negb (canPlaceFTAt st s) then acc
  else
    match scoreWindow st s FT ClsFT with
    | Int sc => if sc >? best then (Z.of_nat s, sc) else acc
    | NaN => acc
    end.

Definition scanPT (st : State) (acc : Z * Z) (s : nat) : Z * Z :=
  let '(bestS, best) := acc in
  if negb (canPlacePTAt st s) then acc
  else
    match scoreWindow st s PT ClsPT with
    | Int sc => if sc >? best then (Z.of_nat s, sc) else acc
    | NaN => acc
    end.

Definition placeOneFT (st : State) : bool * State :=
  if placedFT st >=? maxFTShifts limits then (false, st)
  else
    let '(bestS, best) := fold_left (scanFT st) startsFT (-1, 0) in
    if best <=? 0 then (false, st)
    else
      let st1 := pushFT {| start := bestS; end_ := bestS + FT; count := 1 |} st in
      let st2 := fold_left coverFT (hoursFrom (Z.to_nat bestS) FT) st1 in
      (true, countFT st2).

Definition placeOnePT (st : State) : bool * State :=
  if placedPT st >=? maxPTShifts limits then (false, st)
  else
    let '(bestS, best) := fold_left (scanPT st) startsPT (-1, 0) in
    if best <=? 0 then (false, st)
    else
      let st1 := pushPT {| start := bestS; end_ := bestS + PT; count := 1 |} st in
      let st2 := fold_left coverPT (hoursFrom (Z.to_nat bestS) PT) st1 in
      (true, countPT st2).

(** [Math.min(100, Math.max(0, opts.mixedFtPercent)) / 100]; [None] is [NaN]. *)
Definition mixedTarget : option Q :=
  match nmin (Int 100) (nmax (Int 0) (mixedFtPercent opts)) with
  | Int p => Some (inject_Z p / 100)%Q
  | NaN => None
  end.

(** [(ft + pt) > 0 ? ft / (ft + pt) : 1] *)
Definition mixedShare (ft pt : Z) : Q :=
  if ft + pt >? 0 then (inject_Z ft / inject_Z (ft + pt))%Q else 1%Q.

(** [share < target], false when the target is [NaN]. *)
Definition belowTarget (ft pt : Z) : bool :=
  match mixedTarget with
  | Some target => Qltb (mixedShare ft pt) target
  | None => false
  end.

(** One iteration of [while (progress)] of the mixed strategy: the
    counters [ft], [pt], the state, and whether a shift was placed. *)
Definition mixedBody (ft pt : Z) (st : State) : Z * Z * State * bool :=
  if belowTarget ft pt then
    let '(okF, st1) := placeOneFT st in
    let ft1 := if okF then ft + 1 else ft in
    let '(okP, st2) := placeOnePT st1 in
    let pt1 := if okP then pt + 1 else pt in
    (ft1, pt1, st2, okF || okP)
  else
    let '(okP, st1) := placeOnePT st in
    let pt1 := if okP then pt + 1 else pt in
    let '(okF, st2) := placeOneFT st1 in
    let ft1 := if okF then ft + 1 else ft in
    (ft1, pt1, st2, okP || okF).

Fixpoint mixedLoop (fuel : nat) (ft pt : Z) (st : State) : option (State * nat) :=
  match fuel with
  | O => None
  | S fuel' =>
      let '(ft', pt', st', progress) := mixedBody ft pt st in
      if progress then
        match mixedLoop fuel' ft' pt' st' with
        | Some (st'', n) => Some (st'', S n)
        | None => None
        end
      else Some (st', 1%nat)
  end.

(** The final state and the number of iterations of the loop that ran. *)
Definition placeLoop (fuel : nat) (st : State) : option (State * nat) :=
  if String.eqb (strategy opts) "ft_first" then
    while fuel (orElse placeOneFT placeOnePT) st
  else if String.eqb (strategy opts) "pt_first" then
    while fuel (orElse placeOnePT placeOneFT) st
  else if String.eqb (strategy opts) "mixed" then
    mixedLoop fuel 0 0 st
  else if isWeekend opts then
    while fuel (orElse placeOnePT placeOneFT) st
  else
    while fuel (orElse placeOneFT placeOnePT) st.

(** What is built from the state that the loop leaves. *)
Definition planOf (st : State) : Plan.t :=
  let mergedFT := merge (shiftsFT st) in
  let mergedPT := merge (shiftsPT st) in
  let coverage := imap (fun i v => v + get (covPT st) i) (covFT st) in
  let shortage :=
    imap (fun h c => nmax (Int 0) (nsub (readNum requiredPerHourInt h) (Int c))) coverage in
  let excess :=
    imap (fun h c => nmax (Int 0) (nsub (Int c) (readNum requiredPerHourInt h))) coverage in
  {| Plan.shiftsFT := mergedFT;
     Plan.shiftsPT := mergedPT;
     Plan.coverage := coverage;
     Plan.required := requiredPerHourInt;
     Plan.shortage := shortage;
     Plan.excess := excess;
     Plan.maxConcurrent := maxOf coverage;
     Plan.limits := limits;
     Plan.hoursShort :=
       fold_left (fun n v => n + (if ngt v (Int 0) then 1 else 0)) shortage 0;
     Plan.totalShortUnits := sumNum shortage |}.

Definition buildShiftPlanStrategic (fuel : nat) : option Plan.t :=
  match placeLoop fuel initialState with
  | Some (st, _) => Some (planOf st)
  | None => None
  end.
End Planner.


(** ** Hire recommendations: [computeHireRecommendations] *)

Module Hire.
Record mixedT := { ft : num; pt : num; ptLenHours : Z }.
Record t := {
  totalShort : num;
  peakShort : num;
  minFT8 : num;
  minPTcur : num;
  minPT4 : num;
  minPT6 : num;
  mixed : mixedT
}.
End Hire.

(** What [computeHireRecommendations] reads of its argument [plan]: the
    properties [shortage] and [totalShortUnits], each of which may be
    missing. *)
Record PlanView := {
  viewShortage : option (list num);
  viewTotalShortUnits : option num
}.

(** A plan of the planner seen through these two properties. *)
Definition viewOf (p : Plan.t) : PlanView :=
  {| viewShortage := Some (Plan.shortage p);
     viewTotalShortUnits := Some (Plan.totalShortUnits p) |}.

(** [Math.max(...arr, 0)] *)
Definition maxWith0 (arr : list num) : num := fold_right nmax (Int 0) arr.

(** [Math.floor(a / b)] for a divisor that is not zero. *)
Definition floorDiv (a : num) (b : Z) : num :=
  match a with
  | Int x => Int (Qfloor (inject_Z x / inject_Z b)%Q)
  | NaN => NaN
  end.

(** [plan] is [None] for [null] or [undefined]; [ptLenHours] is [None] when
    the argument is left out, and then 4. *)
Definition computeHireRecommendations (plan : option PlanView) (ptLenHours : option Z)
  : option Hire.t :=
  let ptLenHours := default 4 ptLenHours in
  match plan with
  | None => None
  | Some plan =>
      match viewShortage plan with
      | None | Some [] => None
      | Some shortage =>
          let totalShort := default (sumNum shortage) (viewTotalShortUnits plan) in
          let peakShort := maxWith0 shortage in
          let minFT8 := nmax (ceilDiv totalShort 8) peakShort in
          let minPTcur := ceilDiv totalShort ptLenHours in
          let minPT4 := ceilDiv totalShort 4 in
          let minPT6 := ceilDiv totalShort 6 in
          let mixFT := nmax peakShort (floorDiv totalShort 8) in
          let mixResidual := nmax (Int 0) (nsub totalShort (lift2 Z.mul mixFT (Int 8))) in
          let mixPT := ceilDiv mixResidual ptLenHours in
          Some {| Hire.totalShort := totalShort;
                  Hire.peakShort := peakShort;
                  Hire.minFT8 := minFT8;
                  Hire.minPTcur := minPTcur;
                  Hire.minPT4 := minPT4;
                  Hire.minPT6 := minPT6;
                  Hire.mixed := {| Hire.ft := mixFT; Hire.pt := mixPT;
                                   Hire.ptLenHours := ptLenHours |} |}
      end
  end.

(** ** The roster: [buildRoster] *)

Module Entry.
Record t := {
  agent : string;
  type : string;
  start : Z;
  end_ : Z;
  hours : Z;
  lunchStart : num;
  lunchEnd : num
}.
End Entry.

(** The array [roster] and the counters [idFT], [idPT] of [buildRoster]. *)
Record RosterState := { roster : list Entry.t; idFT : Z; idPT : Z }.

(** [snap30(mid - lunchDur / 2)] *)
Definition lunchSnap (mid : Q) (lunchDur : num) : num :=
  match lunchDur with
  | Int d => Int (snap30 (mid - inject_Z d / 2)%Q)
  | NaN => NaN
  end.

Definition add (type : string) (start end_ : Z) (L : string) (rs : RosterState)
  : RosterState :=
  let lenH := end_ - start in
  let durMin := lenH * 60 in
  let lunchDur := nmax (Int 0) (parseInt (strOr L "30")) in
  let mid := (inject_Z (start * 60) + inject_Z durMin / 2)%Q in
  let ls := lunchSnap mid lunchDur in
  let le := nadd ls lunchDur in
  let isFT := String.eqb type "FT" in
  let id := if isFT then idFT rs else idPT rs in
  {| roster := roster rs ++
       [{| Entry.agent := type +:+ "-" +:+ pretty id;
           Entry.type := type;
           Entry.start := start;
           Entry.end_ := end_;
           Entry.hours := lenH;
           Entry.lunchStart := nmax (Int (start * 60)) ls;
           Entry.lunchEnd := nmin (Int (end_ * 60)) le |}];
     idFT := if isFT then idFT rs + 1 else idFT rs;
     idPT := if isFT then idPT rs else idPT rs + 1 |}.

(** [for (const s of shifts) for (let k = 0; k < s.count; k++) add(type, s.start, s.end, lunchMin)] *)
Definition addAll (type : string) (shifts : list ShiftWindow) (lunchMin : string)
  (rs : RosterState) : RosterState :=
  fold_left (fun rs s =>
    Nat.iter (Z.to_nat (count s)) (add type (start s) (end_ s) lunchMin) rs) shifts rs.

Definition buildRoster (shiftsFT shiftsPT : list ShiftWindow) (lunchMin : string)
  : list Entry.t :=
  let rs := {| roster := []; idFT := 1; idPT := 1 |} in
  let rs := addAll "FT" shiftsFT lunchMin rs in
  let rs := addAll "PT" shiftsPT lunchMin rs in
  roster rs.

(** The object that [add] pushes for the agent number [id]. *)
Definition entryOf (type : string) (start end_ : Z) (L : string) (id : Z) : Entry.t :=
  let lunchDur := nmax (Int 0) (parseInt (strOr L "30")) in
  let mid := (inject_Z (start * 60) + inject_Z ((end_ - start) * 60) / 2)%Q in
  let ls := lunchSnap mid lunchDur in
  {| Entry.agent := type +:+ "-" +:+ pretty id;
     Entry.type := type;
     Entry.start := start;
     Entry.end_ := end_;
     Entry.hours := end_ - start;
     Entry.lunchStart := nmax (Int (start * 60)) ls;
     Entry.lunchEnd := nmin (Int (end_ * 60)) (nadd ls lunchDur) |}.

(** ** The limits that the [aggregates] memo of [App] resolves *)

Module Aggregates.
Section Resolve.
(** The text of the form fields and the peak of the integer staffing
  curve. *)
Variables (capFT capPT totalFT totalPT : string) (peakStaff : Z).

(** The template string of [Math.ceil(peakStaff)]: the decimal text of the
    integer. The code writes exponent notation from 10^21 on; statements
    about this text keep the peak within 2^53 ([exactBound] below). *)
Definition peakText : string := pretty peakStaff.

Definition capFt : num := nmax (Int 0) (parseInt (strOr capFT peakText)).
Definition capPt : num := nmax (Int 0) (parseInt (strOr capPT "0")).
Definition maxFTShifts : num :=
nmax (Int 0) (parseInt (strOr (strOr totalFT capFT) peakText)).
Definition maxPTShifts : num :=
nmax (Int 0) (parseInt (strOr (strOr totalPT capPT) "0")).
End Resolve.
End Aggregates.

(** ** The two classes side by side

    [canPlaceFTAt]/[canPlacePTAt] and [placeOneFT]/[placeOnePT] are the same
    code up to the class of the shift. The definitions below index them by
    the class, so that a property is stated once for both. *)

Section ByClass.
Variable limits : Limits.
Variable opts : Opts.

Definition capOf (c : Class) : Z :=
  match c with ClsFT => capFT limits | ClsPT => capPT limits end.
Definition maxShiftsOf (c : Class) : Z :=
  match c with ClsFT => maxFTShifts limits | ClsPT => maxPTShifts limits end.
Definition lenOf (c : Class) : Z :=
  match c with ClsFT => FT | ClsPT => PT opts end.
Definition startsOf (c : Class) : list nat :=
  match c with ClsFT => startsFT | ClsPT => startsPT opts end.
Definition covOf (c : Class) (st : State) : list Z :=
  match c with ClsFT => covFT st | ClsPT => covPT st end.
Definition placedOf (c : Class) (st : State) : Z :=
  match c with ClsFT => placedFT st | ClsPT => placedPT st end.
Definition shiftsOf (c : Class) (st : State) : list ShiftWindow :=
  match c with ClsFT => shiftsFT st | ClsPT => shiftsPT st end.
Definition other (c : Class) : Class :=
  match c with ClsFT => ClsPT | ClsPT => ClsFT end.

Definition canPlaceAt (c : Class) (st : State) (s : nat) : bool :=
  match c with
  | ClsFT => canPlaceFTAt limits st s
  | ClsPT => canPlacePTAt limits opts st s
  end.

(** The body of the scan of the candidate starts. *)
Definition scanOf (c : Class) (st : State) : Z * Z -> nat -> Z * Z :=
  match c with ClsFT => scanFT limits st | ClsPT => scanPT limits opts st end.

Definition placeOne (c : Class) (st : State) : bool * State :=
  match c with
  | ClsFT => placeOneFT limits st
  | ClsPT => placeOnePT limits opts st
  end.

(** The state after the shift of class [c] that starts at [s] is placed:
    what [placeOneFT] and [placeOnePT] do once [bestS] is chosen. *)
Definition placeAt (c : Class) (s : nat) (st : State) : State :=
  match c with
  | ClsFT =>
      countFT (fold_left coverFT (hoursFrom s FT)
        (pushFT {| start := Z.of_nat s; end_ := Z.of_nat s + FT; count := 1 |} st))
  | ClsPT =>
      countPT (fold_left coverPT (hoursFrom s (PT opts))
        (pushPT {| start := Z.of_nat s; end_ := Z.of_nat s + PT opts; count := 1 |} st))
  end.

(** *** The words of the specification *)

(** Hour [h] lies in the window of length [len] that starts at [s]. *)
Definition inWindow (s : nat) (len : Z) (h : nat) : Prop :=
  Z.of_nat s <= Z.of_nat h < Z.of_nat s + len.

#[global] Instance inWindow_decision s len h : Decision (inWindow s len h).
Proof. unfold inWindow. apply _. Defined.

(** A start hour is feasible for a class: it is one of the candidate
    starts, the placed-count has not reached its limit, and at every hour
    of the window the coverage of the class is below its cap and the
    combined coverage below the combined cap. *)
Definition feasible (c : Class) (st : State) (s : nat) : Prop :=
  s ∈ startsOf c /\
  placedOf c st < maxShiftsOf c /\
  forall h, inWindow s (lenOf c) h ->
    get (covOf c st) h < capOf c /\
    get (covFT st) h + get (covPT st) h < capFT limits + capPT limits.

(** The room that is left at hour [h] for one more shift of class [c]: the
    smaller of the remaining combined room and the remaining room of the
    class. *)
Definition room (c : Class) (st : State) (h : nat) : Z :=
  Z.min (capFT limits + capPT limits - (get (covFT st) h + get (covPT st) h))
        (capOf c - get (covOf c st) h).

(** The score of a window: the sum over its hours of
    [min(deficit[h], room)]. *)
Definition windowScore (c : Class) (st : State) (s : nat) : num :=
  fold_left (fun acc h => nadd acc (nmin (readNum (deficit st) h) (Int (room c st h))))
    (hoursFrom s (lenOf c)) (Int 0).

(** The states that the placement loop can be in: the initial one and
    every state that an attempt to place a shift leaves. *)
Inductive reachable (requiredPerHourInt : list Z) : State -> Prop :=
  | reachable_init : reachable requiredPerHourInt (initialState requiredPerHourInt)
  | reachable_step c st b st' :
      reachable requiredPerHourInt st ->
      placeOne c st = (b, st') ->
      reachable requiredPerHourInt st'.

(** The shifts that the limits still allow. *)
Definition slack (st : State) : nat :=
  (Z.to_nat (maxFTShifts limits - placedFT st)
   + Z.to_nat (maxPTShifts limits - placedPT st))%nat.

(** No hour is covered beyond a cap. *)
Definition withinCaps (st : State) : Prop :=
  forall h,
    get (covFT st) h <= capFT limits /\
    get (covPT st) h <= capPT limits /\
    get (covFT st) h + get (covPT st) h <= capFT limits + capPT limits.
End ByClass.

(** An attempt to place a shift: it keeps the state reachable, uses up slack
    when it succeeds and changes nothing when it fails. *)
Definition attempt (requiredPerHourInt : list Z) (limits : Limits) (opts : Opts)
  (f : State -> bool * State) : Prop :=
  forall st b st', f st = (b, st') ->
    (reachable limits opts requiredPerHourInt st ->
     reachable limits opts requiredPerHourInt st') /\
    if b then (slack limits st' < slack limits st)%nat else st' = st.

(** The agents that the windows [ws] put on hour [h]: the sum of the counts
    of the windows whose interval [start, end) contains [h]. *)
Definition covering (ws : list ShiftWindow) (h : nat) : Z :=
  fold_right (fun w acc =>
    (if (start w <=? Z.of_nat h) && (Z.of_nat h <? end_ w) then count w else 0) + acc)
    0 ws.

(** The number of shifts of the windows [ws]: the sum of their counts. *)
Definition totalCount (ws : list ShiftWindow) : Z :=
  fold_right (fun w acc => count w + acc) 0 ws.

(** [arr[h] = f(arr[h])] for each hour of [hs] in turn. *)
Definition alterAll (f : Z -> Z) (hs : list nat) (arr : list Z) : list Z :=
  fold_left (fun arr h => alter f h arr) hs arr.

(** The sum over the windows of [count * g start end], for a weight [g] of
    the interval: what merging windows of one interval keeps. *)
Definition weigh (g : Z -> Z -> Z) (ws : list ShiftWindow) : Z :=
  fold_right (fun w acc => count w * g (start w) (end_ w) + acc) 0 ws.

(** ** A sample day

    A requirement curve with a morning and an afternoon peak, caps of 4
    full-time and 3 part-time agents per hour, 5 and 4 employees in all, the
    mixed strategy at 60 percent and 4-hour part-time shifts. *)

Definition sampleRequired : list Z :=
  [0; 0; 0; 0; 0; 0; 1; 2; 4; 6; 7; 7; 6; 5; 5; 6; 7; 5; 3; 2; 1; 0; 0; 0].

Definition sampleLimits : Limits :=
  {| capFT := 4; capPT := 3; maxFTShifts := 5; maxPTShifts := 4 |}.

Definition sampleOpts : Opts :=
  {| strategy := "mixed"; mixedFtPercent := Int 60; isWeekend := false;
     ptLenHours := 4 |}.


(** ** Words for further properties of [merge] and of the planner *)

(** A window comes before another in the order of [merge]: by start, then
    by end. *)
Definition before (a b : ShiftWindow) : Prop :=
  start a < start b \/ (start a = start b /\ end_ a < end_ b).

(** The comparator does not put [a] after [b]. *)
Definition notAfter (a b : ShiftWindow) : Prop := compareWindows a b <= 0.

(** Two windows of one interval. *)
Definition sameInterval (a b : ShiftWindow) : Prop :=
  start a = start b /\ end_ a = end_ b.

(** The sum of a vector of integers. *)
Definition sumZ (zs : list Z) : Z := fold_right Z.add 0 zs.

(** 1 for the interval of [w], 0 for any other: the weight that counts the
    windows of one interval. *)
Definition onInterval (w : ShiftWindow) (s e : Z) : Z :=
  if (s =? start w) && (e =? end_ w) then 1 else 0.

(** The merged windows of one class in a plan. *)
Definition planShifts (c : Class) (p : Plan.t) : list ShiftWindow :=
  match c with
  | ClsFT => Plan.shiftsFT p
  | ClsPT => Plan.shiftsPT p
  end.

(** A class that cannot get a shift whatever the requirement: no employee,
    no agent allowed per hour, or a shift length that has no hour or does
    not fit in the day. *)
Definition barred (limits : Limits) (opts : Opts) (c : Class) : Prop :=
  maxShiftsOf limits c <= 0 \/ capOf limits c <= 0 \/
  lenOf opts c <= 0 \/ 24 < lenOf opts c.

(** The number of hours with a positive entry. *)
Definition positives (zs : list Z) : Z :=
  Z.of_nat (length (filter (fun z => 0 < z) zs)).

(** The shifts of a list of windows, one agent each: every window as many
    times as its count, none for a count of 0 or less. *)
Definition slots (shifts : list ShiftWindow) : list (Z * Z) :=
  shifts ≫= (fun w => replicate (Z.to_nat (count w)) (start w, end_ w)).

(** The roster rows of the shifts [sl] of one class, numbered from [id0]. *)
Definition rowsFrom (type : string) (L : string) (id0 : Z) (sl : list (Z * Z))
  : list Entry.t :=
  imap (fun i se => entryOf type se.1 se.2 L (id0 + Z.of_nat i)) sl.

(** The counter that [add] reads and bumps for [type], and the other one. *)
Definition idOf (type : string) (rs : RosterState) : Z :=
  if String.eqb type "FT" then idFT rs else idPT rs.
Definition idOther (type : string) (rs : RosterState) : Z :=
  if String.eqb type "FT" then idPT rs else idFT rs.

(** ** The requirement that the [aggregates] memo hands to the planner *)

(** [rows.map((r) => Math.max(0, Math.ceil(r.Staff ?? 0)))], on the [Staff]
    of each row: [None] for a row that has none. *)
Definition staffInt (rows : list (option Q)) : list Z :=
  (fun staff => Z.max 0 (Qceiling (default 0%Q staff))) <$> rows.

(** [Math.max(...staffInt)] *)
Definition peakStaff (rows : list (option Q)) : option Z := maxOf (staffInt rows).

(** The recommendation that asks for nobody, for the part-time length
    [len]. *)
Definition noHire (len : Z) : Hire.t :=
  {| Hire.totalShort := Int 0; Hire.peakShort := Int 0;
     Hire.minFT8 := Int 0; Hire.minPTcur := Int 0;
     Hire.minPT4 := Int 0; Hire.minPT6 := Int 0;
     Hire.mixed := {| Hire.ft := Int 0; Hire.pt := Int 0; Hire.ptLenHours := len |} |}.

(** ** The coverage table of [exportShiftCSV] and [ShiftAndCoverage] *)

(** One line of the table: [[h, req, cov, short, over]]. *)
Record CoverageRow := {
  rowHour : nat; rowReq : Z; rowCov : Z; rowShort : Z; rowOver : Z
}.

(** [req = p.required[h] ?? 0; cov = p.coverage[h] ?? 0;
    short = Math.max(0, req - cov); over = Math.max(0, cov - req)] *)
Definition coverageRow (p : Plan.t) (h : nat) : CoverageRow :=
  let req := default 0 (Plan.required p !! h) in
  let cov := default 0 (Plan.coverage p !! h) in
  {| rowHour := h; rowReq := req; rowCov := cov;
     rowShort := Z.max 0 (req - cov); rowOver := Z.max 0 (cov - req) |}.

(** [for (let h = 0; h < 24; h++)] and [Array.from({ length: 24 }, ...)] *)
Definition coverageRows (p : Plan.t) : list CoverageRow :=
  coverageRow p <$> arrayFromLength 24.

(** [short ? 'table-danger' : over ? 'table-warning' : ''] *)
Definition rowClass (r : CoverageRow) : string :=
  if negb (rowShort r =? 0) then "table-danger"
  else if negb (rowOver r =? 0) then "table-warning"
  else EmptyString.

(** ** The clock times of the roster: [hhmm] *)

(** [s.padStart(2, '0')] *)
Definition padStart2 (s : string) : string :=
  match String.length s with
  | 0%nat => "00"
  | 1%nat => "0" +:+ s
  | _ => s
  end.

(** [`${String(Math.floor(mins/60)).padStart(2,'0')}:${String(mins%60).padStart(2,'0')}`]
    for a whole number of minutes. *)
Definition hhmm (mins : Z) : string :=
  padStart2 (pretty (mins / 60)) +:+ ":" +:+ padStart2 (pretty (Z.rem mins 60)).

(** ** The range in which the numbers of the code are exact *)

(** 2^53. A JavaScript number holds every integer up to it, so up to it
    [parseInt] returns the integer that the digits write and the template
    string of an integer is its decimal text (the embedding's [parseInt]
    and [Aggregates.peakText]).  Beyond it [parseInt] rounds, and from
    10^21 on the template string is in exponent notation; the statements
    about texts of numbers are made within this bound. *)
Definition exactBound : Z := 9007199254740992.

(** ** Runs of the planner

    The code reads no clock, no random source and no state but its
    arguments, so one call is a function of them; the one step that the
    language leaves to the engine is [arr.sort(cmp)] in [merge].  The sort
    returns the elements it was given in an order that the comparator
    accepts; which of two elements that compare equal comes first was the
    engine's choice before ES2019 and is the order of insertion since.  A
    run of the planner is taken with any such sort. *)

(** [sorted] is a result that [arr.sort(cmp)] may give for [arr]. *)
Definition sortsTo (arr sorted : list ShiftWindow) : Prop :=
  sorted ≡ₚ arr /\ StronglySorted notAfter sorted.

(** [out] is a result that [merge(arr)] may give: the loop of [merge] over
    a result of the sort. *)
Definition mergesTo (arr out : list ShiftWindow) : Prop :=
  exists sorted, sortsTo arr sorted /\ out = fold_left mergeStep sorted [].

(** The plan built from the state [st] that the loop leaves, with the
    merged windows [mergedFT] and [mergedPT]: every other field is
    computed from the coverage arrays and does not depend on the merge. *)
Definition planWith (requiredPerHourInt : list Z) (limits : Limits) (st : State)
  (mergedFT mergedPT : list ShiftWindow) : Plan.t :=
  let p := planOf requiredPerHourInt limits st in
  {| Plan.shiftsFT := mergedFT;
     Plan.shiftsPT := mergedPT;
     Plan.coverage := Plan.coverage p;
     Plan.required := Plan.required p;
     Plan.shortage := Plan.shortage p;
     Plan.excess := Plan.excess p;
     Plan.maxConcurrent := Plan.maxConcurrent p;
     Plan.limits := Plan.limits p;
     Plan.hoursShort := Plan.hoursShort p;
     Plan.totalShortUnits := Plan.totalShortUnits p |}.

(** [plan] is the result of a run of [buildShiftPlanStrategic]: the loop
    ends (with some fuel) and each class is merged with a sort of the
    engine's. *)
Definition runsTo (requiredPerHourInt : list Z) (limits : Limits) (opts : Opts)
  (plan : Plan.t) : Prop :=
  exists fuel st n mergedFT mergedPT,
    placeLoop limits opts fuel (initialState requiredPerHourInt) = Some (st, n) /\
    mergesTo (shiftsFT st) mergedFT /\
    mergesTo (shiftsPT st) mergedPT /\
    plan = planWith requiredPerHourInt limits st mergedFT mergedPT.

(** A run of the planner followed by [buildRoster] on its windows. *)
Definition rosterRunsTo (requiredPerHourInt : list Z) (limits : Limits) (opts : Opts)
  (lunchMin : string) (plan : Plan.t) (r : list Entry.t) : Prop :=
  runsTo requiredPerHourInt limits opts plan /\
  r = buildRoster (Plan.shiftsFT plan) (Plan.shiftsPT plan) lunchMin.

(** * Properties *)

(** ** Arrays updated over a window *)

Lemma length_alterAll f hs arr : length (alterAll f hs arr) = length arr.
Proof.
  unfold alterAll. revert arr.
  induction hs as [|h hs IH]; intros arr; simpl; [done|].
  by rewrite IH, length_alter.
Qed.

Lemma lookup_alterAll_seq f s n arr h :
  alterAll f (seq s n) arr !! h
  = (if decide (s <= h < s + n)%nat then f else id) <$> arr !! h.
Proof.
  unfold alterAll. induction n as [|n IH].
  - simpl. case_decide; [lia|]. by destruct (arr !! h).
  - rewrite seq_S, fold_left_app. simpl.
    destruct (decide (s + n = h)%nat) as [<-|Hne].
    + rewrite list_lookup_alter_eq, IH. clear IH.
      repeat case_decide; try lia.
      by destruct (arr !! (s + n)%nat).
    + rewrite list_lookup_alter_ne, IH by done. clear IH.
      repeat case_decide; try lia; done.
Qed.

Lemma get_alterAll_seq f s n arr h :
  (h < length arr)%nat ->
  get (alterAll f (seq s n) arr) h
  = if decide (s <= h < s + n)%nat then f (get arr h) else get arr h.
Proof.
  intros Hlt. unfold get. rewrite lookup_alterAll_seq.
  destruct (lookup_lt_is_Some_2 arr h Hlt) as [v ->].
  by case_decide.
Qed.

Lemma get_ge arr h : (length arr <= h)%nat -> get arr h = 0.
Proof. intros Hge. unfold get. by rewrite (proj2 (lookup_ge_None arr h) Hge). Qed.

Lemma get_replicate n h : get (replicate n 0) h = 0.
Proof.
  unfold get. destruct (replicate n 0 !! h) as [v|] eqn:E; [|done].
  by apply lookup_replicate_1 in E as [-> _].
Qed.

Lemma fold_coverFT hs st :
  fold_left coverFT hs st =
  {| deficit := alterAll (fun d => Z.max 0 (d - 1)) hs (deficit st);
     covFT := alterAll (fun v => v + 1) hs (covFT st);
     covPT := covPT st;
     placedFT := placedFT st; placedPT := placedPT st;
     shiftsFT := shiftsFT st; shiftsPT := shiftsPT st |}.
Proof.
  revert st. induction hs as [|h hs IH]; intros st; simpl.
  - by destruct st.
  - by rewrite IH.
Qed.

Lemma fold_coverPT hs st :
  fold_left coverPT hs st =
  {| deficit := alterAll (fun d => Z.max 0 (d - 1)) hs (deficit st);
     covFT := covFT st;
     covPT := alterAll (fun v => v + 1) hs (covPT st);
     placedFT := placedFT st; placedPT := placedPT st;
     shiftsFT := shiftsFT st; shiftsPT := shiftsPT st |}.
Proof.
  revert st. induction hs as [|h hs IH]; intros st; simpl.
  - by destruct st.
  - by rewrite IH.
Qed.

(** ** The fields of the state after a placement *)

Ltac by_class c :=
  destruct c; unfold placeAt; rewrite ?fold_coverFT, ?fold_coverPT; reflexivity.

Section PlaceAt.
Variable limits : Limits.
Variable opts : Opts.

Lemma placeAt_cov c s st :
  covOf c (placeAt opts c s st)
  = alterAll (fun v => v + 1) (hoursFrom s (lenOf opts c)) (covOf c st).
Proof. by_class c. Qed.

Lemma placeAt_cov_other c s st :
  covOf (other c) (placeAt opts c s st) = covOf (other c) st.
Proof. by_class c. Qed.

Lemma placeAt_deficit c s st :
  deficit (placeAt opts c s st)
  = alterAll (fun d => Z.max 0 (d - 1)) (hoursFrom s (lenOf opts c)) (deficit st).
Proof. by_class c. Qed.

Lemma placeAt_placed c s st :
  placedOf c (placeAt opts c s st) = placedOf c st + 1.
Proof. by_class c. Qed.

Lemma placeAt_placed_other c s st :
  placedOf (other c) (placeAt opts c s st) = placedOf (other c) st.
Proof. by_class c. Qed.

Lemma placeAt_shifts c s st :
  shiftsOf c (placeAt opts c s st)
  = shiftsOf c st ++
    [{| start := Z.of_nat s; end_ := Z.of_nat s + lenOf opts c; count := 1 |}].
Proof. by_class c. Qed.

Lemma placeAt_shifts_other c s st :
  shiftsOf (other c) (placeAt opts c s st) = shiftsOf (other c) st.
Proof. by_class c. Qed.

(** An hour is one of [hoursFrom s len] exactly when it is in the window. *)
Lemma elem_of_hoursFrom s len h :
  h ∈ hoursFrom s len <-> inWindow s len h.
Proof. unfold hoursFrom, inWindow. rewrite elem_of_seq. lia. Qed.

Lemma inWindow_nat s len h :
  (s <= h < s + Z.to_nat len)%nat <-> inWindow s len h.
Proof. unfold inWindow. lia. Qed.
End PlaceAt.

(** ** One placement step *)

Lemma fold_left_ext_elem {A B} (f g : A -> B -> A) (l : list B) (a : A) :
  (forall acc x, x ∈ l -> f acc x = g acc x) ->
  fold_left f l a = fold_left g l a.
Proof.
  revert a. induction l as [|x l IH]; intros a Hfg; simpl; [done|].
  rewrite (Hfg a x) by apply list_elem_of_here.
  apply IH. intros acc y Hy. apply Hfg. by apply list_elem_of_further.
Qed.

Section PlaceOne.
Variable limits : Limits.
Variable opts : Opts.

#[local] Abbreviation feasible := (feasible limits opts).
#[local] Abbreviation canPlaceAt := (canPlaceAt limits opts).
#[local] Abbreviation placeOne := (placeOne limits opts).
#[local] Abbreviation placeAt := (placeAt opts).
#[local] Abbreviation lenOf := (lenOf opts).
#[local] Abbreviation startsOf := (startsOf opts).
#[local] Abbreviation capOf := (capOf limits).
#[local] Abbreviation maxShiftsOf := (maxShiftsOf limits).
#[local] Abbreviation windowScore := (windowScore limits opts).
#[local] Abbreviation room := (room limits).
#[local] Abbreviation scanOf := (scanOf limits opts).

(** [canPlaceFTAt] and [canPlacePTAt] decide the feasibility of the
    specification. *)
Lemma canPlaceAt_spec c st s :
  canPlaceAt c st s = true <->
  placedOf c st < maxShiftsOf c /\
  forall h, inWindow s (lenOf c) h ->
    get (covOf c st) h < capOf c /\
    get (covFT st) h + get (covPT st) h < capFT limits + capPT limits.
Proof.
  destruct c; simpl; unfold canPlaceFTAt, canPlacePTAt.
  all: match goal with |- context [?a >=? ?b] => destruct (Z.geb_spec a b) end.
  all: try (split; [done | lia]).
  all: rewrite forallb_forall; split.
  all: try (intros Hall; split; [lia|]; intros h Hh;
            apply elem_of_hoursFrom, list_elem_of_In, Hall in Hh;
            repeat match type of Hh with
                   | context [?a >=? ?b] => destruct (Z.geb_spec a b); try done
                   end; lia).
  all: intros [_ Hall] h Hh; apply list_elem_of_In, elem_of_hoursFrom, Hall in Hh.
  all: repeat match goal with
              | |- context [?a >=? ?b] => destruct (Z.geb_spec a b); try lia
              end; done.
Qed.

Lemma feasible_canPlaceAt c st s :
  feasible c st s <-> s ∈ startsOf c /\ canPlaceAt c st s = true.
Proof. unfold feasible. rewrite canPlaceAt_spec. tauto. Qed.

(** On a window that can be placed, [scoreWindow] computes the score of
    the specification: every hour has room, so no hour is skipped. *)
Lemma scoreWindow_windowScore c st s :
  canPlaceAt c st s = true ->
  scoreWindow limits st s (lenOf c) c = windowScore c st s.
Proof.
  intros [_ Hall]%canPlaceAt_spec.
  unfold scoreWindow, windowScore. apply fold_left_ext_elem.
  intros acc h Hh%elem_of_hoursFrom.
  destruct (Hall h Hh) as [Hc Ht]. unfold room. cbv zeta.
  destruct c; simpl in *.
  all: match goal with |- context [?a <=? 0] => destruct (Z.leb_spec a 0); [lia|] end.
  all: match goal with |- context [?a >? 0] => destruct (Z.gtb_spec a 0); [|lia] end.
  all: do 3 f_equal; lia.
Qed.

(** A score that is a number read a deficit at every hour of its window:
    no hour of a window that is placed lies past the end of [deficit]. *)
Lemma fold_nadd_NaN {A} (f : A -> num) (l : list A) :
  fold_left (fun acc x => nadd acc (f x)) l NaN = NaN.
Proof. induction l as [|x l IH]; simpl; [done|apply IH]. Qed.

Lemma windowScore_defined c st s v h :
  windowScore c st s = Int v -> inWindow s (lenOf c) h ->
  is_Some (deficit st !! h).
Proof.
  unfold windowScore. intros Hv Hh%elem_of_hoursFrom.
  revert Hv. generalize (Int 0). generalize dependent (hoursFrom s (lenOf c)).
  intros hs Hh. induction hs as [|h' hs IH]; intros acc Hv.
  - by apply elem_of_nil in Hh.
  - cbn [fold_left] in Hv.
    destruct (deficit st !! h') as [dv|] eqn:Hd.
    + apply elem_of_cons in Hh as [->|Hh]; [by rewrite Hd|]. by eapply IH.
    + unfold readNum in Hv. rewrite Hd in Hv.
      replace (nadd acc (nmin NaN (Int (room c st h')))) with NaN in Hv
        by (by destruct acc).
      by rewrite fold_nadd_NaN in Hv.
Qed.

Lemma scanOf_eq c st bestS best s :
  scanOf c st (bestS, best) s =
  if canPlaceAt c st s then
    match scoreWindow limits st s (lenOf c) c with
    | Int sc => if sc >? best then (Z.of_nat s, sc) else (bestS, best)
    | NaN => (bestS, best)
    end
  else (bestS, best).
Proof.
  destruct c; simpl; unfold scanFT, scanPT.
  - by destruct (canPlaceFTAt limits st s).
  - by destruct (canPlacePTAt limits opts st s).
Qed.

(** After the starts below [k] are scanned, [best] is the greatest
    positive score among them (0 if there is none) and [bestS] the first
    start that reaches it. *)
Lemma scan_invariant c st k :
  let '(bestS, best) := fold_left (scanOf c st) (seq 0 k) (-1, 0) in
  0 <= best /\
  (forall s v, (s < k)%nat -> canPlaceAt c st s = true ->
     scoreWindow limits st s (lenOf c) c = Int v -> v <= best) /\
  (0 < best -> exists s, (s < k)%nat /\ bestS = Z.of_nat s /\
     canPlaceAt c st s = true /\
     scoreWindow limits st s (lenOf c) c = Int best /\
     forall s' v', (s' < s)%nat -> canPlaceAt c st s' = true ->
       scoreWindow limits st s' (lenOf c) c = Int v' -> v' < best).
Proof.
  induction k as [|k IH].
  - simpl. split; [lia|]. split; [intros; lia | lia].
  - rewrite seq_S, fold_left_app. simpl.
    destruct (fold_left (scanOf c st) (seq 0 k) (-1, 0)) as [bestS best].
    destruct IH as (Hpos & Hmax & Hfirst).
    rewrite scanOf_eq.
    destruct (canPlaceAt c st k) eqn:Hcan;
      [destruct (scoreWindow limits st k (lenOf c) c) as [sc|] eqn:Hsc;
       [destruct (Z.gtb_spec sc best) as [Hgt|Hle]|]|].
    + (* the window at [k] scores more *)
      split; [lia|]. split.
      * intros s v Hs Hc Hv. destruct (decide (s = k)) as [->|Hne].
        -- rewrite Hsc in Hv. injection Hv as <-. lia.
        -- specialize (Hmax s v ltac:(lia) Hc Hv). lia.
      * intros _. exists k. repeat split; [lia|done|done|].
        intros s' v' Hs' Hc' Hv'. specialize (Hmax s' v' ltac:(lia) Hc' Hv'). lia.
    + split; [lia|]. split.
      * intros s v Hs Hc Hv. destruct (decide (s = k)) as [->|Hne].
        -- rewrite Hsc in Hv. injection Hv as <-. lia.
        -- specialize (Hmax s v ltac:(lia) Hc Hv). lia.
      * intros Hb. destruct (Hfirst Hb) as (s & Hs & ?). exists s.
        split; [lia|done].
    + split; [lia|]. split.
      * intros s v Hs Hc Hv. destruct (decide (s = k)) as [->|Hne].
        -- congruence.
        -- specialize (Hmax s v ltac:(lia) Hc Hv). lia.
      * intros Hb. destruct (Hfirst Hb) as (s & Hs & ?). exists s.
        split; [lia|done].
    + split; [lia|]. split.
      * intros s v Hs Hc Hv. destruct (decide (s = k)) as [->|Hne].
        -- congruence.
        -- specialize (Hmax s v ltac:(lia) Hc Hv). lia.
      * intros Hb. destruct (Hfirst Hb) as (s & Hs & ?). exists s.
        split; [lia|done].
Qed.

Lemma startsOf_seq c : startsOf c = seq 0 (Z.to_nat (H - lenOf c + 1)).
Proof. by destruct c. Qed.

Lemma elem_of_startsOf c s :
  s ∈ startsOf c <-> Z.of_nat s + lenOf c <= H.
Proof. rewrite startsOf_seq, elem_of_seq. lia. Qed.

Lemma placeOne_unfold c st :
  placeOne c st =
  if placedOf c st >=? maxShiftsOf c then (false, st)
  else
    let '(bestS, best) := fold_left (scanOf c st) (startsOf c) (-1, 0) in
    if best <=? 0 then (false, st) else (true, placeAt c (Z.to_nat bestS) st).
Proof.
  pose proof (scan_invariant c st (Z.to_nat (H - lenOf c + 1))) as Hinv.
  rewrite <- startsOf_seq in Hinv.
  remember (fold_left (scanOf c st) (startsOf c) (-1, 0)) as r eqn:Hr.
  destruct r as [bestS best].
  assert (Hstart : 0 < best -> Z.of_nat (Z.to_nat bestS) = bestS).
  { intros Hpos. destruct Hinv as (_ & _ & Hfirst).
    destruct (Hfirst Hpos) as (s & _ & -> & _). by rewrite Nat2Z.id. }
  clear Hinv. destruct c.
  - change (placeOne ClsFT st) with (placeOneFT limits st). unfold placeOneFT.
    change (fold_left (scanFT limits st) startsFT (-1, 0))
      with (fold_left (scanOf ClsFT st) (startsOf ClsFT) (-1, 0)).
    rewrite <- Hr. cbn [placedOf maxShiftsOf].
    destruct (placedFT st >=? maxFTShifts limits); [done|].
    destruct (Z.leb_spec best 0) as [|Hpos]; [done|].
    unfold placeAt. by rewrite (Hstart Hpos).
  - change (placeOne ClsPT st) with (placeOnePT limits opts st). unfold placeOnePT.
    change (fold_left (scanPT limits opts st) (startsPT opts) (-1, 0))
      with (fold_left (scanOf ClsPT st) (startsOf ClsPT) (-1, 0)).
    rewrite <- Hr. cbn [placedOf maxShiftsOf].
    destruct (placedPT st >=? maxPTShifts limits); [done|].
    destruct (Z.leb_spec best 0) as [|Hpos]; [done|].
    unfold placeAt. by rewrite (Hstart Hpos).
Qed.
End PlaceOne.

Section PlacementStep.
Variable limits : Limits.
Variable opts : Opts.

#[local] Abbreviation feasible := (feasible limits opts).
#[local] Abbreviation placeOne := (placeOne limits opts).
#[local] Abbreviation placeAt := (placeAt opts).
#[local] Abbreviation lenOf := (lenOf opts).
#[local] Abbreviation startsOf := (startsOf opts).
#[local] Abbreviation windowScore := (windowScore limits opts).

(** An attempt either fails and leaves the state as it is, because no
    feasible start has a positive score, or places the shift at the first
    feasible start of greatest score. *)
Lemma placeOne_cases c st :
  (placeOne c st = (false, st) /\
   forall s v, feasible c st s -> windowScore c st s = Int v -> v <= 0)
  \/
  (exists s v,
     placeOne c st = (true, placeAt c s st) /\
     feasible c st s /\ windowScore c st s = Int v /\ 0 < v /\
     forall s' v', feasible c st s' -> windowScore c st s' = Int v' ->
       v' <= v /\ ((s' < s)%nat -> v' < v)).
Proof.
  rewrite placeOne_unfold.
  destruct (Z.geb_spec (placedOf c st) (maxShiftsOf limits c)) as [Hfull|Hfree].
  { left. split; [done|]. intros s v (_ & Hlt & _). lia. }
  pose proof (scan_invariant limits opts c st (Z.to_nat (H - lenOf c + 1))) as Hinv.
  rewrite <- startsOf_seq in Hinv.
  destruct (fold_left (scanOf limits opts c st) (startsOf c) (-1, 0)) as [bestS best].
  destruct Hinv as (Hpos & Hmax & Hfirst).
  assert (Hbound : forall s v, feasible c st s -> windowScore c st s = Int v -> v <= best).
  { intros s v Hf Hv. apply feasible_canPlaceAt in Hf as [Hs Hcan].
    apply (Hmax s v); [|done|by rewrite scoreWindow_windowScore].
    rewrite startsOf_seq, elem_of_seq in Hs. lia. }
  destruct (Z.leb_spec best 0) as [Hzero|Hbest].
  { left. split; [done|]. intros s v Hf Hv. specialize (Hbound s v Hf Hv). lia. }
  right. destruct (Hfirst Hbest) as (s & Hs & -> & Hcan & Hsc & Hlow).
  exists s, best. rewrite Nat2Z.id. split; [done|].
  assert (Hfs : feasible c st s).
  { apply feasible_canPlaceAt. split; [|done].
    rewrite startsOf_seq, elem_of_seq. lia. }
  split; [done|]. split; [by rewrite <- scoreWindow_windowScore|]. split; [done|].
  intros s' v' Hf' Hv'. split; [by apply (Hbound s')|].
  intros Hlt. apply feasible_canPlaceAt in Hf' as [_ Hcan'].
  apply (Hlow s' v' Hlt Hcan'). by rewrite scoreWindow_windowScore.
Qed.

(** What [placeOne] returns is the state itself on failure and
    [placeAt c s st] for a feasible start [s] on success. *)
Lemma placeOne_inv c st b st' :
  placeOne c st = (b, st') ->
  (b = false /\ st' = st) \/
  (b = true /\ exists s, feasible c st s /\ st' = placeAt c s st).
Proof.
  intros Hp. destruct (placeOne_cases c st) as [[Hf _]|(s & v & Hs & Hfs & _)].
  - left. rewrite Hf in Hp. by injection Hp as <- <-.
  - right. rewrite Hs in Hp. injection Hp as <- <-. eauto.
Qed.

(** C4. A placement step of either class scans the candidate starts in
    ascending order (0..16 for the 8-hour full-time shift, 0..24 - length
    for a part-time shift) and keeps the feasible start whose window score,
    the sum over the window of min(deficit, room), is greatest, the
    smallest such start on a tie. When no feasible start scores more than 0
    the step fails and the state is unchanged. Otherwise it appends the
    window with count 1, adds 1 to the coverage of the class on the hours
    of the window, takes 1 off the deficit there without going below 0,
    adds 1 to the placed-count of the class, and leaves the coverage, the
    placed-count and the windows of the other class alone; every hour of
    the window is an hour of the day for which the deficit has an entry.
    The state is any state whose coverage arrays have their 24 slots, as
    every state of the planner has. *)
Theorem placement_step c st :
  length (covFT st) = 24%nat -> length (covPT st) = 24%nat ->
  lenOf ClsFT = 8 /\ lenOf ClsPT = ptLenHours opts /\
  (forall s, s ∈ startsOf c <-> 0 <= Z.of_nat s <= 24 - lenOf c) /\
  ((placeOne c st = (false, st) /\
    forall s v, feasible c st s -> windowScore c st s = Int v -> v <= 0)
   \/
   (exists s v st',
      placeOne c st = (true, st') /\
      feasible c st s /\ windowScore c st s = Int v /\ 0 < v /\
      (forall s' v', feasible c st s' -> windowScore c st s' = Int v' ->
         v' <= v /\ ((s' < s)%nat -> v' < v)) /\
      (forall h, inWindow s (lenOf c) h ->
         (h < 24)%nat /\ is_Some (deficit st !! h)) /\
      shiftsOf c st' = shiftsOf c st ++
        [{| start := Z.of_nat s; end_ := Z.of_nat s + lenOf c; count := 1 |}] /\
      (forall h, covOf c st' !! h =
         (fun x => if decide (inWindow s (lenOf c) h) then x + 1 else x)
           <$> covOf c st !! h) /\
      (forall h, deficit st' !! h =
         (fun d => if decide (inWindow s (lenOf c) h) then Z.max 0 (d - 1) else d)
           <$> deficit st !! h) /\
      placedOf c st' = placedOf c st + 1 /\
      covOf (other c) st' = covOf (other c) st /\
      placedOf (other c) st' = placedOf (other c) st /\
      shiftsOf (other c) st' = shiftsOf (other c) st)).
Proof.
  intros _ _. split; [done|]. split; [done|]. split.
  { intros s. rewrite elem_of_startsOf. unfold H. lia. }
  destruct (placeOne_cases c st) as [Hfail|(s & v & Hp & Hf & Hv & Hpos & Hbest)];
    [by left|right].
  exists s, v, (placeAt c s st).
  repeat (split; [done|]).
  split.
  { intros h Hh. split; [|by eapply windowScore_defined].
    destruct Hf as (Hs%elem_of_startsOf & _). unfold inWindow, H in *. lia. }
  split; [apply placeAt_shifts|].
  split.
  { intros h. rewrite placeAt_cov. unfold hoursFrom. rewrite lookup_alterAll_seq.
    destruct (covOf c st !! h); [simpl|done].
    repeat case_decide; try done; exfalso;
      match goal with H : ¬ _ |- _ => apply H end;
      unfold inWindow in *; lia. }
  split.
  { intros h. rewrite placeAt_deficit. unfold hoursFrom. rewrite lookup_alterAll_seq.
    destruct (deficit st !! h); [simpl|done].
    repeat case_decide; try done; exfalso;
      match goal with H : ¬ _ |- _ => apply H end;
      unfold inWindow in *; lia. }
  split; [apply placeAt_placed|].
  split; [apply placeAt_cov_other|].
  split; [apply placeAt_placed_other|apply placeAt_shifts_other].
Qed.
End PlacementStep.

Lemma placement_step_witness :
  exists s v st',
    placeOne sampleLimits sampleOpts ClsFT (initialState sampleRequired) = (true, st') /\
    feasible sampleLimits sampleOpts ClsFT (initialState sampleRequired) s /\
    windowScore sampleLimits sampleOpts ClsFT (initialState sampleRequired) s = Int v /\
    0 < v /\
    placedFT st' = 1 /\
    shiftsFT st' = [{| start := Z.of_nat s; end_ := Z.of_nat s + 8; count := 1 |}].
Proof.
  destruct (placement_step sampleLimits sampleOpts ClsFT (initialState sampleRequired)
              eq_refl eq_refl) as (_ & _ & _ & [[Hfail _]|Hok]).
  - vm_compute in Hfail. discriminate Hfail.
  - destruct Hok as (s & v & st' & Hp & Hf & Hv & Hpos & _ & _ & Hsh & _ & _ & Hpl & _).
    exists s, v, st'.
    split; [exact Hp|]. split; [exact Hf|]. split; [exact Hv|].
    split; [exact Hpos|]. split; [exact Hpl|exact Hsh].
Defined.

(** ** The placement loop *)

Section Loop.
Variable requiredPerHourInt : list Z.
Variable limits : Limits.
Variable opts : Opts.

#[local] Abbreviation feasible := (feasible limits opts).
#[local] Abbreviation placeOne := (placeOne limits opts).
#[local] Abbreviation placeAt := (placeAt opts).
#[local] Abbreviation reachable := (reachable limits opts requiredPerHourInt).
#[local] Abbreviation slack := (slack limits).
#[local] Abbreviation attempt := (attempt requiredPerHourInt limits opts).

Lemma slack_placeAt c s st :
  feasible c st s -> (slack (placeAt c s st) < slack st)%nat.
Proof.
  intros (_ & Hlt & _). unfold slack.
  pose proof (placeAt_placed opts c s st) as Hp.
  pose proof (placeAt_placed_other opts c s st) as Ho.
  destruct c; simpl in *; lia.
Qed.

Lemma attempt_placeOne c : attempt (placeOne c).
Proof.
  intros st b st' Hp. split; [intros Hr; by eapply reachable_step|].
  apply placeOne_inv in Hp as [[-> ->]|[-> (s & Hf & ->)]]; [done|].
  by apply slack_placeAt.
Qed.

Lemma attempt_orElse f g : attempt f -> attempt g -> attempt (orElse f g).
Proof.
  intros Hf Hg st b st'. unfold orElse.
  destruct (f st) as [bf st1] eqn:Ef. destruct (Hf _ _ _ Ef) as [Hr1 Hs1].
  destruct bf.
  - intros [= <- <-]. done.
  - subst st1. apply Hg.
Qed.

(** A [while] loop over an attempt ends before its fuel when the fuel
    exceeds the slack, after at most one iteration more than the slack it
    used up. *)
Lemma while_attempt cond fuel st :
  attempt cond -> (slack st < fuel)%nat ->
  exists st' n, while fuel cond st = Some (st', n) /\
    (n + slack st' <= slack st + 1)%nat /\ (1 <= n)%nat /\
    (reachable st -> reachable st').
Proof.
  intros Hc. revert st. induction fuel as [|fuel IH]; intros st Hfuel; [lia|].
  simpl. destruct (cond st) as [b st1] eqn:Ec.
  destruct (Hc _ _ _ Ec) as [Hr1 Hs1]. destruct b.
  - destruct (IH st1 ltac:(lia)) as (st' & n & -> & Hn & Hn1 & Hr).
    exists st', (S n). repeat split; try lia; auto.
  - subst st1. exists st, 1%nat. repeat split; try lia; auto.
Qed.

Lemma mixedBody_attempt ft pt st ft' pt' st' progress :
  mixedBody limits opts ft pt st = (ft', pt', st', progress) ->
  (reachable st -> reachable st') /\
  if progress then (slack st' < slack st)%nat else st' = st.
Proof.
  unfold mixedBody.
  change (placeOneFT limits) with (placeOne ClsFT).
  change (placeOnePT limits opts) with (placeOne ClsPT).
  destruct (belowTarget opts ft pt).
  - destruct (placeOne ClsFT st) as [b1 st1] eqn:E1.
    destruct (placeOne ClsPT st1) as [b2 st2] eqn:E2.
    intros [= <- <- <- <-].
    destruct (attempt_placeOne _ _ _ _ E1) as [Hr1 Hs1].
    destruct (attempt_placeOne _ _ _ _ E2) as [Hr2 Hs2].
    split; [auto|]. destruct b1, b2; simpl; subst; try done; lia.
  - destruct (placeOne ClsPT st) as [b1 st1] eqn:E1.
    destruct (placeOne ClsFT st1) as [b2 st2] eqn:E2.
    intros [= <- <- <- <-].
    destruct (attempt_placeOne _ _ _ _ E1) as [Hr1 Hs1].
    destruct (attempt_placeOne _ _ _ _ E2) as [Hr2 Hs2].
    split; [auto|]. destruct b1, b2; simpl; subst; try done; lia.
Qed.

Lemma mixedLoop_attempt fuel ft pt st :
  (slack st < fuel)%nat ->
  exists st' n, mixedLoop limits opts fuel ft pt st = Some (st', n) /\
    (n + slack st' <= slack st + 1)%nat /\ (1 <= n)%nat /\
    (reachable st -> reachable st').
Proof.
  revert ft pt st. induction fuel as [|fuel IH]; intros ft pt st Hfuel; [lia|].
  simpl. destruct (mixedBody limits opts ft pt st) as [[[ft' pt'] st1] progress] eqn:Eb.
  destruct (mixedBody_attempt _ _ _ _ _ _ _ Eb) as [Hr1 Hs1]. destruct progress.
  - destruct (IH ft' pt' st1 ltac:(lia)) as (st' & n & -> & Hn & Hn1 & Hr).
    exists st', (S n). repeat split; try lia; auto.
  - subst st1. exists st, 1%nat. repeat split; try lia; auto.
Qed.

(** The loop of every strategy ends when the fuel exceeds the slack. *)
Lemma placeLoop_ends fuel st :
  (slack st < fuel)%nat ->
  exists st' n, placeLoop limits opts fuel st = Some (st', n) /\
    (n + slack st' <= slack st + 1)%nat /\ (1 <= n)%nat /\
    (reachable st -> reachable st').
Proof.
  intros Hfuel. unfold placeLoop.
  change (placeOneFT limits) with (placeOne ClsFT).
  change (placeOnePT limits opts) with (placeOne ClsPT).
  repeat match goal with |- context [if ?b then _ else _] => destruct b end.
  all: try (apply while_attempt; [|done];
            apply attempt_orElse; apply attempt_placeOne).
  by apply mixedLoop_attempt.
Qed.

(** More fuel than a loop needs does not change what it returns. *)
Lemma while_fuel cond fuel fuel' st r :
  while fuel cond st = Some r -> (fuel <= fuel')%nat ->
  while fuel' cond st = Some r.
Proof.
  revert fuel' st r. induction fuel as [|fuel IH]; intros fuel' st r; [done|].
  intros Hw Hle. destruct fuel' as [|fuel']; [lia|]. simpl in *.
  destruct (cond st) as [b st1]. destruct b; [|done].
  destruct (while fuel cond st1) as [[st2 n]|] eqn:E; [|done].
  by rewrite (IH fuel' st1 _ E ltac:(lia)).
Qed.

Lemma mixedLoop_fuel fuel fuel' ft pt st r :
  mixedLoop limits opts fuel ft pt st = Some r -> (fuel <= fuel')%nat ->
  mixedLoop limits opts fuel' ft pt st = Some r.
Proof.
  revert fuel' ft pt st r.
  induction fuel as [|fuel IH]; intros fuel' ft pt st r; [done|].
  intros Hw Hle. destruct fuel' as [|fuel']; [lia|]. simpl in *.
  destruct (mixedBody limits opts ft pt st) as [[[ft' pt'] st1] b]. destruct b; [|done].
  destruct (mixedLoop limits opts fuel ft' pt' st1) as [[st2 n]|] eqn:E; [|done].
  by rewrite (IH fuel' ft' pt' st1 _ E ltac:(lia)).
Qed.

Lemma placeLoop_fuel fuel fuel' st r :
  placeLoop limits opts fuel st = Some r -> (fuel <= fuel')%nat ->
  placeLoop limits opts fuel' st = Some r.
Proof.
  unfold placeLoop.
  repeat match goal with |- context [if ?b then _ else _] => destruct b end.
  all: first [apply while_fuel | apply mixedLoop_fuel].
Qed.
End Loop.

(** ** What holds in every reachable state *)

Section Invariants.
Variable requiredPerHourInt : list Z.
Variable limits : Limits.
Variable opts : Opts.

#[local] Abbreviation feasible := (feasible limits opts).
#[local] Abbreviation placeOne := (placeOne limits opts).
#[local] Abbreviation placeAt := (placeAt opts).
#[local] Abbreviation lenOf := (lenOf opts).
#[local] Abbreviation capOf := (capOf limits).
#[local] Abbreviation maxShiftsOf := (maxShiftsOf limits).
#[local] Abbreviation reachable := (reachable limits opts requiredPerHourInt).
#[local] Abbreviation withinCaps := (withinCaps limits).

(** Induction over the placements that lead to a state. *)
Lemma reachable_placements (P : State -> Prop) :
  P (initialState requiredPerHourInt) ->
  (forall c s st, reachable st -> P st -> feasible c st s -> P (placeAt c s st)) ->
  forall st, reachable st -> P st.
Proof.
  intros Hinit Hstep st Hr. induction Hr as [|c st b st' Hr IH Hp]; [done|].
  apply placeOne_inv in Hp as [[-> ->]|[-> (s & Hf & ->)]]; [done|].
  by apply Hstep.
Qed.

Lemma covFT_covOf c st h :
  get (covFT st) h + get (covPT st) h
  = get (covOf c st) h + get (covOf (other c) st) h.
Proof. destruct c; simpl; lia. Qed.

(** The arrays keep their lengths: one slot per hour for the coverage,
    the length of the requirement for the deficit. *)
Lemma reachable_shape st :
  reachable st ->
  (forall c, length (covOf c st) = 24%nat) /\
  length (deficit st) = length requiredPerHourInt.
Proof.
  revert st. apply reachable_placements.
  - split; [|done]. intros []; reflexivity.
  - intros c s st _ [Hcov Hdef] _. split.
    + intros c'. destruct (decide (c' = c)) as [->|Hne].
      * by rewrite placeAt_cov, length_alterAll.
      * replace c' with (other c) by (destruct c, c'; done).
        rewrite placeAt_cov_other. apply Hcov.
    + by rewrite placeAt_deficit, length_alterAll.
Qed.

(** The hours of a candidate window are hours of the day. *)
Lemma feasible_in_day c st s h :
  feasible c st s -> inWindow s (lenOf c) h -> (h < 24)%nat.
Proof.
  intros (Hs & _) Hw. apply elem_of_startsOf in Hs.
  unfold inWindow, H in *. lia.
Qed.

(** The coverage of the class after a placement, hour by hour. *)
Lemma get_placeAt_cov c s st h :
  reachable st -> feasible c st s ->
  get (covOf c (placeAt c s st)) h
  = get (covOf c st) h + (if decide (inWindow s (lenOf c) h) then 1 else 0).
Proof.
  intros Hr Hf. rewrite placeAt_cov. unfold hoursFrom.
  destruct (reachable_shape st Hr) as [Hlen _].
  destruct (decide (inWindow s (lenOf c) h)) as [Hw|Hw].
  - rewrite get_alterAll_seq
      by (rewrite Hlen; by eapply feasible_in_day).
    case_decide as Hd; [done|]. rewrite inWindow_nat in Hd. done.
  - destruct (decide (h < length (covOf c st))%nat) as [Hlt|Hge].
    + rewrite get_alterAll_seq by done.
      case_decide as Hd; [|lia]. rewrite inWindow_nat in Hd. done.
    + rewrite !get_ge; rewrite ?length_alterAll; lia.
Qed.

Lemma get_placeAt_cov_other c s st h :
  get (covOf (other c) (placeAt c s st)) h = get (covOf (other c) st) h.
Proof. by rewrite placeAt_cov_other. Qed.

(** *** Caps *)

Lemma reachable_withinCaps st :
  0 <= capFT limits -> 0 <= capPT limits ->
  reachable st -> withinCaps st.
Proof.
  intros HcF HcP. revert st. apply reachable_placements.
  - intros h. unfold initialState. cbn [covFT covPT]. rewrite !get_replicate. lia.
  - intros c s st Hr IH Hf h.
    pose proof (get_placeAt_cov c s st h Hr Hf) as Hc.
    pose proof (get_placeAt_cov_other c s st h) as Ho.
    destruct (IH h) as (HF & HP & HT).
    destruct Hf as (_ & _ & Hroom).
    destruct (decide (inWindow s (lenOf c) h)) as [Hw|Hw].
    + destruct (Hroom h Hw) as [Hlt Hsum].
      destruct c; simpl in *; lia.
    + destruct c; simpl in *; lia.
Qed.

(** *** Headcount *)

Lemma reachable_placed st :
  reachable st ->
  forall c, placedOf c st = totalCount (shiftsOf c st) /\
            (0 <= maxShiftsOf c -> placedOf c st <= maxShiftsOf c).
Proof.
  revert st.
  apply (reachable_placements (fun st => forall c,
    placedOf c st = totalCount (shiftsOf c st) /\
    (0 <= maxShiftsOf c -> placedOf c st <= maxShiftsOf c))).
  - intros []; simpl; split; lia.
  - intros c s st _ IH Hf c'. destruct (decide (c' = c)) as [->|Hne].
    + rewrite placeAt_placed, placeAt_shifts.
      destruct (IH c) as [Hcount Hmax]. destruct Hf as (_ & Hlt & _).
      split; [rewrite Hcount|lia].
      unfold totalCount. rewrite fold_right_app. simpl.
      generalize (shiftsOf c st). intros ws.
      induction ws as [|w ws IHws]; simpl; lia.
    + replace c' with (other c) by (destruct c, c'; done).
      rewrite placeAt_placed_other, placeAt_shifts_other. apply IH.
Qed.
End Invariants.

(** ** Sorting and merging the windows *)

Lemma weigh_app g ws ws' : weigh g (ws ++ ws') = weigh g ws + weigh g ws'.
Proof. unfold weigh. induction ws as [|w ws IH]; simpl; lia. Qed.

Lemma weigh_insertWindow g p l :
  weigh g (insertWindow p l) = weigh g [p] + weigh g l.
Proof.
  unfold weigh. induction l as [|q l IH]; simpl; [lia|].
  destruct (compareWindows q p <=? 0); simpl in *; lia.
Qed.

Lemma weigh_sortWindows g arr : weigh g (sortWindows arr) = weigh g arr.
Proof.
  unfold sortWindows.
  enough (Hgen : forall acc,
    weigh g (fold_left (fun sorted p => insertWindow p sorted) arr acc)
    = weigh g arr + weigh g acc) by (rewrite Hgen; simpl; lia).
  induction arr as [|p arr IH]; intros acc; simpl; [done|].
  rewrite IH, weigh_insertWindow. simpl. lia.
Qed.

Lemma weigh_mergeStep g out p :
  weigh g (mergeStep out p) = weigh g out + weigh g [p].
Proof.
  induction out as [|q out IH]; [done|].
  destruct out as [|q' out].
  - simpl. destruct (Z.eqb_spec (start q) (start p)) as [Hs|];
      [destruct (Z.eqb_spec (end_ q) (end_ p)) as [He|]|]; simpl; try lia.
    rewrite Hs, He. lia.
  - change (mergeStep (q :: q' :: out) p) with (q :: mergeStep (q' :: out) p).
    change (weigh g (q :: ?l)) with (count q * g (start q) (end_ q) + weigh g l).
    rewrite IH. simpl. lia.
Qed.

Lemma weigh_merge g arr : weigh g (merge arr) = weigh g arr.
Proof.
  unfold merge. rewrite <- (weigh_sortWindows g arr).
  enough (Hgen : forall out,
    weigh g (fold_left mergeStep (sortWindows arr) out)
    = weigh g out + weigh g (sortWindows arr)) by (rewrite Hgen; simpl; lia).
  induction (sortWindows arr) as [|p l IH]; intros out; simpl; [lia|].
  rewrite IH, weigh_mergeStep. simpl. lia.
Qed.

Lemma covering_weigh ws h :
  covering ws h
  = weigh (fun s e => if (s <=? Z.of_nat h) && (Z.of_nat h <? e) then 1 else 0) ws.
Proof.
  unfold covering, weigh. induction ws as [|w ws IH]; simpl; [done|].
  rewrite IH. destruct ((start w <=? Z.of_nat h) && (Z.of_nat h <? end_ w)); lia.
Qed.

Lemma totalCount_weigh ws : totalCount ws = weigh (fun _ _ => 1) ws.
Proof.
  unfold totalCount, weigh. induction ws as [|w ws IH]; simpl; [done|].
  rewrite IH. lia.
Qed.

(** Merging keeps the agents on every hour and the number of shifts. *)
Lemma covering_merge arr h : covering (merge arr) h = covering arr h.
Proof. by rewrite !covering_weigh, weigh_merge. Qed.

Lemma totalCount_merge arr : totalCount (merge arr) = totalCount arr.
Proof. by rewrite !totalCount_weigh, weigh_merge. Qed.

Lemma covering_app ws ws' h : covering (ws ++ ws') h = covering ws h + covering ws' h.
Proof. by rewrite !covering_weigh, weigh_app. Qed.

Section Coverage.
Variable requiredPerHourInt : list Z.
Variable limits : Limits.
Variable opts : Opts.

#[local] Abbreviation placeAt := (placeAt opts).
#[local] Abbreviation lenOf := (lenOf opts).
#[local] Abbreviation reachable := (reachable limits opts requiredPerHourInt).

(** The coverage arrays count the windows that were pushed. *)
Lemma reachable_covering st :
  reachable st ->
  forall c h, get (covOf c st) h = covering (shiftsOf c st) h.
Proof.
  revert st.
  apply (reachable_placements requiredPerHourInt limits opts
           (fun st => forall c h, get (covOf c st) h = covering (shiftsOf c st) h)).
  - intros [] h; unfold initialState; cbn [covOf covFT covPT]; by rewrite get_replicate.
  - intros c s st Hr IH Hf c' h. destruct (decide (c' = c)) as [->|Hne].
    + rewrite (get_placeAt_cov requiredPerHourInt limits opts c s st h Hr Hf).
      rewrite placeAt_shifts, covering_app, IH. f_equal.
      unfold covering. cbn [fold_right start end_ count].
      case_decide as Hw; unfold inWindow in Hw.
      * destruct (Z.leb_spec (Z.of_nat s) (Z.of_nat h)); [|lia].
        destruct (Z.ltb_spec (Z.of_nat h) (Z.of_nat s + lenOf c)); [done|lia].
      * destruct (Z.leb_spec (Z.of_nat s) (Z.of_nat h)); [|done].
        destruct (Z.ltb_spec (Z.of_nat h) (Z.of_nat s + lenOf c)); [lia|done].
    + replace c' with (other c) by (destruct c, c'; done).
      rewrite placeAt_cov_other, placeAt_shifts_other. apply IH.
Qed.

(** The deficit is what the coverage leaves of the requirement. *)
Lemma reachable_deficit st :
  Forall (fun r => 0 <= r) requiredPerHourInt ->
  reachable st ->
  forall h, deficit st !! h =
    (fun r => Z.max 0 (r - (get (covFT st) h + get (covPT st) h)))
      <$> requiredPerHourInt !! h.
Proof.
  intros Hreq. revert st.
  apply (reachable_placements requiredPerHourInt limits opts
           (fun st => forall h, deficit st !! h =
              (fun r => Z.max 0 (r - (get (covFT st) h + get (covPT st) h)))
                <$> requiredPerHourInt !! h)).
  - intros h. unfold initialState. cbn [deficit covFT covPT].
    rewrite !get_replicate.
    destruct (requiredPerHourInt !! h) as [r|] eqn:E; [simpl|done].
    pose proof (Forall_lookup_1 _ _ _ _ Hreq E). simpl in *. f_equal. lia.
  - intros c s st Hr IH Hf h.
    rewrite placeAt_deficit. unfold hoursFrom. rewrite lookup_alterAll_seq, IH.
    rewrite (covFT_covOf c (placeAt c s st)), (covFT_covOf c st).
    rewrite (get_placeAt_cov requiredPerHourInt limits opts c s st h Hr Hf).
    rewrite get_placeAt_cov_other.
    destruct (requiredPerHourInt !! h) as [r|]; [simpl|by case_decide].
    repeat case_decide; simpl; f_equal; try lia.
    all: exfalso; unfold inWindow in *; lia.
Qed.
End Coverage.

(** ** The planner as a whole *)

Section Run.
Variable requiredPerHourInt : list Z.
Variable limits : Limits.
Variable opts : Opts.

#[local] Abbreviation reachable := (reachable limits opts requiredPerHourInt).
#[local] Abbreviation slack := (slack limits).
#[local] Abbreviation run := (buildShiftPlanStrategic requiredPerHourInt limits opts).
#[local] Abbreviation plan := (planOf requiredPerHourInt limits).

(** With more fuel than the limits allow shifts, the loop ends in a
    reachable state and the plan is built from it. *)
Lemma run_ends fuel :
  Z.max 0 (maxFTShifts limits) + Z.max 0 (maxPTShifts limits) < Z.of_nat fuel ->
  exists st n,
    placeLoop limits opts fuel (initialState requiredPerHourInt) = Some (st, n) /\
    run fuel = Some (plan st) /\
    reachable st /\ (1 <= n)%nat /\
    Z.of_nat n + Z.of_nat (slack st)
      <= Z.max 0 (maxFTShifts limits) + Z.max 0 (maxPTShifts limits) + 1.
Proof.
  intros Hfuel.
  destruct (placeLoop_ends requiredPerHourInt limits opts fuel
              (initialState requiredPerHourInt))
    as (st & n & Hloop & Hn & Hn1 & Hr).
  { unfold slack, initialState. cbn [placedFT placedPT]. lia. }
  exists st, n. unfold buildShiftPlanStrategic. rewrite Hloop.
  split; [done|]. split; [done|]. split; [apply Hr, reachable_init|]. split; [done|].
  revert Hn. unfold slack at 2, initialState. cbn [placedFT placedPT]. lia.
Qed.

(** The vectors of the plan, hour by hour. *)
Lemma planOf_coverage st h :
  reachable st -> (h < 24)%nat ->
  Plan.coverage (plan st) !! h = Some (get (covFT st) h + get (covPT st) h).
Proof.
  intros Hr Hh. destruct (reachable_shape _ _ _ st Hr) as [Hlen _].
  unfold planOf. cbn [Plan.coverage]. rewrite list_lookup_imap.
  specialize (Hlen ClsFT). simpl in Hlen.
  destruct (lookup_lt_is_Some_2 (covFT st) h ltac:(lia)) as [v Hv].
  unfold get. by rewrite Hv.
Qed.

Lemma planOf_coverage_length st :
  reachable st -> length (Plan.coverage (plan st)) = 24%nat.
Proof.
  intros Hr. destruct (reachable_shape _ _ _ st Hr) as [Hlen _].
  unfold planOf. cbn [Plan.coverage]. rewrite length_imap. apply (Hlen ClsFT).
Qed.

Lemma planOf_shortage st h :
  reachable st -> (h < 24)%nat ->
  Plan.shortage (plan st) !! h =
  Some (nmax (Int 0) (nsub (readNum requiredPerHourInt h)
                           (Int (get (covFT st) h + get (covPT st) h)))).
Proof.
  intros Hr Hh. pose proof (planOf_coverage st h Hr Hh) as Hc.
  unfold planOf in *. cbn [Plan.coverage Plan.shortage] in *.
  by rewrite list_lookup_imap, Hc.
Qed.

Lemma planOf_excess st h :
  reachable st -> (h < 24)%nat ->
  Plan.excess (plan st) !! h =
  Some (nmax (Int 0) (nsub (Int (get (covFT st) h + get (covPT st) h))
                           (readNum requiredPerHourInt h))).
Proof.
  intros Hr Hh. pose proof (planOf_coverage st h Hr Hh) as Hc.
  unfold planOf in *. cbn [Plan.coverage Plan.excess] in *.
  by rewrite list_lookup_imap, Hc.
Qed.

Lemma planOf_covering st c h :
  reachable st ->
  covering (match c with
            | ClsFT => Plan.shiftsFT (plan st)
            | ClsPT => Plan.shiftsPT (plan st)
            end) h = get (covOf c st) h.
Proof.
  intros Hr. rewrite (reachable_covering _ _ _ st Hr c h).
  destruct c; unfold planOf; cbn [Plan.shiftsFT Plan.shiftsPT shiftsOf];
    apply covering_merge.
Qed.
End Run.

(** ** The properties of the specification: the planner *)

(** C8. With non-negative total-shift limits the placement loop of every
    strategy terminates: any fuel above [maxFTShifts + maxPTShifts] is
    enough, and more fuel gives the same result. It performs at most
    [maxFTShifts + maxPTShifts + 2] iterations: every iteration but the last
    places a shift, and the shifts placed are at most
    [maxFTShifts + maxPTShifts]. *)
Theorem placeLoop_terminates (requiredPerHourInt : list Z) (limits : Limits)
    (opts : Opts) (fuel : nat) :
  0 <= maxFTShifts limits -> 0 <= maxPTShifts limits ->
  maxFTShifts limits + maxPTShifts limits < Z.of_nat fuel ->
  exists st n,
    placeLoop limits opts fuel (initialState requiredPerHourInt) = Some (st, n) /\
    (forall fuel', (fuel <= fuel')%nat ->
       placeLoop limits opts fuel' (initialState requiredPerHourInt) = Some (st, n)) /\
    Z.of_nat n <= maxFTShifts limits + maxPTShifts limits + 2 /\
    Z.of_nat n <= placedFT st + placedPT st + 1 /\
    placedFT st + placedPT st <= maxFTShifts limits + maxPTShifts limits.
Proof.
  intros HmF HmP Hfuel.
  destruct (run_ends requiredPerHourInt limits opts fuel ltac:(lia))
    as (st & n & Hloop & _ & Hr & Hn1 & Hn).
  exists st, n. split; [done|].
  split; [intros fuel' Hle; by eapply placeLoop_fuel|].
  destruct (reachable_placed _ _ _ st Hr ClsFT) as [_ HF].
  destruct (reachable_placed _ _ _ st Hr ClsPT) as [_ HP].
  simpl in HF, HP. specialize (HF HmF). specialize (HP HmP).
  unfold slack in Hn. lia.
Qed.

Lemma placeLoop_terminates_witness :
  exists st n,
    placeLoop sampleLimits sampleOpts 10 (initialState sampleRequired) = Some (st, n) /\
    (forall fuel', (10 <= fuel')%nat ->
       placeLoop sampleLimits sampleOpts fuel' (initialState sampleRequired)
       = Some (st, n)) /\
    Z.of_nat n <= 5 + 4 + 2 /\
    Z.of_nat n <= placedFT st + placedPT st + 1 /\
    placedFT st + placedPT st <= 5 + 4.
Proof.
  apply (placeLoop_terminates sampleRequired sampleLimits sampleOpts 10);
    simpl; lia.
Defined.

(** C1. For every requirement vector, non-negative limits and every
    strategy and part-time length, the planner returns a plan, and at every
    hour the full-time coverage is at most [capFT], the part-time coverage
    at most [capPT] and their sum at most [capFT + capPT]; this holds of the
    coverage arrays that the loop leaves, of the coverage that the returned
    windows imply, and of the [coverage] vector of the plan. *)
Theorem cap_invariant (requiredPerHourInt : list Z) (limits : Limits)
    (opts : Opts) (fuel : nat) :
  0 <= capFT limits -> 0 <= capPT limits ->
  0 <= maxFTShifts limits -> 0 <= maxPTShifts limits ->
  maxFTShifts limits + maxPTShifts limits < Z.of_nat fuel ->
  exists st n plan,
    placeLoop limits opts fuel (initialState requiredPerHourInt) = Some (st, n) /\
    buildShiftPlanStrategic requiredPerHourInt limits opts fuel = Some plan /\
    forall h,
      get (covFT st) h <= capFT limits /\
      get (covPT st) h <= capPT limits /\
      get (covFT st) h + get (covPT st) h <= capFT limits + capPT limits /\
      covering (Plan.shiftsFT plan) h = get (covFT st) h /\
      covering (Plan.shiftsPT plan) h = get (covPT st) h /\
      forall c, Plan.coverage plan !! h = Some c -> c <= capFT limits + capPT limits.
Proof.
  intros HcF HcP HmF HmP Hfuel.
  destruct (run_ends requiredPerHourInt limits opts fuel ltac:(lia))
    as (st & n & Hloop & Hrun & Hr & _).
  exists st, n, (planOf requiredPerHourInt limits st).
  split; [done|]. split; [done|]. intros h.
  destruct (reachable_withinCaps _ _ _ st HcF HcP Hr h) as (HF & HP & HT).
  split; [done|]. split; [done|]. split; [done|].
  split; [apply (planOf_covering _ _ opts st ClsFT h Hr)|].
  split; [apply (planOf_covering _ _ opts st ClsPT h Hr)|].
  intros c Hc.
  destruct (decide (h < 24)%nat) as [Hh|Hh].
  - rewrite (planOf_coverage _ _ opts st h Hr Hh) in Hc. injection Hc as <-. done.
  - apply lookup_lt_Some in Hc.
    rewrite (planOf_coverage_length _ _ opts st Hr) in Hc. lia.
Qed.

Lemma cap_invariant_witness :
  exists st n plan,
    placeLoop sampleLimits sampleOpts 10 (initialState sampleRequired) = Some (st, n) /\
    buildShiftPlanStrategic sampleRequired sampleLimits sampleOpts 10 = Some plan /\
    forall h,
      get (covFT st) h <= 4 /\
      get (covPT st) h <= 3 /\
      get (covFT st) h + get (covPT st) h <= 4 + 3 /\
      covering (Plan.shiftsFT plan) h = get (covFT st) h /\
      covering (Plan.shiftsPT plan) h = get (covPT st) h /\
      forall c, Plan.coverage plan !! h = Some c -> c <= 4 + 3.
Proof.
  apply (cap_invariant sampleRequired sampleLimits sampleOpts 10); simpl; lia.
Defined.

(** C2. For every input with non-negative total-shift limits the planner
    returns a plan in which the counts of the full-time windows sum to at
    most [maxFTShifts] and the counts of the part-time windows to at most
    [maxPTShifts]. *)
Theorem headcount_invariant (requiredPerHourInt : list Z) (limits : Limits)
    (opts : Opts) (fuel : nat) :
  0 <= maxFTShifts limits -> 0 <= maxPTShifts limits ->
  maxFTShifts limits + maxPTShifts limits < Z.of_nat fuel ->
  exists plan,
    buildShiftPlanStrategic requiredPerHourInt limits opts fuel = Some plan /\
    totalCount (Plan.shiftsFT plan) <= maxFTShifts limits /\
    totalCount (Plan.shiftsPT plan) <= maxPTShifts limits.
Proof.
  intros HmF HmP Hfuel.
  destruct (run_ends requiredPerHourInt limits opts fuel ltac:(lia))
    as (st & n & _ & Hrun & Hr & _).
  exists (planOf requiredPerHourInt limits st). split; [done|].
  unfold planOf. cbn [Plan.shiftsFT Plan.shiftsPT]. rewrite !totalCount_merge.
  destruct (reachable_placed _ _ _ st Hr ClsFT) as [HF1 HF2].
  destruct (reachable_placed _ _ _ st Hr ClsPT) as [HP1 HP2].
  simpl in *. rewrite <- HF1, <- HP1. auto.
Qed.

Lemma headcount_invariant_witness :
  exists plan,
    buildShiftPlanStrategic sampleRequired sampleLimits sampleOpts 10 = Some plan /\
    totalCount (Plan.shiftsFT plan) <= 5 /\
    totalCount (Plan.shiftsPT plan) <= 4.
Proof.
  apply (headcount_invariant sampleRequired sampleLimits sampleOpts 10); simpl; lia.
Defined.





Lemma buildShiftPlanStrategic_fuel requiredPerHourInt limits opts fuel fuel' plan :
  buildShiftPlanStrategic requiredPerHourInt limits opts fuel = Some plan ->
  (fuel <= fuel')%nat ->
  buildShiftPlanStrategic requiredPerHourInt limits opts fuel' = Some plan.
Proof.
  unfold buildShiftPlanStrategic. intros Hrun Hle.
  destruct (placeLoop limits opts fuel (initialState requiredPerHourInt))
    as [[st n]|] eqn:Hloop; [|done].
  by rewrite (placeLoop_fuel limits opts fuel fuel' _ _ Hloop Hle).
Qed.

(** ** Hire recommendations *)

Lemma ceilDiv_int (a b : Z) :
  b <> 0 -> ceilDiv (Int a) b = Int (- ((- a) / b)).
Proof.
  intros Hb. unfold ceilDiv. destruct (Z.eqb_spec b 0); [done|].
  f_equal. unfold Qceiling. f_equal. rewrite Zdiv_Qdiv. apply Qfloor_comp.
  rewrite inject_Z_opp. unfold Qdiv. ring.
Qed.

Lemma floorDiv_int (a b : Z) : floorDiv (Int a) b = Int (a / b).
Proof. unfold floorDiv. by rewrite Zdiv_Qdiv. Qed.

Lemma sumNum_ints (zs : list Z) : sumNum (Int <$> zs) = Int (fold_right Z.add 0 zs).
Proof.
  unfold sumNum.
  enough (Hgen : forall a, fold_left nadd (Int <$> zs) (Int a)
                           = Int (a + fold_right Z.add 0 zs)) by apply Hgen.
  induction zs as [|z zs IH]; intros a.
  - simpl. f_equal. lia.
  - rewrite fmap_cons. cbn [fold_left fold_right nadd lift2]. rewrite IH. f_equal. lia.
Qed.

Lemma maxWith0_ints (zs : list Z) :
  maxWith0 (Int <$> zs) = Int (fold_right Z.max 0 zs).
Proof.
  unfold maxWith0. induction zs as [|z zs IH]; [done|].
  rewrite fmap_cons. cbn [fold_right]. by rewrite IH.
Qed.

(** [fold_right Z.max 0] is the greatest of 0 and the entries. *)
Lemma max0_spec (zs : list Z) :
  let peak := fold_right Z.max 0 zs in
  0 <= peak /\ (forall z, z ∈ zs -> z <= peak) /\ (peak = 0 \/ peak ∈ zs).
Proof.
  induction zs as [|z zs (Hpos & Hall & Hin)]; simpl.
  - split; [lia|]. split; [|by left]. intros z Hz. by apply elem_of_nil in Hz.
  - split; [lia|]. split.
    + intros y [->|Hy]%elem_of_cons; [lia|]. specialize (Hall y Hy). lia.
    + destruct (Z.max_spec z (fold_right Z.max 0 zs)) as [[_ ->]|[_ ->]].
      * destruct Hin as [Hin|Hin]; [by left|]. right. by apply list_elem_of_further.
      * right. apply list_elem_of_here.
Qed.

(** The planner finds nothing short on a day that requires nobody, and the
    recommendation for its plan is not [None]: it is all zeros. *)
Lemma hire_none_counterexample :
  exists plan,
    buildShiftPlanStrategic (replicate 24 0) sampleLimits sampleOpts 10 = Some plan /\
    Plan.shortage plan = replicate 24 (Int 0) /\
    computeHireRecommendations (Some (viewOf plan)) (Some 4) =
      Some {| Hire.totalShort := Int 0; Hire.peakShort := Int 0;
              Hire.minFT8 := Int 0; Hire.minPTcur := Int 0;
              Hire.minPT4 := Int 0; Hire.minPT6 := Int 0;
              Hire.mixed := {| Hire.ft := Int 0; Hire.pt := Int 0;
                               Hire.ptLenHours := 4 |} |} /\
    computeHireRecommendations (Some (viewOf plan)) (Some 4) <> None.
Proof.
  eexists. split; [vm_compute; reflexivity|].
  split; [vm_compute; reflexivity|].
  split; [vm_compute; reflexivity|].
  vm_compute. discriminate.
Qed.

(** C6, amended. [computeHireRecommendations] returns no recommendation
    exactly when its argument has no shortage vector or an empty one (a plan
    of the planner has 24 entries and always gets a recommendation, all
    zeros when nothing is short). For a non-empty vector of integers, a
    [totalShortUnits] that is absent or its sum, and a part-time length that
    is not 0: [totalShort] is the sum of the vector, [peakShort] the greatest
    of 0 and its entries (its maximum when no entry is negative),
    [minFT8 = max(ceil(totalShort/8), peakShort)], [minPTcur], [minPT4],
    [minPT6] are [ceil(totalShort/length)] for the active length, 4 and 6,
    and [mixed] is [ft = max(peakShort, floor(totalShort/8))] with
    [pt = ceil(max(0, totalShort - ft*8) / length)]. *)
Theorem hire_recommendation (plan : option PlanView) (ptLenHours : option Z) :
  let len := default 4 ptLenHours in
  (computeHireRecommendations plan ptLenHours = None <->
   match plan with
   | None => True
   | Some p => viewShortage p = None \/ viewShortage p = Some []
   end) /\
  (forall p zs,
     plan = Some p -> viewShortage p = Some (Int <$> zs) -> zs <> [] ->
     viewTotalShortUnits p = None \/
       viewTotalShortUnits p = Some (Int (fold_right Z.add 0 zs)) ->
     len <> 0 ->
     let total := fold_right Z.add 0 zs in
     let peak := fold_right Z.max 0 zs in
     let ceil (a b : Z) := Qceiling (inject_Z a / inject_Z b) in
     let floor (a b : Z) := Qfloor (inject_Z a / inject_Z b) in
     let ft := Z.max peak (floor total 8) in
     0 <= peak /\ (forall z, z ∈ zs -> z <= peak) /\ (peak = 0 \/ peak ∈ zs) /\
     (Forall (fun z => 0 <= z) zs -> peak ∈ zs) /\
     computeHireRecommendations plan ptLenHours =
       Some {| Hire.totalShort := Int total;
               Hire.peakShort := Int peak;
               Hire.minFT8 := Int (Z.max (ceil total 8) peak);
               Hire.minPTcur := Int (ceil total len);
               Hire.minPT4 := Int (ceil total 4);
               Hire.minPT6 := Int (ceil total 6);
               Hire.mixed :=
                 {| Hire.ft := Int ft;
                    Hire.pt := Int (ceil (Z.max 0 (total - ft * 8)) len);
                    Hire.ptLenHours := len |} |}).
Proof.
  intros len. split.
  - unfold computeHireRecommendations. destruct plan as [p|]; [|done].
    destruct (viewShortage p) as [[|v shortage]|]; split; try done; try tauto.
    intros [|]; done.
  - intros p zs -> Hzs Hne Htotal Hlen total peak ceil floor ft.
    destruct (max0_spec zs) as (Hpos & Hall & Hin). fold peak in Hpos, Hall, Hin.
    split; [done|]. split; [done|]. split; [done|]. split.
    { intros Hnonneg. destruct Hin as [H0|]; [|done].
      destruct zs as [|z zs]; [done|].
      apply Forall_cons in Hnonneg as [Hz _].
      specialize (Hall z (list_elem_of_here _ _)).
      replace peak with z by lia. apply list_elem_of_here. }
    unfold computeHireRecommendations. rewrite Hzs.
    destruct zs as [|z zs]; [done|].
    change (Int <$> z :: zs) with (Int z :: (Int <$> zs)).
    change (Int z :: (Int <$> zs)) with (Int <$> z :: zs).
    assert (Ht : default (sumNum (Int <$> z :: zs)) (viewTotalShortUnits p) = Int total).
    { destruct Htotal as [-> | ->]; [apply sumNum_ints|done]. }
    rewrite Ht, maxWith0_ints. fold peak. fold len.
    unfold ceilDiv, floorDiv; simpl.
    destruct (Z.eqb_spec len 0); [done|]. done.
Qed.

Lemma hire_recommendation_witness :
  computeHireRecommendations
    (Some {| viewShortage := Some (Int <$> [0; 3; 2]); viewTotalShortUnits := None |})
    (Some 4)
  = Some {| Hire.totalShort := Int 5; Hire.peakShort := Int 3;
            Hire.minFT8 := Int 3; Hire.minPTcur := Int 2;
            Hire.minPT4 := Int 2; Hire.minPT6 := Int 1;
            Hire.mixed := {| Hire.ft := Int 3; Hire.pt := Int 0;
                             Hire.ptLenHours := 4 |} |}.
Proof.
  pose proof (hire_recommendation
    (Some {| viewShortage := Some (Int <$> [0; 3; 2]); viewTotalShortUnits := None |})
    (Some 4)) as [_ Hrec].
  specialize (Hrec _ [0; 3; 2] eq_refl eq_refl ltac:(discriminate)
                (or_introl eq_refl) ltac:(simpl; lia)).
  destruct Hrec as (_ & _ & _ & _ & ->). reflexivity.
Defined.

(** ** The roster *)

Lemma round_sixtieths (n : Z) : round (n # 60) = (n + 30) / 60.
Proof.
  unfold round.
  rewrite (Qfloor_comp _ ((n + 30) # 60)); [reflexivity|].
  unfold Qeq, Qplus. simpl. lia.
Qed.

(** Snapping [a - d/2] minutes, in whole numbers. *)
Lemma snap30_minutes (a d : Z) :
  snap30 (inject_Z a - inject_Z d / 2)%Q = (2 * a - d + 30) / 60 * 30.
Proof.
  unfold snap30. f_equal.
  rewrite <- round_sixtieths. unfold round. apply Qfloor_comp.
  unfold Qeq, Qplus, Qminus, Qdiv, Qmult, Qinv, Qopp, inject_Z. simpl. lia.
Qed.

(** The midpoint of a shift is a whole number of minutes. *)
Lemma midpoint_minutes (start end_ : Z) :
  (inject_Z (start * 60) + inject_Z ((end_ - start) * 60) / 2
   == inject_Z (30 * (start + end_)))%Q.
Proof.
  unfold Qeq, Qplus, Qdiv, Qmult, Qinv, inject_Z. simpl. lia.
Qed.

Lemma snap30_comp (x y : Q) : (x == y)%Q -> snap30 x = snap30 y.
Proof.
  intros Hxy. unfold snap30, round. f_equal. apply Qfloor_comp.
  by rewrite Hxy.
Qed.

Lemma add_roster type start end_ L rs :
  roster (add type start end_ L rs)
  = roster rs ++ [entryOf type start end_ L
                    (if String.eqb type "FT" then idFT rs else idPT rs)].
Proof. reflexivity. Qed.

Lemma iter_add_roster type start end_ L k rs e :
  e ∈ roster (Nat.iter k (add type start end_ L) rs) ->
  e ∈ roster rs \/ exists id, e = entryOf type start end_ L id.
Proof.
  induction k as [|k IH]; [by left|].
  rewrite Nat.iter_succ, add_roster, elem_of_app, list_elem_of_singleton.
  intros [He | ->]; [by apply IH|]. right. eauto.
Qed.

Lemma addAll_roster type shifts L rs e :
  e ∈ roster (addAll type shifts L rs) ->
  e ∈ roster rs \/
  exists w id, w ∈ shifts /\ e = entryOf type (start w) (end_ w) L id.
Proof.
  unfold addAll. revert rs.
  induction shifts as [|w shifts IH]; intros rs; [by left|]. cbn [fold_left].
  intros [He|(w' & id & Hw' & ->)]%IH.
  - apply iter_add_roster in He as [He | [id ->]]; [by left|].
    right. exists w, id. split; [apply list_elem_of_here|done].
  - right. exists w', id. split; [by apply list_elem_of_further|done].
Qed.

(** Every entry of the roster is what [add] makes of one of the windows. *)
Lemma buildRoster_entries shiftsFT shiftsPT lunchMin e :
  e ∈ buildRoster shiftsFT shiftsPT lunchMin ->
  exists type w id,
    (w ∈ shiftsFT \/ w ∈ shiftsPT) /\
    e = entryOf type (start w) (end_ w) lunchMin id.
Proof.
  unfold buildRoster.
  intros [He|(w & id & Hw & ->)]%addAll_roster.
  - apply addAll_roster in He as [He|(w & id & Hw & ->)].
    + by apply elem_of_nil in He.
    + exists "FT", w, id. auto.
  - exists "PT", w, id. auto.
Qed.

(** An 8-hour shift from 9 to 17 with a lunch of 600 minutes: the lunch is
    clamped to the shift, so it neither starts at the snapped time nor lasts
    600 minutes. *)
Lemma lunch_counterexample :
  exists e,
    buildRoster [{| start := 9; end_ := 17; count := 1 |}] [] "600" = [e] /\
    Entry.lunchStart e = Int 540 /\ Entry.lunchEnd e = Int 1020 /\
    snap30 (inject_Z (9 * 60) + inject_Z ((17 - 9) * 60) / 2 - inject_Z 600 / 2)%Q = 480 /\
    Entry.lunchStart e <> Int 480 /\
    Entry.lunchEnd e <> nadd (Entry.lunchStart e) (Int 600).
Proof.
  eexists. split; [vm_compute; reflexivity|].
  split; [reflexivity|]. split; [reflexivity|]. split; [reflexivity|].
  split; vm_compute; discriminate.
Qed.

(** C7, amended. For every entry of the roster, when the lunch text (or
    ["30"] when it is blank) is a number [m], with [d = max(0, m)] and
    [snapped] the midpoint of the shift minus [d/2] rounded to the nearest
    multiple of 30, a half upwards: the entry has the start and end of one
    of the windows, [lunchStart = max(start*60, snapped)] and
    [lunchEnd = min(end*60, snapped + d)]; both lie within
    [[start*60, end*60]]; and when the lunch is no longer than the shift
    neither is clamped, so [lunchStart = snapped] and
    [lunchEnd = lunchStart + d]. *)
Theorem lunch_window (shiftsFT shiftsPT : list ShiftWindow) (lunchMin : string)
    (m : Z) (e : Entry.t) :
  parseInt (strOr lunchMin "30") = Int m ->
  e ∈ buildRoster shiftsFT shiftsPT lunchMin ->
  let s := Entry.start e in
  let f := Entry.end_ e in
  let d := Z.max 0 m in
  let snapped :=
    snap30 (inject_Z (s * 60) + inject_Z ((f - s) * 60) / 2 - inject_Z d / 2)%Q in
  (exists w, (w ∈ shiftsFT \/ w ∈ shiftsPT) /\ s = start w /\ f = end_ w) /\
  Entry.hours e = f - s /\
  (exists q, snapped = 30 * q) /\
  2 * snapped - 30 <= 60 * (s + f) - d < 2 * snapped + 30 /\
  Entry.lunchStart e = Int (Z.max (s * 60) snapped) /\
  Entry.lunchEnd e = Int (Z.min (f * 60) (snapped + d)) /\
  (s <= f ->
   s * 60 <= Z.max (s * 60) snapped <= f * 60 /\
   s * 60 <= Z.min (f * 60) (snapped + d) <= f * 60) /\
  (s <= f -> d <= (f - s) * 60 ->
   Entry.lunchStart e = Int snapped /\ Entry.lunchEnd e = Int (snapped + d)).
Proof.
  intros Hparse (type & w & id & Hw & ->)%buildRoster_entries.
  cbv zeta.
  cbn [entryOf Entry.start Entry.end_ Entry.hours Entry.lunchStart Entry.lunchEnd].
  set (s := start w). set (f := end_ w). set (d := Z.max 0 m).
  set (snapped :=
    snap30 (inject_Z (s * 60) + inject_Z ((f - s) * 60) / 2 - inject_Z d / 2)%Q).
  assert (Hsnap : snapped = (60 * (s + f) - d + 30) / 60 * 30).
  { unfold snapped. rewrite (snap30_comp _ (inject_Z (30 * (s + f)) - inject_Z d / 2)%Q).
    - rewrite snap30_minutes. do 2 f_equal. lia.
    - by rewrite midpoint_minutes. }
  assert (Hfields :
    nmax (Int (s * 60)) (lunchSnap (inject_Z (s * 60) + inject_Z ((f - s) * 60) / 2)%Q
                           (nmax (Int 0) (parseInt (strOr lunchMin "30"))))
      = Int (Z.max (s * 60) snapped) /\
    nmin (Int (f * 60))
      (nadd (lunchSnap (inject_Z (s * 60) + inject_Z ((f - s) * 60) / 2)%Q
               (nmax (Int 0) (parseInt (strOr lunchMin "30"))))
            (nmax (Int 0) (parseInt (strOr lunchMin "30"))))
      = Int (Z.min (f * 60) (snapped + d))).
  { rewrite Hparse. done. }
  destruct Hfields as [HlunchStart HlunchEnd].
  clearbody snapped.
  pose proof (Z.div_mod (60 * (s + f) - d + 30) 60 ltac:(lia)) as Hdm.
  pose proof (Z.mod_pos_bound (60 * (s + f) - d + 30) 60 ltac:(lia)) as Hmod.
  set (q := (60 * (s + f) - d + 30) / 60) in *.
  split; [exists w; auto|]. split; [done|].
  split; [exists q; lia|]. split; [lia|].
  split; [done|]. split; [done|]. split.
  - intros Hsf. assert (0 <= d) by lia. lia.
  - intros Hsf Hd. assert (0 <= d) by lia.
    rewrite HlunchStart, HlunchEnd. split; f_equal; lia.
Qed.

Lemma lunch_window_witness :
  exists e,
    e ∈ buildRoster [{| start := 9; end_ := 17; count := 1 |}] [] "30" /\
    Entry.lunchStart e = Int 780 /\ Entry.lunchEnd e = Int 810.
Proof.
  set (e := entryOf "FT" 9 17 "30" 1).
  assert (He : e ∈ buildRoster [{| start := 9; end_ := 17; count := 1 |}] [] "30")
    by (vm_compute; apply list_elem_of_here).
  exists e. split; [exact He|].
  destruct (lunch_window [{| start := 9; end_ := 17; count := 1 |}] [] "30" 30 e
              eq_refl He) as (_ & _ & _ & _ & _ & _ & _ & Hfree).
  apply Hfree; vm_compute; discriminate.
Defined.

(** ** The limits that the form resolves to *)

(** [parseInt] reads back the decimal text of an integer. *)

Lemma digitOf_pretty_N_char (d : N) :
  (d < 10)%N -> digitOf (pretty_N_char d) = Some (Z.of_N d).
Proof.
  intros Hd.
  assert (d = 0 \/ d = 1 \/ d = 2 \/ d = 3 \/ d = 4 \/ d = 5 \/ d = 6
          \/ d = 7 \/ d = 8 \/ d = 9)%N as Hcases by lia.
  repeat destruct Hcases as [-> | Hcases]; try subst d; reflexivity.
Qed.

(** A string whose first character is a decimal digit has no white space
    and no sign for [parseInt] to skip. *)
Lemma parseInt_digit_first (c : ascii) (t : string) (d : Z) :
  digitOf c = Some d ->
  parseInt (String c t) =
  match readDigits (String c t) None with
  | Some v => Int v
  | None => NaN
  end.
Proof.
  intros Hd. unfold parseInt.
  destruct c as [[] [] [] [] [] [] [] []]; try discriminate Hd.
  all: cbn [skipWhiteSpace isWhiteSpace nat_of_ascii]; simpl.
  all: match goal with |- context [readDigits ?s ?a] => destruct (readDigits s a) end.
  all: try done.
  all: f_equal; lia.
Qed.

Lemma readDigits_pretty_N_go (x : N) :
  (0 < x)%N ->
  forall s,
    readDigits (pretty_N_go x s) None = readDigits s (Some (Z.of_N x)) /\
    exists c t d, pretty_N_go x s = String c t /\ digitOf c = Some d.
Proof.
  induction (N.lt_wf_0 x) as [x _ IH]. intros Hx s.
  rewrite pretty_N_go_step by done.
  pose proof (digitOf_pretty_N_char (x `mod` 10) ltac:(apply N.mod_lt; lia)) as Hd.
  destruct (decide (x `div` 10 = 0)%N) as [Hq|Hq].
  - rewrite Hq, pretty_N_go_0. split; [|eauto].
    cbn [readDigits]. rewrite Hd. do 2 f_equal.
    assert (x `mod` 10 = x)%N by (apply N.mod_small, N.div_small_iff; [lia|done]).
    simpl. lia.
  - destruct (IH (x `div` 10)%N) with (s := String (pretty_N_char (x `mod` 10)) s)
      as [Hread Hhead]; [apply N.div_lt; lia|by apply N.neq_0_lt_0|].
    split; [|done]. rewrite Hread. cbn [readDigits]. rewrite Hd. do 2 f_equal.
    cbn [default]. pose proof (N.div_mod x 10 ltac:(lia)) as Hdm.
    generalize dependent (x `div` 10)%N. generalize dependent (x `mod` 10)%N.
    intros. unfold id. lia.
Qed.

Lemma parseInt_pretty (n : Z) : parseInt (pretty n) = Int n.
Proof.
  destruct n as [|p|p]; [reflexivity| |].
  - change (pretty (Z.pos p)) with (pretty_N_go (N.pos p) "").
    destruct (readDigits_pretty_N_go (N.pos p) ltac:(lia) "")
      as [Hread (c & t & d & Hhead & Hd)].
    rewrite Hhead, (parseInt_digit_first c t d Hd), <- Hhead, Hread. reflexivity.
  - change (pretty (Z.neg p)) with (String "-" (pretty_N_go (N.pos p) "")).
    destruct (readDigits_pretty_N_go (N.pos p) ltac:(lia) "")
      as [Hread _].
    unfold parseInt. cbn [skipWhiteSpace].
    change (isWhiteSpace "-") with false. cbv beta iota zeta.
    rewrite Hread. reflexivity.
Qed.

(** A text that [parseInt] reads is not empty, so [||] keeps it. *)
Lemma strOr_parsed (total fallback : string) (n : Z) :
  parseInt total = Int n -> strOr total fallback = total.
Proof.
  intros Hparse. unfold strOr.
  destruct (String.eqb_spec total "") as [->|_]; [discriminate Hparse|done].
Qed.

(** C5. When the total of a class is left blank, the resolved total-shift
    limit is the resolved cap of the class: [maxFTShifts = capFt] and
    [maxPTShifts = capPt]. When the total is a text that [parseInt] reads as
    a non-negative integer, the decimal text of a non-negative integer in
    particular and the text "0" included, the resolved limit is that
    integer. The integer is at most [exactBound], 2^53: up to there a
    JavaScript number holds every integer and [parseInt] returns the
    integer that the digits write; beyond, the code's [parseInt] rounds to
    the nearest number and the statement says nothing. *)
Theorem limits_resolved (capFT capPT totalFT totalPT : string) (peakStaff : Z) :
  (totalFT = "" ->
   Aggregates.maxFTShifts capFT totalFT peakStaff = Aggregates.capFt capFT peakStaff) /\
  (totalPT = "" ->
   Aggregates.maxPTShifts capPT totalPT = Aggregates.capPt capPT) /\
  (forall n, 0 <= n <= exactBound -> parseInt totalFT = Int n ->
     Aggregates.maxFTShifts capFT totalFT peakStaff = Int n) /\
  (forall n, 0 <= n <= exactBound -> parseInt totalPT = Int n ->
     Aggregates.maxPTShifts capPT totalPT = Int n) /\
  (forall n, 0 <= n <= exactBound -> totalFT = pretty n ->
     Aggregates.maxFTShifts capFT totalFT peakStaff = Int n) /\
  (forall n, 0 <= n <= exactBound -> totalPT = pretty n ->
     Aggregates.maxPTShifts capPT totalPT = Int n).
Proof.
  assert (Hsupplied : forall total fallback other n,
            0 <= n <= exactBound -> parseInt total = Int n ->
            nmax (Int 0) (parseInt (strOr (strOr total fallback) other)) = Int n).
  { intros total fallback other n Hn Hparse.
    rewrite !(strOr_parsed total _ n Hparse), Hparse. simpl. f_equal. lia. }
  unfold Aggregates.maxFTShifts, Aggregates.maxPTShifts,
    Aggregates.capFt, Aggregates.capPt.
  split; [by intros ->|]. split; [by intros ->|].
  split; [intros n Hn Hp; by apply Hsupplied|].
  split; [intros n Hn Hp; by apply Hsupplied|].
  split; intros n Hn ->; apply Hsupplied; auto using parseInt_pretty.
Qed.

Lemma limits_resolved_witness :
  Aggregates.maxFTShifts "5" "" 7 = Aggregates.capFt "5" 7 /\
  Aggregates.maxPTShifts "3" "" = Aggregates.capPt "3" /\
  Aggregates.maxFTShifts "5" "0" 7 = Int 0 /\
  Aggregates.maxPTShifts "3" "12" = Int 12 /\
  Aggregates.maxFTShifts "5" "9007199254740992" 7 = Int exactBound.
Proof.
  destruct (limits_resolved "5" "3" "" "" 7) as (HF & HP & _).
  destruct (limits_resolved "5" "3" "0" "12" 7) as (_ & _ & HF' & HP' & _).
  destruct (limits_resolved "5" "3" "9007199254740992" "" 7) as (_ & _ & HF'' & _).
  split; [apply HF; reflexivity|]. split; [apply HP; reflexivity|].
  split; [apply HF'; [unfold exactBound; lia|reflexivity]|].
  split; [apply HP'; [unfold exactBound; lia|reflexivity]|].
  apply HF''; [unfold exactBound; lia|reflexivity].
Defined.

(** ** The scenarios of the specification, run on the embedding *)

(** Scenario A: a shortfall of 5 at hour 8 only, five full-time agents and
    no part-time one, full-time first. The five shifts all start at hour 1,
    the first start whose window covers hour 8. *)
Example scenario_A :
  buildShiftPlanStrategic (replicate 8 0 ++ [5] ++ replicate 15 0)
    {| capFT := 5; capPT := 0; maxFTShifts := 5; maxPTShifts := 0 |}
    {| strategy := "ft_first"; mixedFtPercent := Int 60; isWeekend := false;
       ptLenHours := 4 |} 6
  = Some
      {| Plan.shiftsFT := [{| start := 1; end_ := 9; count := 5 |}];
         Plan.shiftsPT := [];
         Plan.coverage := [0] ++ replicate 8 5 ++ replicate 15 0;
         Plan.required := replicate 8 0 ++ [5] ++ replicate 15 0;
         Plan.shortage := replicate 24 (Int 0);
         Plan.excess := [Int 0] ++ replicate 7 (Int 5) ++ replicate 16 (Int 0);
         Plan.maxConcurrent := Some 5;
         Plan.limits :=
           {| capFT := 5; capPT := 0; maxFTShifts := 5; maxPTShifts := 0 |};
         Plan.hoursShort := 0;
         Plan.totalShortUnits := Int 0 |}.
Proof. vm_compute. reflexivity. Qed.

(** Scenario B: a cap of 10 but 2 employees in all; two shifts are placed
    and 8 of the 10 required at the peak stay short. *)
Example scenario_B :
  exists plan,
    buildShiftPlanStrategic (replicate 12 0 ++ [10] ++ replicate 11 0)
      {| capFT := 10; capPT := 0; maxFTShifts := 2; maxPTShifts := 0 |}
      {| strategy := "auto"; mixedFtPercent := Int 60; isWeekend := false;
         ptLenHours := 4 |} 3 = Some plan /\
    Plan.shiftsFT plan = [{| start := 5; end_ := 13; count := 2 |}] /\
    Plan.shortage plan !! 12%nat = Some (Int 8).
Proof. eexists. split; [vm_compute; reflexivity|]. split; reflexivity. Qed.

(** Scenario C: a shortage of 3 at hour 7 only. *)
Example scenario_C :
  computeHireRecommendations
    (Some {| viewShortage := Some (replicate 7 (Int 0) ++ [Int 3] ++ replicate 16 (Int 0));
             viewTotalShortUnits := None |}) None
  = Some {| Hire.totalShort := Int 3; Hire.peakShort := Int 3;
            Hire.minFT8 := Int 3; Hire.minPTcur := Int 1;
            Hire.minPT4 := Int 1; Hire.minPT6 := Int 1;
            Hire.mixed := {| Hire.ft := Int 3; Hire.pt := Int 0;
                             Hire.ptLenHours := 4 |} |}.
Proof. vm_compute. reflexivity. Qed.

(** Scenario D: an 8-hour shift from 9 with a 30-minute lunch. The midpoint
    is 780, 765 is half-way between 750 and 780 and rounds up: the lunch is
    13:00 to 13:30. *)
Example scenario_D :
  buildRoster [{| start := 9; end_ := 17; count := 1 |}] [] "30"
  = [{| Entry.agent := "FT-1"; Entry.type := "FT"; Entry.start := 9;
        Entry.end_ := 17; Entry.hours := 8;
        Entry.lunchStart := Int 780; Entry.lunchEnd := Int 810 |}].
Proof. vm_compute. reflexivity. Qed.

(** A requirement vector of 20 entries: a window that reaches hour 20 reads
    [undefined], scores [NaN] and is never placed, so the last hour covered
    is hour 19. *)
Example short_requirement :
  exists plan,
    buildShiftPlanStrategic (replicate 20 3)
      {| capFT := 1; capPT := 0; maxFTShifts := 9; maxPTShifts := 0 |}
      {| strategy := "ft_first"; mixedFtPercent := Int 60; isWeekend := false;
         ptLenHours := 4 |} 10 = Some plan /\
    Plan.shiftsFT plan = [{| start := 0; end_ := 8; count := 1 |};
                          {| start := 8; end_ := 16; count := 1 |}] /\
    Plan.shortage plan !! 19%nat = Some (Int 3) /\
    Plan.shortage plan !! 20%nat = Some NaN.
Proof. eexists. split; [vm_compute; reflexivity|]. repeat split; reflexivity. Qed.


(** * Further properties of the code *)

(** ** [merge]: order and intervals *)

Ltac order_tac :=
  unfold before, notAfter, sameInterval, compareWindows in *;
  repeat match goal with
         | |- context [?a =? ?b] => destruct (Z.eqb_spec a b)
         | H : context [?a =? ?b] |- _ => destruct (Z.eqb_spec a b)
         | |- context [?a <=? ?b] => destruct (Z.leb_spec a b)
         | H : context [?a <=? ?b] |- _ => destruct (Z.leb_spec a b)
         end;
  simpl in *; try lia.

Lemma notAfter_total a b : notAfter a b \/ notAfter b a.
Proof. order_tac. Qed.

Lemma notAfter_trans a b c : notAfter a b -> notAfter b c -> notAfter a c.
Proof. order_tac. Qed.

Lemma notAfter_before a b : notAfter a b <-> before a b \/ sameInterval a b.
Proof. order_tac. Qed.

Lemma elem_of_insertWindow p l x : x ∈ insertWindow p l <-> x = p \/ x ∈ l.
Proof.
  induction l as [|q l IH]; simpl.
  - rewrite list_elem_of_singleton, elem_of_nil. tauto.
  - destruct (compareWindows q p <=? 0); rewrite !elem_of_cons, ?IH; tauto.
Qed.

Lemma insertWindow_sorted p l :
  StronglySorted notAfter l -> StronglySorted notAfter (insertWindow p l).
Proof.
  induction 1 as [|q l Hl IH Hq]; simpl; [repeat constructor|].
  destruct (Z.leb_spec (compareWindows q p) 0) as [Hle|Hgt].
  - constructor; [done|]. apply Forall_forall. intros x [->|Hx]%elem_of_insertWindow.
    + done.
    + by eapply Forall_forall in Hq.
  - assert (Hpq : notAfter p q) by (destruct (notAfter_total p q); [done|order_tac]).
    constructor; [by constructor|]. constructor; [done|].
    eapply Forall_impl; [exact Hq|]. intros x Hx. by eapply notAfter_trans.
Qed.

Lemma sortWindows_fold arr acc :
  StronglySorted notAfter acc ->
  StronglySorted notAfter (fold_left (fun sorted p => insertWindow p sorted) arr acc) /\
  forall x, x ∈ fold_left (fun sorted p => insertWindow p sorted) arr acc
            <-> x ∈ arr \/ x ∈ acc.
Proof.
  revert acc. induction arr as [|p arr IH]; intros acc Hacc; simpl.
  - split; [done|]. intros x. rewrite elem_of_nil. tauto.
  - destruct (IH (insertWindow p acc) (insertWindow_sorted p acc Hacc)) as [Hs He].
    split; [done|]. intros x. rewrite He, elem_of_insertWindow, elem_of_cons. tauto.
Qed.

Lemma sortWindows_sorted arr : StronglySorted notAfter (sortWindows arr).
Proof. apply sortWindows_fold. constructor. Qed.

Lemma elem_of_sortWindows arr x : x ∈ sortWindows arr <-> x ∈ arr.
Proof.
  unfold sortWindows. destruct (sortWindows_fold arr [] (SSorted_nil _)) as [_ He].
  rewrite He, elem_of_nil. tauto.
Qed.

(** What [mergeStep] does, seen from the end of [out]. *)
Lemma mergeStep_snoc l q p :
  mergeStep (l ++ [q]) p =
  if (start q =? start p) && (end_ q =? end_ p)
  then l ++ [{| start := start q; end_ := end_ q; count := count q + count p |}]
  else l ++ [q; p].
Proof.
  induction l as [|x l IH]; [done|].
  change ((x :: l) ++ [q]) with (x :: (l ++ [q])).
  destruct (l ++ [q]) as [|y l'] eqn:E; [by destruct l|].
  change (mergeStep (x :: y :: l') p) with (x :: mergeStep (y :: l') p).
  rewrite IH. by destruct ((start q =? start p) && (end_ q =? end_ p)).
Qed.

Lemma merge_fold rest out :
  StronglySorted notAfter rest ->
  StronglySorted before out ->
  (forall x y, x ∈ out -> y ∈ rest -> notAfter x y) ->
  StronglySorted before (fold_left mergeStep rest out) /\
  forall w, w ∈ fold_left mergeStep rest out ->
    exists w', (w' ∈ out \/ w' ∈ rest) /\ sameInterval w w'.
Proof.
  revert out. induction rest as [|p rest IH]; intros out Hrest Hout Hle; simpl.
  { split; [done|]. intros w Hw. exists w. split; [by left|order_tac]. }
  apply StronglySorted_cons in Hrest as [Hp Hrest].
  rewrite Forall_forall in Hp.
  assert (Hstep : StronglySorted before (mergeStep out p) /\
            (forall x y, x ∈ mergeStep out p -> y ∈ rest -> notAfter x y) /\
            (forall x, x ∈ mergeStep out p ->
               exists x', (x' ∈ out \/ x' = p) /\ sameInterval x x')).
  { destruct (decide (out = [])) as [->|Hne].
    - simpl. split; [repeat constructor|]. split.
      + intros x y ->%list_elem_of_singleton Hy. by apply Hp.
      + intros x ->%list_elem_of_singleton. exists p. split; [by right|order_tac].
    - destruct (exists_last Hne) as (l & q & ->).
      rewrite mergeStep_snoc.
      apply StronglySorted_app in Hout as (Hlq & Hl & _).
      assert (Hqp : notAfter q p).
      { apply Hle; [|apply list_elem_of_here]. apply elem_of_app. right. apply list_elem_of_here. }
      destruct ((start q =? start p) && (end_ q =? end_ p)) eqn:Esame.
      + apply andb_true_iff in Esame as [Es%Z.eqb_eq Ee%Z.eqb_eq].
        split; [|split].
        * apply StronglySorted_app_2; [|done|repeat constructor].
          intros x1 x2 Hx1 ->%list_elem_of_singleton.
          specialize (Hlq x1 q Hx1 (list_elem_of_here _ _)). order_tac.
        * intros x y [Hx| ->%list_elem_of_singleton]%elem_of_app Hy.
          -- apply Hle; [|by apply list_elem_of_further]. apply elem_of_app. by left.
          -- specialize (Hp y Hy). order_tac.
        * intros x [Hx| ->%list_elem_of_singleton]%elem_of_app.
          -- exists x. split; [left; apply elem_of_app; by left|order_tac].
          -- exists q. split; [left; apply elem_of_app; right; apply list_elem_of_here|order_tac].
      + assert (Hbefore : before q p).
        { apply andb_false_iff in Esame. apply notAfter_before in Hqp as [|[Hs He]]; [done|].
          destruct Esame as [E|E]; apply Z.eqb_neq in E; done. }
        split; [|split].
        * apply StronglySorted_app_2; [|done|].
          -- intros x1 x2 Hx1 Hx2.
             specialize (Hlq x1 q Hx1 (list_elem_of_here _ _)).
             apply elem_of_cons in Hx2 as [->| ->%list_elem_of_singleton]; [done|order_tac].
          -- constructor; [repeat constructor|]. constructor; [exact Hbefore|constructor].
        * intros x y [Hx|Hx]%elem_of_app Hy.
          -- apply Hle; [|by apply list_elem_of_further]. apply elem_of_app. by left.
          -- apply elem_of_cons in Hx as [->| ->%list_elem_of_singleton].
             ++ apply Hle; [|by apply list_elem_of_further].
                apply elem_of_app. right. apply list_elem_of_here.
             ++ by apply Hp.
        * intros x [Hx|Hx]%elem_of_app.
          -- exists x. split; [left; apply elem_of_app; by left|order_tac].
          -- apply elem_of_cons in Hx as [->| ->%list_elem_of_singleton].
             ++ exists q. split; [left; apply elem_of_app; right; apply list_elem_of_here|order_tac].
             ++ exists p. split; [by right|order_tac]. }
  destruct Hstep as (Hs & Hl & Hk).
  destruct (IH (mergeStep out p) Hrest Hs Hl) as [Hsorted Hkeys].
  split; [done|]. intros w Hw.
  destruct (Hkeys w Hw) as (w' & [Hw'|Hw'] & Hsame).
  - destruct (Hk w' Hw') as (w'' & [H''| ->] & Hsame').
    + exists w''. split; [by left|order_tac].
    + exists p. split; [right; apply list_elem_of_here|order_tac].
  - exists w'. split; [right; by apply list_elem_of_further|done].
Qed.

Lemma mergeStep_keeps out p x :
  x ∈ out \/ x = p -> exists w, w ∈ mergeStep out p /\ sameInterval w x.
Proof.
  destruct (decide (out = [])) as [->|Hne].
  - intros [Hx| ->]; [by apply elem_of_nil in Hx|].
    exists p. split; [apply list_elem_of_here|order_tac].
  - destruct (exists_last Hne) as (l & q & ->). rewrite mergeStep_snoc.
    destruct ((start q =? start p) && (end_ q =? end_ p)) eqn:Esame.
    + apply andb_true_iff in Esame as [Es%Z.eqb_eq Ee%Z.eqb_eq].
      set (q' := {| start := start q; end_ := end_ q; count := count q + count p |}).
      assert (Hq' : q' ∈ l ++ [q']) by (apply elem_of_app; right; apply list_elem_of_here).
      intros [[Hx| ->%list_elem_of_singleton]%elem_of_app| ->].
      * exists x. split; [apply elem_of_app; by left|order_tac].
      * exists q'. split; [done|order_tac].
      * exists q'. split; [done|order_tac].
    + intros [[Hx| ->%list_elem_of_singleton]%elem_of_app| ->].
      * exists x. split; [apply elem_of_app; by left|order_tac].
      * exists q. split; [|order_tac]. apply elem_of_app. right. apply list_elem_of_here.
      * exists p. split; [|order_tac]. apply elem_of_app. right.
        apply list_elem_of_further, list_elem_of_here.
Qed.

Lemma merge_fold_keeps rest out x :
  x ∈ out \/ x ∈ rest ->
  exists w, w ∈ fold_left mergeStep rest out /\ sameInterval w x.
Proof.
  revert out x. induction rest as [|p rest IH]; intros out x; simpl.
  - intros [Hx|Hx]; [|by apply elem_of_nil in Hx]. exists x. split; [done|order_tac].
  - intros Hx.
    assert (Hcase : (x ∈ out \/ x = p) \/ x ∈ rest).
    { destruct Hx as [|[->|]%elem_of_cons]; auto. }
    destruct Hcase as [Hx'|Hx'].
    + destruct (mergeStep_keeps out p x Hx') as (w & Hw & Hsame).
      destruct (IH (mergeStep out p) w (or_introl Hw)) as (w' & Hw' & Hsame').
      exists w'. split; [done|order_tac].
    + apply IH. by right.
Qed.

Lemma before_irrefl a : ~ before a a.
Proof. order_tac. Qed.

Lemma before_asym a b : before a b -> before b a -> False.
Proof. order_tac. Qed.

Lemma StronglySorted_before_NoDup l : StronglySorted before l -> NoDup l.
Proof.
  induction 1 as [|x l Hl IH Hx]; constructor; [|done].
  intros Hin. rewrite Forall_forall in Hx. by apply (before_irrefl x), Hx.
Qed.

(** In a list in strict order, the windows of the interval of [w] weigh
    what [w] counts. *)
Lemma weigh_onInterval_sorted l w :
  StronglySorted before l -> w ∈ l -> weigh (onInterval w) l = count w.
Proof.
  induction 1 as [|x l Hl IH Hx]; [by intros ?%elem_of_nil|].
  rewrite Forall_forall in Hx.
  assert (Hzero : forall l', (forall y, y ∈ l' -> ~ sameInterval y w) ->
                             weigh (onInterval w) l' = 0).
  { clear. induction l' as [|y l' IH']; intros Hno; [done|].
    change (weigh (onInterval w) (y :: l'))
      with (count y * onInterval w (start y) (end_ y) + weigh (onInterval w) l').
    rewrite IH' by (intros z Hz; apply Hno; by apply list_elem_of_further).
    specialize (Hno y (list_elem_of_here _ _)). unfold onInterval.
    destruct (Z.eqb_spec (start y) (start w)), (Z.eqb_spec (end_ y) (end_ w));
      simpl; try lia. destruct Hno. by split. }
  intros [->|Hw]%elem_of_cons.
  - change (weigh (onInterval x) (x :: l))
      with (count x * onInterval x (start x) (end_ x) + weigh (onInterval x) l).
    rewrite Hzero.
    + unfold onInterval. rewrite !Z.eqb_refl. simpl. lia.
    + intros y Hy Hsame. specialize (Hx y Hy). order_tac.
  - change (weigh (onInterval w) (x :: l))
      with (count x * onInterval w (start x) (end_ x) + weigh (onInterval w) l).
    rewrite (IH Hw). specialize (Hx w Hw). unfold onInterval.
    destruct (Z.eqb_spec (start x) (start w)), (Z.eqb_spec (end_ x) (end_ w));
      simpl; try lia. order_tac.
Qed.

Lemma weigh_Permutation g l l' : l ≡ₚ l' -> weigh g l = weigh g l'.
Proof.
  unfold weigh. induction 1 as [|x l l' _ IH|x y l|l l' l'' _ IH1 _ IH2]; simpl; lia.
Qed.

Lemma merge_sorted arr : StronglySorted before (merge arr).
Proof.
  unfold merge. apply merge_fold; [apply sortWindows_sorted|constructor|].
  intros x y Hx. by apply elem_of_nil in Hx.
Qed.

(** A window is in [merge arr] exactly when [arr] has a window of its
    interval and its count is the sum of the counts of these. *)
Lemma elem_of_merge arr w :
  w ∈ merge arr <->
  (exists w', w' ∈ arr /\ sameInterval w w') /\
  count w = weigh (onInterval w) arr.
Proof.
  split.
  - intros Hw. split.
    + unfold merge in Hw.
      destruct (merge_fold (sortWindows arr) [] (sortWindows_sorted arr)
                  (SSorted_nil _)) as [_ Hk].
      { intros x y Hx. by apply elem_of_nil in Hx. }
      destruct (Hk w Hw) as (w' & [Hw'|Hw'] & Hsame); [by apply elem_of_nil in Hw'|].
      exists w'. split; [by apply elem_of_sortWindows|done].
    + rewrite <- (weigh_merge (onInterval w) arr).
      symmetry. apply weigh_onInterval_sorted; [apply merge_sorted|done].
  - intros [(w' & Hw' & Hsame) Hcount].
    destruct (merge_fold_keeps (sortWindows arr) [] w') as (w'' & Hw'' & Hsame').
    { right. by apply elem_of_sortWindows. }
    fold (merge arr) in Hw''.
    assert (Hc : count w'' = weigh (onInterval w'') arr).
    { rewrite <- (weigh_merge (onInterval w'') arr).
      symmetry. apply weigh_onInterval_sorted; [apply merge_sorted|done]. }
    assert (w'' = w) as <-; [|done].
    destruct Hsame as [Hs He], Hsame' as [Hs' He'].
    assert (Hon : onInterval w'' = onInterval w).
    { unfold onInterval. by rewrite Hs', He', Hs, He. }
    rewrite Hon, <- Hcount in Hc.
    destruct w'', w; simpl in *; f_equal; lia.
Qed.

(** X1. [merge] returns its windows in strict order, by start and then by
    end, so no two of them have the same interval; the intervals of the
    result are exactly the intervals of the input. *)
Theorem merge_ordered (arr : list ShiftWindow) :
  StronglySorted before (merge arr) /\
  (forall i j a b, (i < j)%nat -> merge arr !! i = Some a -> merge arr !! j = Some b ->
     ~ sameInterval a b) /\
  (forall w, w ∈ merge arr -> exists w', w' ∈ arr /\ sameInterval w w') /\
  (forall w', w' ∈ arr -> exists w, w ∈ merge arr /\ sameInterval w w').
Proof.
  pose proof (merge_sorted arr) as Hs. split; [done|]. split; [|split].
  - intros i j a b Hij Ha Hb Hsame.
    rewrite <- (take_drop_middle _ _ _ Hb) in Hs, Ha.
    apply StronglySorted_app in Hs as (Hcross & _ & _).
    rewrite lookup_app_l in Ha by (rewrite length_take; apply lookup_lt_Some in Hb; lia).
    assert (Hbefore : before a b).
    { apply Hcross; [by eapply list_elem_of_lookup_2|apply list_elem_of_here]. }
    order_tac.
  - intros w Hw. by apply elem_of_merge in Hw as [? _].
  - intros w' Hw'. apply (merge_fold_keeps (sortWindows arr) []).
    right. by apply elem_of_sortWindows.
Qed.

(** X2. Merging changes neither the agents on any hour nor the number of
    shifts, and the count of a merged window is the sum of the counts of
    the input windows of its interval. *)
Theorem merge_counts (arr : list ShiftWindow) :
  (forall h, covering (merge arr) h = covering arr h) /\
  totalCount (merge arr) = totalCount arr /\
  (forall w, w ∈ merge arr -> count w = weigh (onInterval w) arr).
Proof.
  split; [intros h; apply covering_merge|]. split; [apply totalCount_merge|].
  intros w Hw. by apply elem_of_merge in Hw as [_ ?].
Qed.

(** X3. The result of [merge] does not depend on the order of its input:
    the windows of a plan are the same in whatever order the shifts were
    placed. *)
Theorem merge_permutation (arr arr' : list ShiftWindow) :
  arr ≡ₚ arr' -> merge arr = merge arr'.
Proof.
  intros Hperm.
  apply (StronglySorted_unique_strong before); [|apply merge_sorted..|].
  - intros x y _ _ Hxy Hyx. destruct (before_asym x y Hxy Hyx).
  - apply NoDup_Permutation; [apply StronglySorted_before_NoDup, merge_sorted..|].
    intros w. rewrite !elem_of_merge, (weigh_Permutation _ _ _ Hperm).
    split; intros [(w' & Hw' & Hsame) Hc]; (split; [|done]); exists w';
      (split; [|done]); [by rewrite <- Hperm|by rewrite Hperm].
Qed.

Lemma merge_permutation_witness :
  merge [{| start := 9; end_ := 17; count := 1 |};
         {| start := 4; end_ := 12; count := 1 |};
         {| start := 9; end_ := 17; count := 1 |}]
  = merge [{| start := 4; end_ := 12; count := 1 |};
           {| start := 9; end_ := 17; count := 1 |};
           {| start := 9; end_ := 17; count := 1 |}].
Proof.
  apply merge_permutation. apply perm_swap.
Defined.

(** ** The planner: the windows of a plan *)

Section ScoredPlacements.
Variable requiredPerHourInt : list Z.
Variable limits : Limits.
Variable opts : Opts.

#[local] Abbreviation feasible := (feasible limits opts).
#[local] Abbreviation placeAt := (placeAt opts).
#[local] Abbreviation lenOf := (lenOf opts).
#[local] Abbreviation score := (windowScore limits opts).
#[local] Abbreviation reachable := (reachable limits opts requiredPerHourInt).

(** Induction over the placements that lead to a state, each of which scored
    more than 0. *)
Lemma reachable_scored (P : State -> Prop) :
  P (initialState requiredPerHourInt) ->
  (forall c s v st, reachable st -> P st -> feasible c st s ->
     score c st s = Int v -> 0 < v -> P (placeAt c s st)) ->
  forall st, reachable st -> P st.
Proof.
  intros Hinit Hstep st Hr. induction Hr as [|c st b st' Hr IH Hp]; [done|].
  destruct (placeOne_cases limits opts c st) as [[Hf _]|(s & v & Hs & Hfs & Hv & Hpos & _)].
  - rewrite Hf in Hp. by injection Hp as <- <-.
  - rewrite Hs in Hp. injection Hp as <- <-. by eapply Hstep.
Qed.

(** A window that scores more than 0 has an hour. *)
Lemma windowScore_pos_len c st s v :
  score c st s = Int v -> 0 < v -> 0 < lenOf c.
Proof.
  unfold windowScore. intros Hv Hpos.
  destruct (Z.ltb_spec 0 (lenOf c)) as [|Hle]; [done|].
  unfold hoursFrom in Hv. replace (Z.to_nat (lenOf c)) with 0%nat in Hv by lia.
  simpl in Hv. injection Hv as <-. lia.
Qed.

(** The windows that the loop pushes: one agent each, of the length of
    their class, inside the day. *)
Lemma reachable_shifts st :
  reachable st ->
  forall c w, w ∈ shiftsOf c st ->
    0 <= start w /\ end_ w = start w + lenOf c /\ end_ w <= 24 /\
    0 < lenOf c /\ count w = 1.
Proof.
  revert st.
  apply (reachable_scored (fun st => forall c w, w ∈ shiftsOf c st ->
    0 <= start w /\ end_ w = start w + lenOf c /\ end_ w <= 24 /\
    0 < lenOf c /\ count w = 1)).
  - intros [] w Hw; by apply elem_of_nil in Hw.
  - intros c s v st _ IH Hf Hv Hpos c' w.
    destruct (decide (c' = c)) as [->|Hne].
    + rewrite placeAt_shifts. intros [Hw| ->%list_elem_of_singleton]%elem_of_app.
      * by apply IH.
      * cbn [start end_ count]. destruct Hf as (Hs%elem_of_startsOf & _).
        pose proof (windowScore_pos_len c st s v Hv Hpos). unfold H in Hs. lia.
    + replace c' with (other c) by (destruct c, c'; done).
      rewrite placeAt_shifts_other. apply IH.
Qed.
End ScoredPlacements.

Lemma onInterval_cases w s e :
  (onInterval w s e = 1 /\ s = start w /\ e = end_ w) \/
  (onInterval w s e = 0 /\ ~ (s = start w /\ e = end_ w)).
Proof.
  unfold onInterval.
  destruct (Z.eqb_spec s (start w)), (Z.eqb_spec e (end_ w)); simpl;
    [left|right..]; (split; [done|]); tauto.
Qed.

Lemma weigh_cons g x arr :
  weigh g (x :: arr) = count x * g (start x) (end_ x) + weigh g arr.
Proof. reflexivity. Qed.

Lemma weigh_onInterval_nonneg arr w :
  (forall x, x ∈ arr -> 0 <= count x) -> 0 <= weigh (onInterval w) arr.
Proof.
  induction arr as [|x arr IH]; intros Hpos; [done|]. rewrite weigh_cons.
  assert (0 <= weigh (onInterval w) arr)
    by (apply IH; intros z Hz; by apply Hpos, list_elem_of_further).
  assert (0 <= count x) by apply Hpos, list_elem_of_here.
  destruct (onInterval_cases w (start x) (end_ x)) as [[-> _]|[-> _]]; lia.
Qed.

(** The windows of one interval weigh at least what one of them counts,
    when no count is negative. *)
Lemma weigh_onInterval_ge arr w w' :
  (forall x, x ∈ arr -> 0 <= count x) -> w' ∈ arr -> sameInterval w w' ->
  count w' <= weigh (onInterval w) arr.
Proof.
  intros Hpos Hw' [Hs He].
  induction arr as [|x arr IH]; [by apply elem_of_nil in Hw'|]. rewrite weigh_cons.
  assert (0 <= weigh (onInterval w) arr)
    by (apply weigh_onInterval_nonneg; intros z Hz; by apply Hpos, list_elem_of_further).
  assert (0 <= count x) by apply Hpos, list_elem_of_here.
  destruct (onInterval_cases w (start x) (end_ x)) as [[-> _]|[-> Hno]].
  - apply elem_of_cons in Hw' as [->|Hw']; [lia|].
    assert (count w' <= weigh (onInterval w) arr); [|lia].
    apply IH; [|done]. intros z Hz. by apply Hpos, list_elem_of_further.
  - apply elem_of_cons in Hw' as [->|Hw']; [destruct Hno; by split|].
    assert (count w' <= weigh (onInterval w) arr); [|lia].
    apply IH; [|done]. intros z Hz. by apply Hpos, list_elem_of_further.
Qed.

(** The agents on the first hour of a window are at least its count, when
    no window is empty or has a negative count. *)
Lemma covering_ge_count ws w h :
  (forall x, x ∈ ws -> 0 <= count x) -> w ∈ ws ->
  start w <= Z.of_nat h < end_ w -> count w <= covering ws h.
Proof.
  intros Hpos Hw Hh. induction ws as [|x ws IH]; [by apply elem_of_nil in Hw|].
  assert (H0 : forall l, (forall y, y ∈ l -> 0 <= count y) -> 0 <= covering l h).
  { clear. induction l as [|y l IH']; intros Hp; simpl; [lia|].
    assert (0 <= covering l h) by (apply IH'; intros z Hz; by apply Hp, list_elem_of_further).
    assert (0 <= count y) by apply Hp, list_elem_of_here.
    destruct ((start y <=? Z.of_nat h) && (Z.of_nat h <? end_ y)); lia. }
  assert (0 <= covering ws h).
  { apply H0. intros y Hy. by apply Hpos, list_elem_of_further. }
  assert (0 <= count x) by apply Hpos, list_elem_of_here.
  simpl. apply elem_of_cons in Hw as [->|Hw].
  - destruct (Z.leb_spec (start x) (Z.of_nat h)); [|lia].
    destruct (Z.ltb_spec (Z.of_nat h) (end_ x)); simpl; lia.
  - assert (count w <= covering ws h).
    { apply IH; [|done]. intros y Hy. by apply Hpos, list_elem_of_further. }
    destruct ((start x <=? Z.of_nat h) && (Z.of_nat h <? end_ x)); lia.
Qed.

Section PlanWindows.
Variable requiredPerHourInt : list Z.
Variable limits : Limits.
Variable opts : Opts.

#[local] Abbreviation lenOf := (lenOf opts).
#[local] Abbreviation capOf := (capOf limits).
#[local] Abbreviation reachable := (reachable limits opts requiredPerHourInt).

Lemma merged_shifts st c w :
  0 <= capFT limits -> 0 <= capPT limits ->
  reachable st -> w ∈ merge (shiftsOf c st) ->
  0 <= start w /\ end_ w = start w + lenOf c /\ end_ w <= 24 /\
  0 < lenOf c /\ 1 <= count w <= capOf c.
Proof.
  intros HcF HcP Hr Hw.
  pose proof (reachable_shifts _ _ _ st Hr c) as Hraw.
  assert (Hone : forall x, x ∈ merge (shiftsOf c st) -> 1 <= count x).
  { intros x [(x' & Hx' & Hsame) Hc]%elem_of_merge. rewrite Hc.
    destruct (Hraw x' Hx') as (_ & _ & _ & _ & H1). rewrite <- H1.
    apply weigh_onInterval_ge; [|done..].
    intros y Hy. destruct (Hraw y Hy) as (_ & _ & _ & _ & ->). lia. }
  pose proof (Hone w Hw) as Hw1.
  apply elem_of_merge in Hw as Hw'. destruct Hw' as [(w' & Hw' & [Hs He]) _].
  destruct (Hraw w' Hw') as (H0 & Hend & H24 & Hlen & _).
  rewrite Hs, He. repeat (split; [done|]).
  assert (Hcov : count w <= covering (merge (shiftsOf c st)) (Z.to_nat (start w))).
  { apply covering_ge_count; [|done|lia].
    intros x Hx. specialize (Hone x Hx). lia. }
  rewrite covering_merge, <- (reachable_covering _ _ _ st Hr c) in Hcov.
  destruct (reachable_withinCaps _ _ _ st HcF HcP Hr (Z.to_nat (start w)))
    as (HF & HP & _).
  destruct c; simpl in *; lia.
Qed.
End PlanWindows.

(** X4. Every window of a plan lies inside the day and has the length of
    its class: a full-time window starts between 0 and 16 and ends 8 hours
    later, a part-time window ends [ptLenHours] later and by hour 24 (and
    is only placed for a positive length). Its count is at least 1 and at
    most the cap of its class. *)
Theorem plan_windows (requiredPerHourInt : list Z) (limits : Limits)
    (opts : Opts) (fuel : nat) :
  0 <= capFT limits -> 0 <= capPT limits ->
  Z.max 0 (maxFTShifts limits) + Z.max 0 (maxPTShifts limits) < Z.of_nat fuel ->
  exists plan,
    buildShiftPlanStrategic requiredPerHourInt limits opts fuel = Some plan /\
    (forall w, w ∈ Plan.shiftsFT plan ->
       0 <= start w <= 16 /\ end_ w = start w + 8 /\
       1 <= count w <= capFT limits) /\
    (forall w, w ∈ Plan.shiftsPT plan ->
       0 <= start w /\ end_ w = start w + ptLenHours opts /\ end_ w <= 24 /\
       0 < ptLenHours opts /\ 1 <= count w <= capPT limits).
Proof.
  intros HcF HcP Hfuel.
  destruct (run_ends requiredPerHourInt limits opts fuel Hfuel)
    as (st & n & _ & Hrun & Hr & _).
  exists (planOf requiredPerHourInt limits st). split; [done|].
  unfold planOf. cbn [Plan.shiftsFT Plan.shiftsPT]. split.
  - intros w Hw.
    destruct (merged_shifts _ _ opts st ClsFT w HcF HcP Hr Hw)
      as (H0 & He & H24 & _ & Hc).
    simpl in *. unfold FT in *. lia.
  - intros w Hw.
    destruct (merged_shifts _ _ opts st ClsPT w HcF HcP Hr Hw)
      as (H0 & He & H24 & Hlen & Hc).
    simpl in *. unfold PT in *. lia.
Qed.

Lemma plan_windows_witness :
  exists plan,
    buildShiftPlanStrategic sampleRequired sampleLimits sampleOpts 10 = Some plan /\
    (forall w, w ∈ Plan.shiftsFT plan ->
       0 <= start w <= 16 /\ end_ w = start w + 8 /\ 1 <= count w <= 4) /\
    (forall w, w ∈ Plan.shiftsPT plan ->
       0 <= start w /\ end_ w = start w + 4 /\ end_ w <= 24 /\
       0 < 4 /\ 1 <= count w <= 3).
Proof.
  apply (plan_windows sampleRequired sampleLimits sampleOpts 10); simpl; lia.
Defined.

(** ** The planner: where the loop stops *)

Lemma sumZ_cons z zs : sumZ (z :: zs) = z + sumZ zs.
Proof. reflexivity. Qed.

Lemma sumZ_nonneg zs : Forall (fun z => 0 <= z) zs -> 0 <= sumZ zs.
Proof. induction 1 as [|z zs Hz _ IH]; [done|]. rewrite sumZ_cons. lia. Qed.

Lemma sumZ_zero zs :
  Forall (fun z => 0 <= z) zs -> sumZ zs <= 0 -> Forall (fun z => z = 0) zs.
Proof.
  induction 1 as [|z zs Hz Hzs IH]; [constructor|]. rewrite sumZ_cons. intros Hle.
  pose proof (sumZ_nonneg zs Hzs). constructor; [lia|]. apply IH. lia.
Qed.

Lemma sumZ_pos zs : 0 < sumZ zs -> exists z, z ∈ zs /\ 0 < z.
Proof.
  induction zs as [|z zs IH]; [unfold sumZ; simpl; lia|]. rewrite sumZ_cons. intros Hpos.
  destruct (decide (0 < z)) as [Hz|Hz].
  - exists z. split; [apply list_elem_of_here|done].
  - destruct IH as (y & Hy & Hy0); [lia|]. exists y. split; [by apply list_elem_of_further|done].
Qed.

Lemma sumNum_fold_ints (f : nat -> Z) (hs : list nat) (a : Z) :
  fold_left (fun acc h => nadd acc (Int (f h))) hs (Int a) = Int (a + sumZ (f <$> hs)).
Proof.
  revert a. induction hs as [|h hs IH]; intros a.
  - simpl. unfold sumZ. simpl. f_equal. lia.
  - rewrite fmap_cons, sumZ_cons. cbn [fold_left nadd lift2]. rewrite IH. f_equal. lia.
Qed.

Section Stop.
Variable requiredPerHourInt : list Z.
Variable limits : Limits.
Variable opts : Opts.

#[local] Abbreviation feasible := (feasible limits opts).
#[local] Abbreviation placeOne := (placeOne limits opts).
#[local] Abbreviation lenOf := (lenOf opts).
#[local] Abbreviation roomOf := (room limits).
#[local] Abbreviation score := (windowScore limits opts).
#[local] Abbreviation reachable := (reachable limits opts requiredPerHourInt).
#[local] Abbreviation attempt := (attempt requiredPerHourInt limits opts).

(** The score of a window whose hours all have a deficit entry is a number:
    the sum of [min(deficit, room)] over its hours. *)
Lemma windowScore_sum c st s :
  (forall h, inWindow s (lenOf c) h -> is_Some (deficit st !! h)) ->
  score c st s =
  Int (sumZ ((fun h => Z.min (get (deficit st) h) (roomOf c st h)) <$> hoursFrom s (lenOf c))).
Proof.
  intros Hdef. unfold windowScore.
  rewrite (fold_left_ext_elem _
    (fun acc h => nadd acc (Int (Z.min (get (deficit st) h) (roomOf c st h))))).
  - rewrite sumNum_fold_ints. f_equal.
  - intros acc h Hh%elem_of_hoursFrom. destruct (Hdef h Hh) as [d Hd].
    unfold readNum, get. by rewrite Hd.
Qed.

Lemma while_last cond fuel st st' n :
  while fuel cond st = Some (st', n) -> exists st1, cond st1 = (false, st').
Proof.
  revert st n. induction fuel as [|fuel IH]; intros st n; [done|]. simpl.
  destruct (cond st) as [b st1] eqn:Ec. destruct b.
  - destruct (while fuel cond st1) as [[st2 m]|] eqn:Ew; [|done].
    intros [= <- <-]. by eapply IH.
  - intros [= <- <-]. eauto.
Qed.

Lemma orElse_false f g st st' :
  attempt f -> attempt g -> orElse f g st = (false, st') ->
  f st' = (false, st') /\ g st' = (false, st').
Proof.
  intros Hf Hg. unfold orElse. destruct (f st) as [b st1] eqn:Ef.
  destruct (Hf _ _ _ Ef) as [_ Hs]. destruct b; [done|]. subst st1.
  intros Eg. destruct (Hg _ _ _ Eg) as [_ ->]. done.
Qed.

Lemma mixedLoop_last fuel ft pt st st' n :
  mixedLoop limits opts fuel ft pt st = Some (st', n) ->
  forall c, placeOne c st' = (false, st').
Proof.
  revert ft pt st n. induction fuel as [|fuel IH]; intros ft pt st n; [done|]. simpl.
  destruct (mixedBody limits opts ft pt st) as [[[ft' pt'] st1] b] eqn:Eb. destruct b.
  - destruct (mixedLoop limits opts fuel ft' pt' st1) as [[st2 m]|] eqn:Ew; [|done].
    intros [= <- <-]. by eapply IH.
  - intros [= <- <-]. revert Eb. unfold mixedBody.
    change (placeOneFT limits) with (placeOne ClsFT).
    change (placeOnePT limits opts) with (placeOne ClsPT).
    destruct (belowTarget opts ft pt).
    + destruct (placeOne ClsFT st) as [b1 s1] eqn:E1.
      destruct (placeOne ClsPT s1) as [b2 s2] eqn:E2.
      intros [= <- <- <- Hb]. apply orb_false_iff in Hb as [-> ->].
      destruct (attempt_placeOne requiredPerHourInt _ _ _ _ _ _ E1) as [_ ->].
      destruct (attempt_placeOne requiredPerHourInt _ _ _ _ _ _ E2) as [_ Heq].
      subst s2. by intros [].
    + destruct (placeOne ClsPT st) as [b1 s1] eqn:E1.
      destruct (placeOne ClsFT s1) as [b2 s2] eqn:E2.
      intros [= <- <- <- Hb]. apply orb_false_iff in Hb as [-> ->].
      destruct (attempt_placeOne requiredPerHourInt _ _ _ _ _ _ E1) as [_ ->].
      destruct (attempt_placeOne requiredPerHourInt _ _ _ _ _ _ E2) as [_ Heq].
      subst s2. by intros [].
Qed.

(** When the loop of any strategy ends, an attempt of either class fails. *)
Lemma placeLoop_last fuel st st' n :
  placeLoop limits opts fuel st = Some (st', n) ->
  forall c, placeOne c st' = (false, st').
Proof.
  unfold placeLoop.
  change (placeOneFT limits) with (placeOne ClsFT).
  change (placeOnePT limits opts) with (placeOne ClsPT).
  assert (Hw : forall c1 c2,
    while fuel (orElse (placeOne c1) (placeOne c2)) st = Some (st', n) ->
    placeOne c1 st' = (false, st') /\ placeOne c2 st' = (false, st')).
  { intros c1 c2 [st1 Hlast]%while_last.
    eapply orElse_false; [apply attempt_placeOne..|exact Hlast]. }
  repeat match goal with |- context [if ?b then _ else _] => destruct b end.
  all: try (intros [H1 H2]%Hw [|]; assumption).
  apply mixedLoop_last.
Qed.

(** The shortage of the plan is the deficit that the loop leaves. *)
Lemma planOf_shortage_deficit st h :
  Forall (fun r => 0 <= r) requiredPerHourInt ->
  reachable st -> (h < 24)%nat -> (h < length requiredPerHourInt)%nat ->
  Plan.shortage (planOf requiredPerHourInt limits st) !! h = Int <$> deficit st !! h.
Proof.
  intros Hreq Hr Hh Hlt.
  rewrite (planOf_shortage _ _ opts st h Hr Hh).
  rewrite (reachable_deficit _ limits opts st Hreq Hr h). unfold readNum.
  by destruct (lookup_lt_is_Some_2 requiredPerHourInt h Hlt) as [r ->].
Qed.

(** In a state where an attempt of class [c] fails, no feasible window of
    the class holds an hour with a positive deficit. *)
Lemma stopped_no_deficit c st s h :
  Forall (fun r => 0 <= r) requiredPerHourInt ->
  (24 <= length requiredPerHourInt)%nat ->
  reachable st -> placeOne c st = (false, st) ->
  feasible c st s -> inWindow s (lenOf c) h ->
  deficit st !! h = Some 0.
Proof.
  intros Hreq Hlen Hr Hfail Hf Hh.
  destruct (reachable_shape _ _ _ st Hr) as [_ Hdlen].
  assert (Hdef : forall h', inWindow s (lenOf c) h' -> is_Some (deficit st !! h')).
  { intros h' Hh'. apply lookup_lt_is_Some_2.
    pose proof (feasible_in_day limits opts c st s h' Hf Hh'). lia. }
  assert (Hpos : Forall (fun d => 0 <= d) (deficit st)).
  { apply Forall_lookup_2. intros i d Hd.
    rewrite (reachable_deficit _ limits opts st Hreq Hr i) in Hd.
    destruct (requiredPerHourInt !! i); simpl in Hd; [|done]. injection Hd as <-. lia. }
  destruct (placeOne_cases limits opts c st) as [[_ Hmax]|(s' & v & Hs & _)];
    [|rewrite Hfail in Hs; discriminate Hs].
  specialize (Hmax s _ Hf (windowScore_sum c st s Hdef)).
  destruct (Hdef h Hh) as [d Hd].
  assert (Hterms : Forall (fun z => 0 <= z)
            ((fun h => Z.min (get (deficit st) h) (roomOf c st h)) <$> hoursFrom s (lenOf c))).
  { apply Forall_fmap, Forall_forall. intros h' Hh'%elem_of_hoursFrom. simpl.
    destruct (Hdef h' Hh') as [d' Hd'].
    pose proof (Forall_lookup_1 _ _ _ _ Hpos Hd') as Hd0. simpl in Hd0.
    destruct Hf as (_ & _ & Hroom). destruct (Hroom h' Hh') as [Hc Ht].
    unfold get at 1. rewrite Hd'. unfold room. simpl. lia. }
  pose proof (sumZ_zero _ Hterms Hmax) as Hzero.
  rewrite Forall_fmap, Forall_forall in Hzero.
  specialize (Hzero h (proj2 (elem_of_hoursFrom s (lenOf c) h) Hh)). simpl in Hzero.
  pose proof (Forall_lookup_1 _ _ _ _ Hpos Hd) as Hd0. simpl in Hd0.
  destruct Hf as (_ & _ & Hroom). destruct (Hroom h Hh) as [Hc Ht].
  unfold get at 1 in Hzero. rewrite Hd in Hzero. unfold room in Hzero.
  change (default 0 (Some d)) with d in Hzero. rewrite Hd. f_equal. lia.
Qed.
End Stop.

(** ** The planner: what the plan it returns leaves undone *)

Lemma sumZ_drop (l l' : list Z) :
  length l' = length l ->
  (forall j a b, l !! j = Some a -> l' !! j = Some b -> b <= a) ->
  sumZ l' <= sumZ l.
Proof.
  revert l'. induction l as [|a l IH]; intros [|b l'] Hlen Hle; try done.
  rewrite !sumZ_cons. pose proof (Hle 0%nat a b eq_refl eq_refl).
  assert (sumZ l' <= sumZ l); [|lia].
  apply IH; [by injection Hlen|]. intros j x y Hx Hy. by apply (Hle (S j)).
Qed.

Lemma sumZ_drop_strict (l l' : list Z) i x y :
  length l' = length l ->
  (forall j a b, l !! j = Some a -> l' !! j = Some b -> b <= a) ->
  l !! i = Some x -> l' !! i = Some y -> y < x ->
  sumZ l' < sumZ l.
Proof.
  revert l' i. induction l as [|a l IH]; intros [|b l'] i Hlen Hle Hx Hy Hlt; try done.
  rewrite !sumZ_cons. pose proof (Hle 0%nat a b eq_refl eq_refl) as H0.
  assert (Htail : forall j a b, l !! j = Some a -> l' !! j = Some b -> b <= a).
  { intros j a' b' Ha Hb. by apply (Hle (S j)). }
  destruct i as [|i].
  - simpl in Hx, Hy. injection Hx as ->. injection Hy as ->.
    pose proof (sumZ_drop l l' ltac:(by injection Hlen) Htail). lia.
  - simpl in Hx, Hy.
    pose proof (IH l' i ltac:(by injection Hlen) Htail Hx Hy Hlt). lia.
Qed.

Lemma totalCount_nonneg ws :
  (forall w, w ∈ ws -> 0 <= count w) -> 0 <= totalCount ws.
Proof.
  induction ws as [|w ws IH]; intros Hpos; [done|]. cbn [totalCount fold_right].
  assert (0 <= totalCount ws)
    by (apply IH; intros x Hx; by apply Hpos, list_elem_of_further).
  assert (0 <= count w) by apply Hpos, list_elem_of_here.
  unfold totalCount in *. lia.
Qed.

Section Outcome.
Variable requiredPerHourInt : list Z.
Variable limits : Limits.
Variable opts : Opts.

#[local] Abbreviation feasible := (feasible limits opts).
#[local] Abbreviation placeAt := (placeAt opts).
#[local] Abbreviation lenOf := (lenOf opts).
#[local] Abbreviation capOf := (capOf limits).
#[local] Abbreviation maxShiftsOf := (maxShiftsOf limits).
#[local] Abbreviation score := (windowScore limits opts).
#[local] Abbreviation reachable := (reachable limits opts requiredPerHourInt).
#[local] Abbreviation plan := (planOf requiredPerHourInt limits).

(** A candidate start that is not feasible is blocked by the head-count of
    its class or at an hour of its window. *)
Lemma not_feasible_blocked c st s :
  Z.of_nat s + lenOf c <= H -> ~ feasible c st s ->
  maxShiftsOf c <= placedOf c st \/
  exists h, inWindow s (lenOf c) h /\
    (capOf c <= get (covOf c st) h \/
     capFT limits + capPT limits <= get (covFT st) h + get (covPT st) h).
Proof.
  intros Hs Hnot.
  destruct (decide (placedOf c st < maxShiftsOf c)) as [Hfree|]; [|left; lia].
  right.
  destruct (decide (Exists (fun h =>
      capOf c <= get (covOf c st) h \/
      capFT limits + capPT limits <= get (covFT st) h + get (covPT st) h)
    (hoursFrom s (lenOf c)))) as [Hex|Hno].
  - apply Exists_exists in Hex as (h & Hh%elem_of_hoursFrom & Hblock). eauto.
  - exfalso. apply Hnot. split; [by apply elem_of_startsOf|]. split; [done|].
    intros h Hh%elem_of_hoursFrom. apply not_Exists_Forall in Hno; [|intros ?; apply _].
    rewrite Forall_forall in Hno. specialize (Hno h Hh). simpl in Hno. lia.
Qed.

(** A placed shift lowers the sum of the deficits. *)
Lemma placeAt_pays c s v st :
  Forall (fun d => 0 <= d) (deficit st) ->
  feasible c st s -> score c st s = Int v -> 0 < v ->
  Forall (fun d => 0 <= d) (deficit (placeAt c s st)) /\
  sumZ (deficit (placeAt c s st)) < sumZ (deficit st).
Proof.
  intros Hpos Hf Hv Hv0. rewrite placeAt_deficit. unfold hoursFrom. split.
  - apply Forall_lookup_2. intros i d. rewrite lookup_alterAll_seq.
    destruct (deficit st !! i) as [d0|] eqn:Hd0; [|done]. simpl.
    pose proof (Forall_lookup_1 _ _ _ _ Hpos Hd0) as H0. simpl in H0.
    case_decide; intros [= <-]; unfold id; lia.
  - assert (Hdef : forall h, inWindow s (lenOf c) h -> is_Some (deficit st !! h)).
    { intros h Hh. by eapply windowScore_defined. }
    rewrite (windowScore_sum limits opts c st s Hdef) in Hv. injection Hv as <-.
    apply sumZ_pos in Hv0 as (z & Hz & Hz0).
    apply list_elem_of_fmap in Hz as (h & -> & Hh%elem_of_hoursFrom).
    destruct (Hdef h Hh) as [d Hd]. unfold get in Hz0. rewrite Hd in Hz0.
    change (default 0 (Some d)) with d in Hz0.
    apply (sumZ_drop_strict _ _ h d (Z.max 0 (d - 1))).
    + apply length_alterAll.
    + intros j a b Ha. rewrite lookup_alterAll_seq, Ha. simpl.
      pose proof (Forall_lookup_1 _ _ _ _ Hpos Ha) as H0. simpl in H0.
      case_decide; intros [= <-]; unfold id; lia.
    + done.
    + rewrite lookup_alterAll_seq, Hd. simpl.
      rewrite decide_True; [done|]. by apply inWindow_nat.
    + lia.
Qed.

(** Shifts placed and deficit left never add up to more than was
    required. *)
Lemma reachable_pays st :
  Forall (fun r => 0 <= r) requiredPerHourInt ->
  reachable st ->
  Forall (fun d => 0 <= d) (deficit st) /\
  placedFT st + placedPT st + sumZ (deficit st) <= sumZ requiredPerHourInt.
Proof.
  intros Hreq. revert st.
  apply (reachable_scored requiredPerHourInt limits opts (fun st =>
    Forall (fun d => 0 <= d) (deficit st) /\
    placedFT st + placedPT st + sumZ (deficit st) <= sumZ requiredPerHourInt)).
  - split; [done|]. unfold initialState. cbn [placedFT placedPT deficit]. lia.
  - intros c s v st _ [Hpos Hle] Hf Hv Hv0.
    destruct (placeAt_pays c s v st Hpos Hf Hv Hv0) as [Hpos' Hlt].
    split; [done|].
    pose proof (placeAt_placed opts c s st) as Hp.
    pose proof (placeAt_placed_other opts c s st) as Hq.
    destruct c; cbn [placedOf other] in Hp, Hq; lia.
Qed.

(** For a requirement of 24 hours without negative entries, the shortage
    vector of the plan is the deficit array. *)
Lemma planOf_shortage_ints st :
  Forall (fun r => 0 <= r) requiredPerHourInt ->
  length requiredPerHourInt = 24%nat ->
  reachable st ->
  Plan.shortage (plan st) = Int <$> deficit st.
Proof.
  intros Hreq Hlen Hr. destruct (reachable_shape _ _ _ st Hr) as [Hcov Hdlen].
  apply list_eq. intros h. rewrite list_lookup_fmap.
  destruct (decide (h < 24)%nat) as [Hh|Hh].
  - apply (planOf_shortage_deficit _ _ opts); [done..|lia].
  - rewrite (proj2 (lookup_ge_None (deficit st) h)) by lia.
    apply lookup_ge_None. unfold planOf. cbn [Plan.shortage].
    rewrite !length_imap. specialize (Hcov ClsFT). simpl in Hcov. lia.
Qed.
End Outcome.

(** X5.  The planner stops only when it is blocked.  In the plan that it
    returns for a requirement without negative entries that covers the 24
    hours, take any hour that is still short and any window of a class
    that contains it and fits in the day: either the class has used up its
    total of shifts, or some hour of the window is at the cap of the class
    or at the combined cap.  No shift that the limits still admit would
    cover an hour that is short. *)
Theorem plan_blocked (requiredPerHourInt : list Z) (limits : Limits) (opts : Opts)
  (fuel : nat) :
  Forall (fun r => 0 <= r) requiredPerHourInt ->
  (24 <= length requiredPerHourInt)%nat ->
  Z.max 0 (maxFTShifts limits) + Z.max 0 (maxPTShifts limits) < Z.of_nat fuel ->
  exists plan,
    buildShiftPlanStrategic requiredPerHourInt limits opts fuel = Some plan /\
    forall c s h z,
      Z.of_nat s + lenOf opts c <= 24 -> inWindow s (lenOf opts c) h ->
      Plan.shortage plan !! h = Some (Int z) -> 0 < z ->
      maxShiftsOf limits c <= totalCount (planShifts c plan) \/
      exists h', inWindow s (lenOf opts c) h' /\
        (capOf limits c <= covering (planShifts c plan) h' \/
         exists v, Plan.coverage plan !! h' = Some v /\
                   capFT limits + capPT limits <= v).
Proof.
  intros Hreq Hlen Hfuel.
  destruct (run_ends requiredPerHourInt limits opts fuel Hfuel)
    as (st & n & Hloop & Hrun & Hr & _).
  exists (planOf requiredPerHourInt limits st). split; [done|].
  intros c s h z Hs Hh Hz Hz0.
  assert (Hh24 : (h < 24)%nat) by (unfold inWindow in Hh; lia).
  assert (Hnot : ~ feasible limits opts c st s).
  { intros Hf.
    pose proof (stopped_no_deficit requiredPerHourInt limits opts c st s h Hreq Hlen Hr
                  (placeLoop_last requiredPerHourInt limits opts _ _ _ _ Hloop c) Hf Hh) as Hd.
    rewrite (planOf_shortage_deficit requiredPerHourInt limits opts st h Hreq Hr Hh24) in Hz
      by lia.
    rewrite Hd in Hz. injection Hz as <-. lia. }
  destruct (not_feasible_blocked limits opts c st s Hs Hnot) as [Hfull|(h' & Hh' & Hblock)].
  - left. destruct (reachable_placed _ _ _ st Hr c) as [Hp _]. rewrite Hp in Hfull.
    destruct c; unfold planOf; cbn [planShifts Plan.shiftsFT Plan.shiftsPT];
      by rewrite totalCount_merge.
  - right. exists h'. split; [done|].
    assert (Hh'24 : (h' < 24)%nat) by (unfold inWindow in Hh'; lia).
    destruct Hblock as [Hcap|Hall].
    + left. rewrite <- (planOf_covering requiredPerHourInt limits opts st c h' Hr) in Hcap.
      by destruct c.
    + right. eexists. split; [by apply (planOf_coverage _ _ opts)|done].
Qed.

Lemma plan_blocked_witness :
  exists plan,
    buildShiftPlanStrategic sampleRequired sampleLimits sampleOpts 10 = Some plan /\
    forall c s h z,
      Z.of_nat s + lenOf sampleOpts c <= 24 -> inWindow s (lenOf sampleOpts c) h ->
      Plan.shortage plan !! h = Some (Int z) -> 0 < z ->
      maxShiftsOf sampleLimits c <= totalCount (planShifts c plan) \/
      exists h', inWindow s (lenOf sampleOpts c) h' /\
        (capOf sampleLimits c <= covering (planShifts c plan) h' \/
         exists v, Plan.coverage plan !! h' = Some v /\
                   capFT sampleLimits + capPT sampleLimits <= v).
Proof.
  apply (plan_blocked sampleRequired sampleLimits sampleOpts 10).
  - unfold sampleRequired. repeat constructor; lia.
  - vm_compute. lia.
  - vm_compute. reflexivity.
Defined.



(** ** The planner: classes without room, and the summary of the plan *)

Lemma covering_nil h : covering [] h = 0.
Proof. reflexivity. Qed.

Section Barred.
Variable requiredPerHourInt : list Z.
Variable limits : Limits.
Variable opts : Opts.

#[local] Abbreviation reachable := (reachable limits opts requiredPerHourInt).

(** A class that is barred never gets a window pushed. *)
Lemma reachable_barred c st :
  barred limits opts c -> reachable st -> shiftsOf c st = [].
Proof.
  intros Hbar. revert st.
  apply (reachable_scored requiredPerHourInt limits opts (fun st => shiftsOf c st = [])).
  - by destruct c.
  - intros c' s v st Hr IH Hf Hv Hv0. destruct (decide (c = c')) as [<-|Hne].
    + exfalso. pose proof (windowScore_pos_len limits opts c st s v Hv Hv0) as Hlen.
      destruct Hf as (Hs%elem_of_startsOf & Hfree & Hroom).
      destruct (reachable_placed _ _ _ st Hr c) as [Hp _].
      rewrite IH in Hp. change (totalCount []) with 0 in Hp.
      destruct (Hroom s) as [Hcap _]; [unfold inWindow; lia|].
      rewrite (reachable_covering _ _ _ st Hr c s), IH, covering_nil in Hcap.
      unfold H in Hs. destruct Hbar as [?|[?|[?|?]]]; lia.
    + assert (Hc : c = other c') by (destruct c, c'; simpl; congruence).
      rewrite Hc in *. by rewrite placeAt_shifts_other.
Qed.
End Barred.

(** X7.  A class without room gets no shift.  Whatever the requirement and
    the strategy, the plan has no full-time window when the full-time total
    or the full-time cap is 0 (or less), and no part-time window when the
    part-time total or cap is 0 or the part-time length is below 1 or above
    24.  When both classes are barred the plan covers no hour and each hour
    is short by its whole (positive) requirement. *)
Theorem barred_class_empty (requiredPerHourInt : list Z) (limits : Limits) (opts : Opts)
  (fuel : nat) :
  Z.max 0 (maxFTShifts limits) + Z.max 0 (maxPTShifts limits) < Z.of_nat fuel ->
  exists plan,
    buildShiftPlanStrategic requiredPerHourInt limits opts fuel = Some plan /\
    (forall c, barred limits opts c -> planShifts c plan = []) /\
    ((forall c, barred limits opts c) ->
       Plan.coverage plan = replicate 24 0 /\
       forall h r, (h < 24)%nat -> requiredPerHourInt !! h = Some r ->
         Plan.shortage plan !! h = Some (Int (Z.max 0 r)) /\
         Plan.excess plan !! h = Some (Int (Z.max 0 (- r)))).
Proof.
  intros Hfuel.
  destruct (run_ends requiredPerHourInt limits opts fuel Hfuel)
    as (st & n & Hloop & Hrun & Hr & _).
  exists (planOf requiredPerHourInt limits st). split; [done|].
  assert (Hempty : forall c, barred limits opts c -> shiftsOf c st = []).
  { intros c Hc. by eapply reachable_barred. }
  split.
  { intros c Hc. specialize (Hempty c Hc).
    destruct c; unfold planOf; cbn [planShifts Plan.shiftsFT Plan.shiftsPT shiftsOf] in *;
      by rewrite Hempty. }
  intros Hall.
  assert (Hzero : forall h, get (covFT st) h + get (covPT st) h = 0).
  { intros h.
    pose proof (reachable_covering _ _ _ st Hr ClsFT h) as HF.
    pose proof (reachable_covering _ _ _ st Hr ClsPT h) as HP.
    rewrite (Hempty _ (Hall _)), covering_nil in HF.
    rewrite (Hempty _ (Hall _)), covering_nil in HP. cbn [covOf] in HF, HP. lia. }
  split.
  - apply list_eq. intros h. destruct (decide (h < 24)%nat) as [Hh|Hh].
    + rewrite (planOf_coverage _ _ opts st h Hr Hh), Hzero.
      symmetry. apply lookup_replicate_2. lia.
    + rewrite (proj2 (lookup_ge_None _ h));
        [|rewrite (planOf_coverage_length _ _ opts st Hr); lia].
      symmetry. apply lookup_ge_None. rewrite length_replicate. lia.
  - intros h r Hh Hreq.
    rewrite (planOf_shortage _ _ opts st h Hr Hh), (planOf_excess _ _ opts st h Hr Hh).
    rewrite Hzero. unfold readNum. rewrite Hreq. cbn [nmax nsub lift2].
    split; do 2 f_equal; lia.
Qed.

Lemma barred_class_empty_witness :
  exists plan,
    buildShiftPlanStrategic sampleRequired
      {| capFT := 4; capPT := 0; maxFTShifts := 5; maxPTShifts := 4 |} sampleOpts 10
      = Some plan /\
    (forall c, barred {| capFT := 4; capPT := 0; maxFTShifts := 5; maxPTShifts := 4 |}
                 sampleOpts c -> planShifts c plan = []) /\
    ((forall c, barred {| capFT := 4; capPT := 0; maxFTShifts := 5; maxPTShifts := 4 |}
                  sampleOpts c) ->
       Plan.coverage plan = replicate 24 0 /\
       forall h r, (h < 24)%nat -> sampleRequired !! h = Some r ->
         Plan.shortage plan !! h = Some (Int (Z.max 0 r)) /\
         Plan.excess plan !! h = Some (Int (Z.max 0 (- r)))).
Proof.
  apply (barred_class_empty sampleRequired
           {| capFT := 4; capPT := 0; maxFTShifts := 5; maxPTShifts := 4 |} sampleOpts 10).
  vm_compute. reflexivity.
Defined.

(** *** The summary fields *)

Lemma positives_cons z zs :
  positives (z :: zs) = (if decide (0 < z) then 1 else 0) + positives zs.
Proof.
  unfold positives. rewrite filter_cons. case_decide; cbn [length]; lia.
Qed.

Lemma hoursShort_fold (zs : list Z) (a : Z) :
  fold_left (fun n v => n + (if ngt v (Int 0) then 1 else 0)) (Int <$> zs) a
  = a + positives zs.
Proof.
  revert a. induction zs as [|z zs IH]; intros a.
  - unfold positives. simpl. lia.
  - rewrite fmap_cons, positives_cons. cbn [fold_left ngt]. rewrite IH.
    destruct (Z.gtb_spec z 0); case_decide; lia.
Qed.

Lemma positives_bounds zs :
  0 <= positives zs <= Z.of_nat (length zs).
Proof.
  induction zs as [|z zs IH]; [unfold positives; simpl; lia|].
  rewrite positives_cons. cbn [length]. case_decide; lia.
Qed.

Lemma positives_sum zs :
  Forall (fun z => 0 <= z) zs ->
  positives zs <= sumZ zs /\ (positives zs = 0 <-> sumZ zs = 0).
Proof.
  induction 1 as [|z zs Hz Hzs IH]; [unfold positives, sumZ; simpl; lia|].
  rewrite positives_cons, sumZ_cons. pose proof (positives_bounds zs).
  pose proof (sumZ_nonneg zs Hzs). case_decide; lia.
Qed.

Lemma maxOf_spec (arr : list Z) :
  arr <> [] ->
  exists m, maxOf arr = Some m /\ m ∈ arr /\ forall v, v ∈ arr -> v <= m.
Proof.
  destruct arr as [|a arr]; [done|]. intros _. unfold maxOf.
  exists (fold_left Z.max arr a). split; [done|].
  revert a. induction arr as [|b arr IH]; intros a.
  - simpl. split; [apply list_elem_of_here|]. by intros v ->%list_elem_of_singleton.
  - cbn [fold_left]. destruct (IH (Z.max a b)) as [Hin Hmax]. split.
    + apply elem_of_cons in Hin as [Heq|Hin].
      * rewrite Heq. destruct (Z.max_spec a b) as [[_ ->]|[_ ->]].
        -- apply list_elem_of_further, list_elem_of_here.
        -- apply list_elem_of_here.
      * by do 2 apply list_elem_of_further.
    + intros v [->|[->|Hv]%elem_of_cons]%elem_of_cons.
      * specialize (Hmax (Z.max a b) ltac:(apply list_elem_of_here)). lia.
      * specialize (Hmax (Z.max a b) ltac:(apply list_elem_of_here)). lia.
      * apply Hmax. by apply list_elem_of_further.
Qed.

(** X8.  The summary of the plan.  For a requirement that covers the 24
    hours, the shortage vector holds 24 integers, none negative;
    [totalShortUnits] is their sum, [hoursShort] the number of positive
    ones, between 0 and 24 and at most [totalShortUnits]; the two are 0
    together, so the shortage alert of the interface (shown when
    [hoursShort > 0]) appears exactly when some staff-hour is short; and
    [maxConcurrent] is the greatest entry of the coverage vector. *)
Theorem plan_summary (requiredPerHourInt : list Z) (limits : Limits) (opts : Opts)
  (fuel : nat) :
  (24 <= length requiredPerHourInt)%nat ->
  Z.max 0 (maxFTShifts limits) + Z.max 0 (maxPTShifts limits) < Z.of_nat fuel ->
  exists plan zs m,
    buildShiftPlanStrategic requiredPerHourInt limits opts fuel = Some plan /\
    Plan.shortage plan = Int <$> zs /\ length zs = 24%nat /\
    Forall (fun z => 0 <= z) zs /\
    Plan.totalShortUnits plan = Int (sumZ zs) /\
    Plan.hoursShort plan = positives zs /\
    0 <= Plan.hoursShort plan <= 24 /\
    Plan.hoursShort plan <= sumZ zs /\
    (Plan.hoursShort plan = 0 <-> sumZ zs = 0) /\
    Plan.maxConcurrent plan = Some m /\ m ∈ Plan.coverage plan /\
    (forall v, v ∈ Plan.coverage plan -> v <= m).
Proof.
  intros Hlen Hfuel.
  destruct (run_ends requiredPerHourInt limits opts fuel Hfuel)
    as (st & n & Hloop & Hrun & Hr & _).
  pose (p := planOf requiredPerHourInt limits st).
  pose (zs := imap (fun h c => Z.max 0 (get requiredPerHourInt h - c)) (Plan.coverage p)).
  pose proof (planOf_coverage_length _ _ opts st Hr) as Hclen. fold p in Hclen.
  assert (Hzlen : length zs = 24%nat) by (unfold zs; by rewrite length_imap).
  assert (Hshort : Plan.shortage p = Int <$> zs).
  { apply list_eq. intros h. rewrite list_lookup_fmap. unfold zs.
    rewrite list_lookup_imap. destruct (decide (h < 24)%nat) as [Hh|Hh].
    - unfold p. rewrite (planOf_shortage _ _ opts st h Hr Hh).
      rewrite (planOf_coverage _ _ opts st h Hr Hh). simpl.
      destruct (lookup_lt_is_Some_2 requiredPerHourInt h ltac:(lia)) as [r Hreq].
      unfold readNum, get at 3. by rewrite Hreq.
    - rewrite (proj2 (lookup_ge_None (Plan.coverage p) h)) by lia.
      apply lookup_ge_None. unfold p, planOf. cbn [Plan.shortage].
      rewrite !length_imap. destruct (reachable_shape _ _ _ st Hr) as [Hl _].
      specialize (Hl ClsFT). simpl in Hl. lia. }
  assert (Hpos : Forall (fun z => 0 <= z) zs).
  { apply Forall_lookup_2. intros h z. unfold zs. rewrite list_lookup_imap.
    destruct (Plan.coverage p !! h); [|done]. simpl. intros [= <-]. lia. }
  destruct (maxOf_spec (Plan.coverage p)) as (m & Hm & Hin & Hmax).
  { intros Hnil. rewrite Hnil in Hclen. discriminate Hclen. }
  assert (Hhours : Plan.hoursShort p = positives zs).
  { change (Plan.hoursShort p)
      with (fold_left (fun n v => n + (if ngt v (Int 0) then 1 else 0)) (Plan.shortage p) 0).
    by rewrite Hshort, hoursShort_fold. }
  pose proof (positives_bounds zs) as Hb. pose proof (positives_sum zs Hpos) as [Hle Hiff].
  exists p, zs, m. rewrite Hhours.
  split; [done|]. split; [done|]. split; [done|]. split; [done|]. split.
  { change (Plan.totalShortUnits p) with (sumNum (Plan.shortage p)).
    rewrite Hshort. apply sumNum_ints. }
  split; [done|]. split; [lia|]. split; [done|]. split; [done|]. done.
Qed.

Lemma plan_summary_witness :
  exists plan zs m,
    buildShiftPlanStrategic sampleRequired sampleLimits sampleOpts 10 = Some plan /\
    Plan.shortage plan = Int <$> zs /\ length zs = 24%nat /\
    Forall (fun z => 0 <= z) zs /\
    Plan.totalShortUnits plan = Int (sumZ zs) /\
    Plan.hoursShort plan = positives zs /\
    0 <= Plan.hoursShort plan <= 24 /\
    Plan.hoursShort plan <= sumZ zs /\
    (Plan.hoursShort plan = 0 <-> sumZ zs = 0) /\
    Plan.maxConcurrent plan = Some m /\ m ∈ Plan.coverage plan /\
    (forall v, v ∈ Plan.coverage plan -> v <= m).
Proof.
  apply (plan_summary sampleRequired sampleLimits sampleOpts 10).
  - vm_compute. lia.
  - vm_compute. reflexivity.
Defined.

(** ** The mixed strategy *)

Lemma Qltb_lt (a b : Q) : Qltb a b = true <-> (a < b)%Q.
Proof.
  unfold Qltb. rewrite negb_true_iff. split.
  - intros Hb. apply Qnot_le_lt. intros Hle. apply Qle_bool_iff in Hle. congruence.
  - intros Hlt. destruct (Qle_bool b a) eqn:E; [|done].
    apply Qle_bool_iff in E. by apply Qlt_not_le in Hlt.
Qed.

Lemma Qdiv_lt_cross (a b c d : Z) :
  0 < b -> 0 < d ->
  (inject_Z a / inject_Z b < inject_Z c / inject_Z d)%Q <-> a * d < c * b.
Proof.
  intros Hb Hd. destruct b as [|pb|pb]; try lia. destruct d as [|pd|pd]; try lia.
  unfold Qlt, Qdiv, Qmult, Qinv, inject_Z. cbn [Qnum Qden].
  rewrite !Pos.mul_1_l, !Z.mul_1_r. reflexivity.
Qed.

(** The comparison [share < target] of the mixed loop, in whole numbers. *)
Lemma belowTarget_spec (opts : Opts) (ft pt : Z) :
  0 <= ft -> 0 <= pt ->
  (belowTarget opts ft pt = true <->
   match mixedFtPercent opts with
   | Int p => 0 < ft + pt /\ 100 * ft < Z.min 100 (Z.max 0 p) * (ft + pt)
   | NaN => False
   end).
Proof.
  intros Hft Hpt. unfold belowTarget, mixedTarget.
  destruct (mixedFtPercent opts) as [p|]; [|done].
  cbn [nmin nmax lift2]. rewrite Qltb_lt. unfold mixedShare.
  destruct (Z.gtb_spec (ft + pt) 0) as [Hpos|Hzero].
  - change 100%Q with (inject_Z 100). rewrite Qdiv_lt_cross by lia. lia.
  - change 100%Q with (inject_Z 100). change 1%Q with (inject_Z 1 / inject_Z 1)%Q.
    rewrite Qdiv_lt_cross by lia. lia.
Qed.

(** X9.  Which class an iteration of the mixed loop tries first.  With
    [ft] full-time and [pt] part-time shifts counted so far and a target
    of [p] percent, the iteration makes its first attempt, on the state it
    starts from, for the full-time class exactly when a shift has been
    counted and [100 * ft < clamp(p, 0, 100) * (ft + pt)], and for the
    part-time class otherwise (always when the target is not a number);
    the second attempt is for the other class, on the state that the
    first one leaves; each counter grows by 1 when the attempt of its
    class succeeds, and the iteration reports progress when either
    does.  The first iteration of the loop (nothing counted) tries the
    part-time class first, whatever the target. *)
Theorem mixed_order (limits : Limits) (opts : Opts) (ft pt : Z) (st : State) :
  0 <= ft -> 0 <= pt ->
  let first :=
    match mixedFtPercent opts with
    | Int p =>
        if decide (0 < ft + pt /\ 100 * ft < Z.min 100 (Z.max 0 p) * (ft + pt))
        then ClsFT else ClsPT
    | NaN => ClsPT
    end in
  (exists ok1 st1 ok2 st2,
     placeOne limits opts first st = (ok1, st1) /\
     placeOne limits opts (other first) st1 = (ok2, st2) /\
     mixedBody limits opts ft pt st
     = (ft + (if match first with ClsFT => ok1 | ClsPT => ok2 end then 1 else 0),
        pt + (if match first with ClsFT => ok2 | ClsPT => ok1 end then 1 else 0),
        st2, ok1 || ok2)) /\
  (exists okP st1 okF st2,
     placeOne limits opts ClsPT st = (okP, st1) /\
     placeOne limits opts ClsFT st1 = (okF, st2) /\
     mixedBody limits opts 0 0 st
     = (if okF then 1 else 0, if okP then 1 else 0, st2, okP || okF)).
Proof.
  intros Hft Hpt first.
  assert (Hfirst : belowTarget opts ft pt = true <-> first = ClsFT).
  { rewrite (belowTarget_spec opts ft pt Hft Hpt). unfold first.
    destruct (mixedFtPercent opts) as [p|]; [|done].
    case_decide; split; intros; try done; tauto. }
  clearbody first.
  assert (Hstart : belowTarget opts 0 0 = false).
  { apply not_true_is_false. rewrite (belowTarget_spec opts 0 0) by lia.
    destruct (mixedFtPercent opts); [lia|tauto]. }
  split.
  - unfold mixedBody.
    change (placeOneFT limits) with (placeOne limits opts ClsFT).
    change (placeOnePT limits opts) with (placeOne limits opts ClsPT).
    destruct (belowTarget opts ft pt) eqn:Eb.
    + rewrite (proj1 Hfirst eq_refl). cbn [other].
      destruct (placeOne limits opts ClsFT st) as [okF st1] eqn:E1.
      destruct (placeOne limits opts ClsPT st1) as [okP st2] eqn:E2.
      exists okF, st1, okP, st2. split; [done|]. split; [done|].
      destruct okF, okP; cbn [orb]; rewrite ?Z.add_0_r; reflexivity.
    + assert (Hpt1 : first = ClsPT).
      { destruct first; [|done]. discriminate (proj2 Hfirst eq_refl). }
      rewrite Hpt1. cbn [other].
      destruct (placeOne limits opts ClsPT st) as [okP st1] eqn:E1.
      destruct (placeOne limits opts ClsFT st1) as [okF st2] eqn:E2.
      exists okP, st1, okF, st2. split; [done|]. split; [done|].
      destruct okF, okP; cbn [orb]; rewrite ?Z.add_0_r; reflexivity.
  - unfold mixedBody. rewrite Hstart.
    change (placeOneFT limits) with (placeOne limits opts ClsFT).
    change (placeOnePT limits opts) with (placeOne limits opts ClsPT).
    destruct (placeOne limits opts ClsPT st) as [okP st1] eqn:E1.
    destruct (placeOne limits opts ClsFT st1) as [okF st2] eqn:E2.
    exists okP, st1, okF, st2. split; [done|]. split; [done|].
    destruct okF, okP; cbn [orb]; rewrite ?Z.add_0_r; reflexivity.
Qed.

Lemma mixed_order_witness :
  let st := placeAt sampleOpts ClsPT 8 (initialState sampleRequired) in
  let first :=
    match mixedFtPercent sampleOpts with
    | Int p =>
        if decide (0 < 0 + 1 /\ 100 * 0 < Z.min 100 (Z.max 0 p) * (0 + 1))
        then ClsFT else ClsPT
    | NaN => ClsPT
    end in
  first = ClsFT /\
  (exists ok1 st1 ok2 st2,
     placeOne sampleLimits sampleOpts first st = (ok1, st1) /\
     placeOne sampleLimits sampleOpts (other first) st1 = (ok2, st2) /\
     mixedBody sampleLimits sampleOpts 0 1 st
     = (0 + (if match first with ClsFT => ok1 | ClsPT => ok2 end then 1 else 0),
        1 + (if match first with ClsFT => ok2 | ClsPT => ok1 end then 1 else 0),
        st2, ok1 || ok2)) /\
  (exists okP st1 okF st2,
     placeOne sampleLimits sampleOpts ClsPT st = (okP, st1) /\
     placeOne sampleLimits sampleOpts ClsFT st1 = (okF, st2) /\
     mixedBody sampleLimits sampleOpts 0 0 st
     = (if okF then 1 else 0, if okP then 1 else 0, st2, okP || okF)).
Proof.
  intros st first. split; [reflexivity|].
  apply (mixed_order sampleLimits sampleOpts 0 1 st); lia.
Defined.

Section MixedCounters.
Variable limits : Limits.
Variable opts : Opts.

(** X10.  The counters of the mixed loop count the shifts.  If [ft] and
    [pt] are the numbers of full-time and part-time shifts placed when an
    iteration starts, they are when it ends; an iteration that reports no
    progress has changed nothing, and one that reports progress has placed
    one or two shifts, at most one of each class. *)
Theorem mixedBody_counters (ft pt : Z) (st : State) :
  ft = placedFT st -> pt = placedPT st ->
  exists ft' pt' st' progress,
    mixedBody limits opts ft pt st = (ft', pt', st', progress) /\
    ft' = placedFT st' /\ pt' = placedPT st' /\
    ft <= ft' <= ft + 1 /\ pt <= pt' <= pt + 1 /\
    (if progress then ft + pt < ft' + pt' else st' = st).
Proof.
  intros Hft Hpt.
  assert (Hstep : forall c s b s',
    placeOne limits opts c s = (b, s') ->
    placedOf c s' = (if b then placedOf c s + 1 else placedOf c s) /\
    placedOf (other c) s' = placedOf (other c) s /\
    (b = false -> s' = s)).
  { intros c s b s' [[-> ->]|[-> (x & _ & ->)]]%placeOne_inv; [done|].
    by rewrite placeAt_placed, placeAt_placed_other. }
  unfold mixedBody.
  change (placeOneFT limits) with (placeOne limits opts ClsFT).
  change (placeOnePT limits opts) with (placeOne limits opts ClsPT).
  destruct (belowTarget opts ft pt).
  - destruct (placeOne limits opts ClsFT st) as [b1 st1] eqn:E1.
    destruct (placeOne limits opts ClsPT st1) as [b2 st2] eqn:E2.
    destruct (Hstep _ _ _ _ E1) as (H1 & H1' & H1'').
    destruct (Hstep _ _ _ _ E2) as (H2 & H2' & H2'').
    cbn [placedOf other] in *. eexists _, _, _, _. split; [done|].
    destruct b1, b2; cbn [orb]; repeat split; try lia.
    rewrite H2'' by done. by apply H1''.
  - destruct (placeOne limits opts ClsPT st) as [b1 st1] eqn:E1.
    destruct (placeOne limits opts ClsFT st1) as [b2 st2] eqn:E2.
    destruct (Hstep _ _ _ _ E1) as (H1 & H1' & H1'').
    destruct (Hstep _ _ _ _ E2) as (H2 & H2' & H2'').
    cbn [placedOf other] in *. eexists _, _, _, _. split; [done|].
    destruct b1, b2; cbn [orb]; repeat split; try lia.
    rewrite H2'' by done. by apply H1''.
Qed.
End MixedCounters.

Lemma mixedBody_counters_witness :
  exists ft' pt' st' progress,
    mixedBody sampleLimits sampleOpts 0 0 (initialState sampleRequired)
      = (ft', pt', st', progress) /\
    ft' = placedFT st' /\ pt' = placedPT st' /\
    0 <= ft' <= 0 + 1 /\ 0 <= pt' <= 0 + 1 /\
    (if progress then 0 + 0 < ft' + pt' else st' = initialState sampleRequired).
Proof.
  apply (mixedBody_counters sampleLimits sampleOpts 0 0 (initialState sampleRequired));
    reflexivity.
Defined.

(** ** The roster: layout and agent names *)

Lemma rowsFrom_app type L id0 sl sl' :
  rowsFrom type L id0 (sl ++ sl')
  = rowsFrom type L id0 sl ++ rowsFrom type L (id0 + Z.of_nat (length sl)) sl'.
Proof.
  unfold rowsFrom. rewrite imap_app. f_equal. apply imap_ext.
  intros i se _. simpl. f_equal. lia.
Qed.

Lemma length_rowsFrom type L id0 sl : length (rowsFrom type L id0 sl) = length sl.
Proof. apply length_imap. Qed.

Lemma lookup_rowsFrom type L id0 sl i :
  rowsFrom type L id0 sl !! i
  = (fun se => entryOf type se.1 se.2 L (id0 + Z.of_nat i)) <$> sl !! i.
Proof. apply list_lookup_imap. Qed.

Lemma add_ids type s e L rs :
  idOf type (add type s e L rs) = idOf type rs + 1 /\
  idOther type (add type s e L rs) = idOther type rs.
Proof. unfold idOf, idOther, add. cbn [idFT idPT]. by destruct (String.eqb type "FT"). Qed.

Lemma iter_add type s e L k rs :
  roster (Nat.iter k (add type s e L) rs)
    = roster rs ++ rowsFrom type L (idOf type rs) (replicate k (s, e)) /\
  idOf type (Nat.iter k (add type s e L) rs) = idOf type rs + Z.of_nat k /\
  idOther type (Nat.iter k (add type s e L) rs) = idOther type rs.
Proof.
  induction k as [|k (Hr & Hid & Hother)].
  - simpl. rewrite app_nil_r. split; [done|]. split; [lia|done].
  - rewrite Nat.iter_succ. destruct (add_ids type s e L (Nat.iter k (add type s e L) rs))
      as [Hid' Hother'].
    rewrite Hid', Hother', Hid, Hother. split; [|split; [lia|done]].
    rewrite add_roster. fold (idOf type (Nat.iter k (add type s e L) rs)).
    rewrite Hr, Hid, replicate_S_end, rowsFrom_app, length_replicate, <- app_assoc.
    do 2 f_equal. unfold rowsFrom. simpl. do 2 f_equal. lia.
Qed.

Lemma addAll_rows type shifts L rs :
  roster (addAll type shifts L rs)
    = roster rs ++ rowsFrom type L (idOf type rs) (slots shifts) /\
  idOf type (addAll type shifts L rs) = idOf type rs + Z.of_nat (length (slots shifts)) /\
  idOther type (addAll type shifts L rs) = idOther type rs.
Proof.
  unfold addAll. revert rs. induction shifts as [|w shifts IH]; intros rs.
  - simpl. rewrite app_nil_r. split; [done|]. split; [lia|done].
  - cbn [fold_left].
    destruct (iter_add type (start w) (end_ w) L (Z.to_nat (count w)) rs)
      as (Hr & Hid & Hother).
    destruct (IH (Nat.iter (Z.to_nat (count w)) (add type (start w) (end_ w) L) rs))
      as (Hr' & Hid' & Hother').
    rewrite Hr', Hid', Hother', Hr, Hid, Hother.
    unfold slots. rewrite bind_cons. fold (slots shifts).
    rewrite rowsFrom_app, length_app, length_replicate, <- app_assoc.
    split; [done|]. split; [lia|done].
Qed.

Lemma buildRoster_rows shiftsFT shiftsPT L :
  buildRoster shiftsFT shiftsPT L
  = rowsFrom "FT" L 1 (slots shiftsFT) ++ rowsFrom "PT" L 1 (slots shiftsPT).
Proof.
  unfold buildRoster.
  destruct (addAll_rows "FT" shiftsFT L {| roster := []; idFT := 1; idPT := 1 |})
    as (HrF & _ & HoF).
  destruct (addAll_rows "PT" shiftsPT L
              (addAll "FT" shiftsFT L {| roster := []; idFT := 1; idPT := 1 |}))
    as (HrP & _ & _).
  rewrite HrP, HrF. cbn [roster app]. do 2 f_equal.
  change (idOf "PT" ?rs) with (idPT rs). 
  change (idOther "FT" ?rs) with (idPT rs) in HoF. by rewrite HoF.
Qed.

Lemma length_slots shifts :
  (forall w, w ∈ shifts -> 0 <= count w) ->
  Z.of_nat (length (slots shifts)) = totalCount shifts.
Proof.
  induction shifts as [|w shifts IH]; intros Hpos; [done|].
  unfold slots. rewrite bind_cons. fold (slots shifts).
  rewrite length_app, length_replicate. cbn [totalCount fold_right].
  fold (totalCount shifts).
  rewrite Nat2Z.inj_add, IH by (intros x Hx; by apply Hpos, list_elem_of_further).
  specialize (Hpos w ltac:(apply list_elem_of_here)). lia.
Qed.

Lemma elem_of_slots shifts s e :
  (s, e) ∈ slots shifts ->
  exists w, w ∈ shifts /\ s = start w /\ e = end_ w /\ 0 < count w.
Proof.
  unfold slots. intros (w & Hin & Hw)%list_elem_of_bind.
  apply elem_of_replicate in Hin as [[= -> ->] Hn]. exists w. repeat split; [done|lia].
Qed.

Lemma agent_entryOf type s e L id :
  Entry.agent (entryOf type s e L id) = type +:+ "-" +:+ pretty id.
Proof. reflexivity. Qed.

(** X11.  The layout of the roster.  [buildRoster] lists the full-time
    shifts first and the part-time shifts after them, in the order of the
    windows, each window as many rows as its count (no row for a count of
    0 or less); the agents of each class are numbered 1, 2, 3, ... in that
    order, and no two rows carry the same agent name. *)
Theorem roster_layout (shiftsFT shiftsPT : list ShiftWindow) (lunchMin : string) :
  let r := buildRoster shiftsFT shiftsPT lunchMin in
  let nF := length (slots shiftsFT) in
  let nP := length (slots shiftsPT) in
  length r = (nF + nP)%nat /\
  (forall i s e, slots shiftsFT !! i = Some (s, e) ->
     r !! i = Some (entryOf "FT" s e lunchMin (Z.of_nat i + 1))) /\
  (forall i s e, slots shiftsPT !! i = Some (s, e) ->
     r !! (nF + i)%nat = Some (entryOf "PT" s e lunchMin (Z.of_nat i + 1))) /\
  NoDup (Entry.agent <$> r).
Proof.
  cbv zeta. rewrite buildRoster_rows.
  assert (HF : forall i s e, slots shiftsFT !! i = Some (s, e) ->
     (rowsFrom "FT" lunchMin 1 (slots shiftsFT) ++
      rowsFrom "PT" lunchMin 1 (slots shiftsPT)) !! i
     = Some (entryOf "FT" s e lunchMin (Z.of_nat i + 1))).
  { intros i s e Hi. rewrite lookup_app_l
      by (rewrite length_rowsFrom; by eapply lookup_lt_Some).
    rewrite lookup_rowsFrom, Hi. simpl. do 2 f_equal. lia. }
  assert (HP : forall i s e, slots shiftsPT !! i = Some (s, e) ->
     (rowsFrom "FT" lunchMin 1 (slots shiftsFT) ++
      rowsFrom "PT" lunchMin 1 (slots shiftsPT)) !! (length (slots shiftsFT) + i)%nat
     = Some (entryOf "PT" s e lunchMin (Z.of_nat i + 1))).
  { intros i s e Hi. rewrite lookup_app_r by (rewrite length_rowsFrom; lia).
    rewrite length_rowsFrom.
    replace (length (slots shiftsFT) + i - length (slots shiftsFT))%nat with i by lia.
    rewrite lookup_rowsFrom, Hi. simpl. do 2 f_equal. lia. }
  split; [by rewrite length_app, !length_rowsFrom|]. split; [done|]. split; [done|].
  apply NoDup_alt. intros i j a. rewrite !list_lookup_fmap.
  assert (Hrow : forall k,
    (rowsFrom "FT" lunchMin 1 (slots shiftsFT) ++
     rowsFrom "PT" lunchMin 1 (slots shiftsPT)) !! k = None \/
    (exists x, (k < length (slots shiftsFT))%nat /\
       Entry.agent <$> (rowsFrom "FT" lunchMin 1 (slots shiftsFT) ++
         rowsFrom "PT" lunchMin 1 (slots shiftsPT)) !! k
       = Some ("FT" +:+ "-" +:+ pretty x) /\ x = Z.of_nat k + 1) \/
    (exists x, (length (slots shiftsFT) <= k)%nat /\
       Entry.agent <$> (rowsFrom "FT" lunchMin 1 (slots shiftsFT) ++
         rowsFrom "PT" lunchMin 1 (slots shiftsPT)) !! k
       = Some ("PT" +:+ "-" +:+ pretty x) /\
       x = Z.of_nat (k - length (slots shiftsFT)) + 1)).
  { intros k. destruct (decide (k < length (slots shiftsFT))%nat) as [Hk|Hk].
    - destruct (lookup_lt_is_Some_2 (slots shiftsFT) k Hk) as [[s e] Hse].
      right. left. exists (Z.of_nat k + 1). split; [done|]. by rewrite (HF k s e Hse).
    - destruct (slots shiftsPT !! (k - length (slots shiftsFT))%nat) as [[s e]|] eqn:Hse.
      + right. right. exists (Z.of_nat (k - length (slots shiftsFT)) + 1).
        split; [lia|]. split; [|done].
        pose proof (HP _ s e Hse) as Hrow.
        replace (length (slots shiftsFT) + (k - length (slots shiftsFT)))%nat
          with k in Hrow by lia.
        by rewrite Hrow.
      + left. rewrite lookup_app_r by (rewrite length_rowsFrom; lia).
        rewrite length_rowsFrom, lookup_rowsFrom, Hse. done. }
  destruct (Hrow i) as [Hi|[(x & Hi & Hx & ->)|(x & Hi & Hx & ->)]];
    destruct (Hrow j) as [Hj|[(y & Hj & Hy & ->)|(y & Hj & Hy & ->)]].
  all: try (rewrite Hi; discriminate).
  all: try (rewrite Hj; intros _; discriminate).
  all: rewrite Hx, Hy; intros [= <-]; try discriminate.
  all: intros [= Heq]; apply pretty_Z_inj in Heq; lia.
Qed.

Lemma elem_of_rowsFrom type L id0 sl r :
  r ∈ rowsFrom type L id0 sl ->
  exists s e id, (s, e) ∈ sl /\ r = entryOf type s e L id.
Proof.
  intros (i & Hi)%list_elem_of_lookup_1. rewrite lookup_rowsFrom in Hi.
  destruct (sl !! i) as [[s e]|] eqn:Hse; [|done]. injection Hi as <-.
  exists s, e, (id0 + Z.of_nat i). split; [by eapply list_elem_of_lookup_2|done].
Qed.

(** X12.  The roster of a plan.  For limits that are not negative, the
    roster built from the windows of the plan has one row per shift
    placed: as many rows as the counts of the windows add up to, at most
    [maxFTShifts + maxPTShifts]; every row is a full-time row of 8 hours
    or a part-time row of [ptLenHours] hours, and lies inside the day. *)
Theorem roster_of_plan (requiredPerHourInt : list Z) (limits : Limits) (opts : Opts)
  (fuel : nat) (lunchMin : string) :
  0 <= capFT limits -> 0 <= capPT limits ->
  0 <= maxFTShifts limits -> 0 <= maxPTShifts limits ->
  Z.max 0 (maxFTShifts limits) + Z.max 0 (maxPTShifts limits) < Z.of_nat fuel ->
  exists plan,
    buildShiftPlanStrategic requiredPerHourInt limits opts fuel = Some plan /\
    let r := buildRoster (Plan.shiftsFT plan) (Plan.shiftsPT plan) lunchMin in
    Z.of_nat (length r)
      = totalCount (Plan.shiftsFT plan) + totalCount (Plan.shiftsPT plan) /\
    Z.of_nat (length r) <= maxFTShifts limits + maxPTShifts limits /\
    forall e, e ∈ r ->
      0 <= Entry.start e /\ Entry.end_ e <= 24 /\
      Entry.hours e = Entry.end_ e - Entry.start e /\
      ((Entry.type e = "FT" /\ Entry.hours e = 8) \/
       (Entry.type e = "PT" /\ Entry.hours e = ptLenHours opts /\ 0 < ptLenHours opts)).
Proof.
  intros HcF HcP HmF HmP Hfuel.
  destruct (run_ends requiredPerHourInt limits opts fuel Hfuel)
    as (st & n & _ & Hrun & Hr & _).
  exists (planOf requiredPerHourInt limits st). split; [done|].
  unfold planOf. cbn [Plan.shiftsFT Plan.shiftsPT]. cbv zeta.
  rewrite buildRoster_rows, length_app, !length_rowsFrom, Nat2Z.inj_add.
  pose proof (fun c w => merged_shifts requiredPerHourInt limits opts st c w HcF HcP Hr)
    as Hwin.
  rewrite !length_slots.
  2: { intros w Hw. destruct (Hwin ClsPT w Hw) as (_ & _ & _ & _ & Hc). lia. }
  2: { intros w Hw. destruct (Hwin ClsFT w Hw) as (_ & _ & _ & _ & Hc). lia. }
  split; [done|]. split.
  { rewrite !totalCount_merge.
    destruct (reachable_placed _ _ _ st Hr ClsFT) as [HpF HbF].
    destruct (reachable_placed _ _ _ st Hr ClsPT) as [HpP HbP].
    cbn [placedOf shiftsOf maxShiftsOf] in *. lia. }
  intros e [He|He]%elem_of_app;
    apply elem_of_rowsFrom in He as (s & f & id & (w & Hw & -> & -> & _)%elem_of_slots & ->);
    cbn [entryOf Entry.start Entry.end_ Entry.hours Entry.type].
  - destruct (Hwin ClsFT w Hw) as (H0 & Hend & H24 & _ & _).
    cbn [lenOf] in Hend. unfold FT in Hend.
    split; [done|]. split; [done|]. split; [done|]. left. split; [done|lia].
  - destruct (Hwin ClsPT w Hw) as (H0 & Hend & H24 & Hlen & _).
    cbn [lenOf] in Hend, Hlen. unfold PT in Hend, Hlen.
    split; [done|]. split; [done|]. split; [done|]. right. split; [done|]. split; [lia|done].
Qed.

Lemma roster_of_plan_witness :
  exists plan,
    buildShiftPlanStrategic sampleRequired sampleLimits sampleOpts 10 = Some plan /\
    let r := buildRoster (Plan.shiftsFT plan) (Plan.shiftsPT plan) "30" in
    Z.of_nat (length r)
      = totalCount (Plan.shiftsFT plan) + totalCount (Plan.shiftsPT plan) /\
    Z.of_nat (length r) <= maxFTShifts sampleLimits + maxPTShifts sampleLimits /\
    forall e, e ∈ r ->
      0 <= Entry.start e /\ Entry.end_ e <= 24 /\
      Entry.hours e = Entry.end_ e - Entry.start e /\
      ((Entry.type e = "FT" /\ Entry.hours e = 8) \/
       (Entry.type e = "PT" /\ Entry.hours e = ptLenHours sampleOpts /\
        0 < ptLenHours sampleOpts)).
Proof.
  apply (roster_of_plan sampleRequired sampleLimits sampleOpts 10 "30");
    vm_compute; (reflexivity || discriminate).
Defined.

(** ** The planner: staff-hours *)

Lemma sumZ_app l l' : sumZ (l ++ l') = sumZ l + sumZ l'.
Proof. induction l as [|x l IH]; [done|]. rewrite <- app_comm_cons, !sumZ_cons, IH. lia. Qed.

Lemma sumZ_alter_succ (l : list Z) i :
  (i < length l)%nat -> sumZ (alter (fun v => v + 1) i l) = sumZ l + 1.
Proof.
  revert i. induction l as [|x l IH]; intros i Hi; [simpl in Hi; lia|].
  destruct i as [|i]; cbn [alter list_alter]; rewrite !sumZ_cons.
  - lia.
  - change (list_alter (fun v => v + 1) i l) with (alter (fun v => v + 1) i l).
    rewrite IH by (simpl in Hi; lia). lia.
Qed.

Lemma sumZ_alterAll_succ (l : list Z) s n :
  (s + n <= length l)%nat ->
  sumZ (alterAll (fun v => v + 1) (seq s n) l) = sumZ l + Z.of_nat n.
Proof.
  induction n as [|n IH]; intros Hn; [simpl; lia|].
  unfold alterAll in *. rewrite seq_S, fold_left_app. cbn [fold_left].
  rewrite sumZ_alter_succ.
  - rewrite IH by lia. lia.
  - pose proof (length_alterAll (fun v => v + 1) (seq s n) l) as Hlen.
    unfold alterAll in Hlen. rewrite Hlen. lia.
Qed.

Lemma sumZ_imap_add (a b : list Z) :
  length a = length b ->
  sumZ (imap (fun i v => v + get b i) a) = sumZ a + sumZ b.
Proof.
  revert b. induction a as [|x a IH]; intros [|y b] Hlen; try done.
  rewrite imap_cons, !sumZ_cons.
  rewrite (imap_ext _ (fun i v => v + get b i)) by done.
  rewrite IH by (by injection Hlen). unfold get. simpl. lia.
Qed.

(** Coverage and shortage add up to requirement and excess. *)
Lemma sumZ_balance (c r : list Z) :
  length c = length r ->
  sumZ c + sumZ (imap (fun h v => Z.max 0 (get r h - v)) c)
  = sumZ r + sumZ (imap (fun h v => Z.max 0 (v - get r h)) c).
Proof.
  revert r. induction c as [|x c IH]; intros [|y r] Hlen; try done.
  rewrite !imap_cons, !sumZ_cons.
  rewrite (imap_ext _ (fun h v => Z.max 0 (get r h - v))) by done.
  rewrite (imap_ext (_ ∘ S) (fun h v => Z.max 0 (v - get r h))) by done.
  specialize (IH r ltac:(by injection Hlen)). unfold get at 1 3. simpl. lia.
Qed.

Section StaffHours.
Variable requiredPerHourInt : list Z.
Variable limits : Limits.
Variable opts : Opts.

#[local] Abbreviation lenOf := (lenOf opts).
#[local] Abbreviation reachable := (reachable limits opts requiredPerHourInt).
#[local] Abbreviation plan := (planOf requiredPerHourInt limits).

(** The coverage array of a class sums to the hours of its shifts. *)
Lemma reachable_staff_hours st :
  reachable st -> forall c, sumZ (covOf c st) = lenOf c * placedOf c st.
Proof.
  intros Hr. pose proof Hr as Hr'. revert st Hr Hr'.
  apply (reachable_scored requiredPerHourInt limits opts (fun st =>
    reachable st -> forall c, sumZ (covOf c st) = lenOf c * placedOf c st)).
  - intros _ c. transitivity 0; [|destruct c; simpl; lia].
    destruct c; reflexivity.
  - intros c s v st Hr IH Hf Hv Hv0 _ c'. specialize (IH Hr).
    destruct (decide (c' = c)) as [->|Hne].
    + rewrite placeAt_cov, placeAt_placed. unfold hoursFrom.
      pose proof (windowScore_pos_len limits opts c st s v Hv Hv0) as Hlen.
      destruct (reachable_shape _ _ _ st Hr) as [Hshape _].
      destruct Hf as (Hs%elem_of_startsOf & _). unfold H in Hs.
      rewrite sumZ_alterAll_succ by (rewrite Hshape; lia).
      rewrite IH. lia.
    + assert (Hc : c' = other c) by (destruct c, c'; simpl; congruence).
      rewrite Hc. by rewrite placeAt_cov_other, placeAt_placed_other.
Qed.

(** The shortage and excess vectors as integers, when the requirement is
    at least as long as the coverage. *)
Lemma planOf_short_over st :
  (24 <= length requiredPerHourInt)%nat -> reachable st ->
  Plan.shortage (plan st)
    = Int <$> imap (fun h v => Z.max 0 (get requiredPerHourInt h - v))
                (Plan.coverage (plan st)) /\
  Plan.excess (plan st)
    = Int <$> imap (fun h v => Z.max 0 (v - get requiredPerHourInt h))
                (Plan.coverage (plan st)).
Proof.
  intros Hlen Hr. pose proof (planOf_coverage_length _ _ opts st Hr) as Hclen.
  unfold planOf in *. cbn [Plan.shortage Plan.excess Plan.coverage] in *.
  set (cov := imap (fun i v => v + get (covPT st) i) (covFT st)) in *.
  split; apply list_eq; intros h; rewrite list_lookup_fmap, !list_lookup_imap.
  all: destruct (cov !! h) as [v|] eqn:Hv; [|done].
  all: apply lookup_lt_Some in Hv as Hh.
  all: destruct (lookup_lt_is_Some_2 requiredPerHourInt h ltac:(lia)) as [r Hreq].
  all: simpl; unfold readNum, get; rewrite Hreq; reflexivity.
Qed.
End StaffHours.



(** ** From the hourly rows to the plan *)

Lemma staffInt_lookup rows h staff :
  rows !! h = Some staff ->
  staffInt rows !! h = Some (Z.max 0 (Qceiling (default 0%Q staff))).
Proof. intros Hrow. unfold staffInt. by rewrite list_lookup_fmap, Hrow. Qed.

Lemma staffInt_nonneg rows : Forall (fun r => 0 <= r) (staffInt rows).
Proof. unfold staffInt. apply Forall_fmap, Forall_forall. intros staff _. simpl. lia. Qed.

Lemma length_staffInt rows : length (staffInt rows) = length rows.
Proof. unfold staffInt. apply length_fmap. Qed.

(** [max(0, ceil x)] is the least integer that is neither negative nor
    below [x]. *)
Lemma ceil0_spec (x : Q) :
  let z := Z.max 0 (Qceiling x) in
  (x <= inject_Z z)%Q /\ (0 < z -> (inject_Z z < x + 1)%Q) /\
  forall k, 0 <= k -> (x <= inject_Z k)%Q -> z <= k.
Proof.
  cbv zeta. pose proof (Qle_ceiling x) as Hle. pose proof (Qceiling_lt x) as Hlt.
  split; [|split].
  - eapply Qle_trans; [exact Hle|]. rewrite <- Zle_Qle. lia.
  - intros Hpos. replace (Z.max 0 (Qceiling x)) with (Qceiling x) by lia.
    clear Hle Hpos. destruct x as [n d]. set (c := Qceiling (n # d)) in *.
    unfold Qlt, Qplus, inject_Z in *. cbn [Qnum Qden] in *.
    rewrite Pos.mul_1_r. lia.
  - intros k Hk Hx. apply Z.max_lub; [done|].
    destruct (Z.le_gt_cases (Qceiling x) k) as [|Hgt]; [done|]. exfalso.
    assert (Hk1 : (inject_Z k <= inject_Z (Qceiling x - 1))%Q) by (rewrite <- Zle_Qle; lia).
    apply (Qlt_irrefl x). eapply Qle_lt_trans; [exact Hx|].
    eapply Qle_lt_trans; [exact Hk1|exact Hlt].
Qed.



(** X15.  A form left blank.  With the four limit fields blank and [peak]
    the greatest entry of the requirement, at most [exactBound] so that
    its template string is its decimal text and [parseInt] reads it back
    exactly, the memo resolves the full-time cap and the full-time total
    to [peak] and the part-time cap and total to 0; the plan for these
    limits has no part-time shift and at most [peak] full-time shifts. *)
Theorem blank_limits_plan (rows : list (option Q)) (opts : Opts) (fuel : nat) (peak : Z) :
  peakStaff rows = Some peak ->
  peak <= exactBound ->
  Z.max 0 peak < Z.of_nat fuel ->
  0 <= peak /\
  Aggregates.capFt "" peak = Int peak /\
  Aggregates.capPt "" = Int 0 /\
  Aggregates.maxFTShifts "" "" peak = Int peak /\
  Aggregates.maxPTShifts "" "" = Int 0 /\
  exists plan,
    buildShiftPlanStrategic (staffInt rows)
      {| capFT := peak; capPT := 0; maxFTShifts := peak; maxPTShifts := 0 |} opts fuel
      = Some plan /\
    Plan.shiftsPT plan = [] /\
    0 <= totalCount (Plan.shiftsFT plan) <= peak.
Proof.
  intros Hpeak Hexact Hfuel.
  assert (Hpos : 0 <= peak).
  { unfold peakStaff in Hpeak. destruct (maxOf_spec (staffInt rows)) as (m & Hm & Hin & _).
    - intros Hnil. by rewrite Hnil in Hpeak.
    - rewrite Hm in Hpeak. injection Hpeak as ->.
      pose proof (staffInt_nonneg rows) as Hall. rewrite Forall_forall in Hall.
      by apply Hall. }
  split; [done|].
  assert (Hparse : nmax (Int 0) (parseInt (pretty peak)) = Int peak).
  { rewrite parseInt_pretty. cbn [nmax lift2]. f_equal. lia. }
  split; [exact Hparse|]. split; [reflexivity|]. split; [exact Hparse|].
  split; [reflexivity|].
  set (limits := {| capFT := peak; capPT := 0; maxFTShifts := peak; maxPTShifts := 0 |}).
  destruct (run_ends (staffInt rows) limits opts fuel) as (st & n & _ & Hrun & Hr & _).
  { unfold limits. cbn [maxFTShifts maxPTShifts]. lia. }
  exists (planOf (staffInt rows) limits st). split; [done|].
  unfold planOf. cbn [Plan.shiftsFT Plan.shiftsPT]. split.
  - assert (Hb : barred limits opts ClsPT) by (right; left; reflexivity).
    pose proof (reachable_barred (staffInt rows) limits opts ClsPT st Hb Hr) as Hnil.
    cbn [shiftsOf] in Hnil. by rewrite Hnil.
  - rewrite totalCount_merge.
    destruct (reachable_placed _ _ _ st Hr ClsFT) as [Hp Hb].
    cbn [placedOf shiftsOf maxShiftsOf] in Hp, Hb. rewrite <- Hp. split.
    + rewrite Hp. apply totalCount_nonneg. intros w Hw.
      destruct (reachable_shifts _ _ _ st Hr ClsFT w Hw) as (_ & _ & _ & _ & ->). lia.
    + by apply Hb.
Qed.

Lemma blank_limits_plan_witness :
  0 <= 3 /\
  Aggregates.capFt "" 3 = Int 3 /\
  Aggregates.capPt "" = Int 0 /\
  Aggregates.maxFTShifts "" "" 3 = Int 3 /\
  Aggregates.maxPTShifts "" "" = Int 0 /\
  exists plan,
    buildShiftPlanStrategic (staffInt (replicate 24 (Some (5 # 2))))
      {| capFT := 3; capPT := 0; maxFTShifts := 3; maxPTShifts := 0 |} sampleOpts 10
      = Some plan /\
    Plan.shiftsPT plan = [] /\
    0 <= totalCount (Plan.shiftsFT plan) <= 3.
Proof.
  apply (blank_limits_plan (replicate 24 (Some (5 # 2))) sampleOpts 10 3).
  - vm_compute. reflexivity.
  - unfold exactBound. lia.
  - vm_compute. reflexivity.
Defined.

(** ** Hire recommendations: what the numbers guarantee *)

(** [ceil(a / b)] is the least number of shifts of [b] hours that hold [a]
    staff-hours. *)
Lemma ceil_least (a b : Z) :
  0 < b ->
  let c := - ((- a) / b) in
  a <= b * c /\ (forall k, a <= b * k -> c <= k) /\ (0 <= a -> 0 <= c) /\ (a = 0 -> c = 0).
Proof.
  intros Hb. cbv zeta.
  pose proof (Z.div_mod (- a) b ltac:(lia)) as Hdm.
  pose proof (Z.mod_pos_bound (- a) b Hb) as Hmod.
  set (q := (- a) / b) in *. split; [nia|]. split; [intros k Hk; nia|]. split; nia.
Qed.

Lemma floor_most (a b : Z) :
  0 < b -> b * (a / b) <= a < b * (a / b) + b.
Proof.
  intros Hb. pose proof (Z.div_mod a b ltac:(lia)) as Hdm.
  pose proof (Z.mod_pos_bound a b Hb) as Hmod. lia.
Qed.

Lemma hire_fields (p : PlanView) (ptLenHours : option Z) (zs : list Z) :
  let len := default 4 ptLenHours in
  let total := sumZ zs in
  let peak := fold_right Z.max 0 zs in
  let ft := Z.max peak (total / 8) in
  viewShortage p = Some (Int <$> zs) -> zs <> [] ->
  viewTotalShortUnits p = None \/ viewTotalShortUnits p = Some (Int total) ->
  len <> 0 ->
  computeHireRecommendations (Some p) ptLenHours =
    Some {| Hire.totalShort := Int total;
            Hire.peakShort := Int peak;
            Hire.minFT8 := Int (Z.max (- ((- total) / 8)) peak);
            Hire.minPTcur := Int (- ((- total) / len));
            Hire.minPT4 := Int (- ((- total) / 4));
            Hire.minPT6 := Int (- ((- total) / 6));
            Hire.mixed :=
              {| Hire.ft := Int ft;
                 Hire.pt := Int (- ((- Z.max 0 (total - ft * 8)) / len));
                 Hire.ptLenHours := len |} |}.
Proof.
  intros len total peak ft Hzs Hne Htotal Hlen.
  unfold computeHireRecommendations. rewrite Hzs.
  destruct zs as [|z zs]; [done|].
  change (Int <$> z :: zs) with (Int z :: (Int <$> zs)).
  change (Int z :: (Int <$> zs)) with (Int <$> z :: zs).
  assert (Ht : default (sumNum (Int <$> z :: zs)) (viewTotalShortUnits p) = Int total).
  { destruct Htotal as [-> | ->]; [apply sumNum_ints|done]. }
  rewrite Ht, maxWith0_ints. fold peak. fold len.
  rewrite floorDiv_int. cbn [nmax nsub lift2]. fold ft.
  by rewrite !ceilDiv_int by lia.
Qed.

(** X16.  What the recommended numbers guarantee.  For a shortage vector
    of integers and a positive part-time length: [minFT8] is the least
    number of 8-hour shifts that hold [totalShort] staff-hours and reach
    the peak; [minPTcur], [minPT4] and [minPT6] are the least numbers of
    shifts of their lengths that hold [totalShort]; the mixed proposal
    holds [totalShort] too, its full-time part reaches the peak and is
    [minFT8] or one less, and its part-time part is the least that closes
    the rest.  Nothing is negative when [totalShort] is not. *)
Theorem hire_bounds (p : PlanView) (ptLenHours : option Z) (zs : list Z) :
  let len := default 4 ptLenHours in
  let total := sumZ zs in
  let peak := fold_right Z.max 0 zs in
  viewShortage p = Some (Int <$> zs) -> zs <> [] ->
  viewTotalShortUnits p = None \/ viewTotalShortUnits p = Some (Int total) ->
  0 < len ->
  exists r f q q4 q6 a b,
    computeHireRecommendations (Some p) ptLenHours = Some r /\
    Hire.totalShort r = Int total /\ Hire.peakShort r = Int peak /\
    Hire.minFT8 r = Int f /\ Hire.minPTcur r = Int q /\
    Hire.minPT4 r = Int q4 /\ Hire.minPT6 r = Int q6 /\
    Hire.mixed r = {| Hire.ft := Int a; Hire.pt := Int b; Hire.ptLenHours := len |} /\
    (total <= 8 * f /\ peak <= f /\
     forall k, total <= 8 * k -> peak <= k -> f <= k) /\
    (total <= len * q /\ forall k, total <= len * k -> q <= k) /\
    (total <= 4 * q4 /\ forall k, total <= 4 * k -> q4 <= k) /\
    (total <= 6 * q6 /\ forall k, total <= 6 * k -> q6 <= k) /\
    (total <= 8 * a + len * b /\ peak <= a /\ a <= f <= a + 1 /\ 0 <= b /\
     forall k, 0 <= k -> total <= 8 * a + len * k -> b <= k) /\
    (0 <= total -> 0 <= f /\ 0 <= q /\ 0 <= q4 /\ 0 <= q6 /\ 0 <= a).
Proof.
  intros len total peak Hzs Hne Htotal Hlen.
  pose proof (hire_fields p ptLenHours zs Hzs Hne Htotal ltac:(fold len; lia)) as Hrec.
  fold len total peak in Hrec.
  destruct (max0_spec zs) as (Hpeak & _). fold peak in Hpeak.
  destruct (ceil_least total 8 ltac:(lia)) as (H8 & H8least & H8pos & _).
  destruct (ceil_least total len Hlen) as (Hq & Hqleast & Hqpos & _).
  destruct (ceil_least total 4 ltac:(lia)) as (H4 & H4least & H4pos & _).
  destruct (ceil_least total 6 ltac:(lia)) as (H6 & H6least & H6pos & _).
  pose proof (floor_most total 8 ltac:(lia)) as Hfloor.
  set (ft := Z.max peak (total / 8)) in *.
  destruct (ceil_least (Z.max 0 (total - ft * 8)) len Hlen) as (Hb & Hbleast & Hbpos & _).
  eexists _, _, _, _, _, _, _. split; [exact Hrec|].
  cbn [Hire.totalShort Hire.peakShort Hire.minFT8 Hire.minPTcur Hire.minPT4 Hire.minPT6
       Hire.mixed].
  do 7 (split; [reflexivity|]).
  set (c8 := - (- total / 8)) in *. set (q := - (- total / len)) in *.
  set (q4 := - (- total / 4)) in *. set (q6 := - (- total / 6)) in *.
  set (b := - (- Z.max 0 (total - ft * 8) / len)) in *.
  split. { split; [lia|]. split; [lia|]. intros k Hk Hpk. specialize (H8least k Hk). lia. }
  split; [done|]. split; [done|]. split; [done|]. split.
  { split; [lia|]. split; [lia|]. split.
    - pose proof (H8least (total / 8 + 1) ltac:(lia)). lia.
    - split; [lia|]. intros k Hk Hle. apply Hbleast. lia. }
  intros Htot. specialize (H8pos Htot). specialize (Hqpos Htot).
  specialize (H4pos Htot). specialize (H6pos Htot). lia.
Qed.

Lemma hire_bounds_witness :
  exists r f q q4 q6 a b,
    computeHireRecommendations
      (Some {| viewShortage := Some (Int <$> [0; 3; 2]); viewTotalShortUnits := None |})
      (Some 4) = Some r /\
    Hire.totalShort r = Int (sumZ [0; 3; 2]) /\
    Hire.peakShort r = Int (fold_right Z.max 0 [0; 3; 2]) /\
    Hire.minFT8 r = Int f /\ Hire.minPTcur r = Int q /\
    Hire.minPT4 r = Int q4 /\ Hire.minPT6 r = Int q6 /\
    Hire.mixed r = {| Hire.ft := Int a; Hire.pt := Int b; Hire.ptLenHours := 4 |} /\
    (sumZ [0; 3; 2] <= 8 * f /\ fold_right Z.max 0 [0; 3; 2] <= f /\
     forall k, sumZ [0; 3; 2] <= 8 * k -> fold_right Z.max 0 [0; 3; 2] <= k -> f <= k) /\
    (sumZ [0; 3; 2] <= 4 * q /\ forall k, sumZ [0; 3; 2] <= 4 * k -> q <= k) /\
    (sumZ [0; 3; 2] <= 4 * q4 /\ forall k, sumZ [0; 3; 2] <= 4 * k -> q4 <= k) /\
    (sumZ [0; 3; 2] <= 6 * q6 /\ forall k, sumZ [0; 3; 2] <= 6 * k -> q6 <= k) /\
    (sumZ [0; 3; 2] <= 8 * a + 4 * b /\ fold_right Z.max 0 [0; 3; 2] <= a /\
     a <= f <= a + 1 /\ 0 <= b /\
     forall k, 0 <= k -> sumZ [0; 3; 2] <= 8 * a + 4 * k -> b <= k) /\
    (0 <= sumZ [0; 3; 2] -> 0 <= f /\ 0 <= q /\ 0 <= q4 /\ 0 <= q6 /\ 0 <= a).
Proof.
  apply (hire_bounds
           {| viewShortage := Some (Int <$> [0; 3; 2]); viewTotalShortUnits := None |}
           (Some 4) [0; 3; 2]).
  - reflexivity.
  - discriminate.
  - left. reflexivity.
  - reflexivity.
Defined.

Lemma max0_le_sum zs :
  Forall (fun z => 0 <= z) zs -> fold_right Z.max 0 zs <= sumZ zs.
Proof.
  induction 1 as [|z zs Hz Hzs IH]; [done|]. rewrite sumZ_cons. cbn [fold_right].
  pose proof (sumZ_nonneg zs Hzs). lia.
Qed.

(** X17.  The recommendation for a plan.  The interface hands the plan to
    [computeHireRecommendations] with the part-time length of the run;
    for a requirement over 24 hours and a positive length it always gets
    a recommendation, never none.  Its [totalShort] is the
    [totalShortUnits] of the plan; it is the recommendation that asks for
    nobody exactly when the plan has no short hour, and otherwise asks
    for at least one full-time and at least one part-time hire. *)
Theorem hire_for_plan (requiredPerHourInt : list Z) (limits : Limits) (opts : Opts)
  (fuel : nat) :
  (24 <= length requiredPerHourInt)%nat ->
  0 < ptLenHours opts ->
  Z.max 0 (maxFTShifts limits) + Z.max 0 (maxPTShifts limits) < Z.of_nat fuel ->
  exists plan r t,
    buildShiftPlanStrategic requiredPerHourInt limits opts fuel = Some plan /\
    computeHireRecommendations (Some (viewOf plan)) (Some (ptLenHours opts)) = Some r /\
    Plan.totalShortUnits plan = Int t /\ Hire.totalShort r = Int t /\ 0 <= t /\
    (Plan.hoursShort plan = 0 <-> r = noHire (ptLenHours opts)) /\
    (0 < Plan.hoursShort plan ->
     exists f q, Hire.minFT8 r = Int f /\ 1 <= f /\ Hire.minPTcur r = Int q /\ 1 <= q).
Proof.
  intros Hlen Hpt Hfuel.
  destruct (run_ends requiredPerHourInt limits opts fuel Hfuel)
    as (st & n & _ & Hrun & Hr & _).
  set (p := planOf requiredPerHourInt limits st).
  destruct (planOf_short_over requiredPerHourInt limits opts st Hlen Hr) as [Hshort _].
  fold p in Hshort.
  set (zs := imap (fun h v => Z.max 0 (get requiredPerHourInt h - v)) (Plan.coverage p))
    in *.
  assert (Hzlen : length zs = 24%nat).
  { unfold zs. rewrite length_imap. apply (planOf_coverage_length _ _ opts st Hr). }
  assert (Hne : zs <> []) by (intros Hnil; rewrite Hnil in Hzlen; discriminate Hzlen).
  assert (Hpos : Forall (fun z => 0 <= z) zs).
  { apply Forall_lookup_2. intros h z. unfold zs. rewrite list_lookup_imap.
    destruct (Plan.coverage p !! h); [|done]. simpl. intros [= <-]. lia. }
  assert (Htotal : Plan.totalShortUnits p = Int (sumZ zs)).
  { change (Plan.totalShortUnits p) with (sumNum (Plan.shortage p)).
    rewrite Hshort. apply sumNum_ints. }
  assert (Hhours : Plan.hoursShort p = positives zs).
  { change (Plan.hoursShort p)
      with (fold_left (fun n v => n + (if ngt v (Int 0) then 1 else 0)) (Plan.shortage p) 0).
    by rewrite Hshort, hoursShort_fold. }
  pose proof (hire_fields (viewOf p) (Some (ptLenHours opts)) zs) as Hrec.
  cbv zeta in Hrec. cbn [default from_option id] in Hrec.
  specialize (Hrec ltac:(cbn [viewOf viewShortage]; by rewrite Hshort) Hne
                ltac:(right; cbn [viewOf viewTotalShortUnits]; by rewrite Htotal)
                ltac:(lia)).
  pose proof (sumZ_nonneg zs Hpos) as Hsum.
  pose proof (max0_le_sum zs Hpos) as Hpeak.
  destruct (max0_spec zs) as (Hpeak0 & _).
  destruct (positives_sum zs Hpos) as [Hle Hiff].
  pose proof (positives_bounds zs) as Hb.
  eexists p, _, (sumZ zs). split; [done|]. split; [exact Hrec|].
  cbn [Hire.totalShort Hire.minFT8 Hire.minPTcur].
  split; [done|]. split; [done|]. split; [done|]. rewrite Hhours. split.
  - split.
    + intros Hzero%Hiff. assert (Hp0 : fold_right Z.max 0 zs = 0) by lia.
      rewrite Hzero, Hp0. reflexivity.
    + intros [= Ht _]. by apply Hiff.
  - intros Hshorts. assert (Htot : 0 < sumZ zs) by lia.
    destruct (ceil_least (sumZ zs) 8 ltac:(lia)) as (H8 & _).
    destruct (ceil_least (sumZ zs) (ptLenHours opts) Hpt) as (Hq & _).
    eexists _, _. split; [reflexivity|]. split; [lia|]. split; [reflexivity|]. nia.
Qed.

Lemma hire_for_plan_witness :
  exists plan r t,
    buildShiftPlanStrategic sampleRequired sampleLimits sampleOpts 10 = Some plan /\
    computeHireRecommendations (Some (viewOf plan)) (Some (ptLenHours sampleOpts))
      = Some r /\
    Plan.totalShortUnits plan = Int t /\ Hire.totalShort r = Int t /\ 0 <= t /\
    (Plan.hoursShort plan = 0 <-> r = noHire (ptLenHours sampleOpts)) /\
    (0 < Plan.hoursShort plan ->
     exists f q, Hire.minFT8 r = Int f /\ 1 <= f /\ Hire.minPTcur r = Int q /\ 1 <= q).
Proof.
  apply (hire_for_plan sampleRequired sampleLimits sampleOpts 10).
  - vm_compute. lia.
  - reflexivity.
  - vm_compute. reflexivity.
Defined.

(** ** The coverage table and the clock times *)

Lemma positives_fmap {A} (f : A -> Z) (l : list A) :
  positives (f <$> l) = Z.of_nat (length (filter (fun x => 0 < f x) l)).
Proof.
  induction l as [|x l IH]; [done|]. rewrite fmap_cons, positives_cons, filter_cons.
  case_decide; cbn [length]; lia.
Qed.

Lemma danger_rows (l : list CoverageRow) :
  Forall (fun r => 0 <= rowShort r) l ->
  length (filter (fun r => rowClass r = "table-danger") l)
  = length (filter (fun r => 0 < rowShort r) l).
Proof.
  induction 1 as [|r l Hr _ IH]; [done|]. rewrite !filter_cons.
  assert (Hiff : rowClass r = "table-danger" <-> 0 < rowShort r).
  { unfold rowClass. destruct (Z.eqb_spec (rowShort r) 0) as [H0|H0]; simpl.
    - split; [|lia]. destruct (rowOver r =? 0); discriminate.
    - split; [lia|done]. }
  repeat case_decide; cbn [length]; try tauto; by rewrite IH.
Qed.



(** *** Clock times *)

(** A number below 100, padded to two characters, is two digits that
    [parseInt] reads back. *)
Lemma two_digits (n : Z) :
  0 <= n < 100 ->
  exists a b, padStart2 (pretty n) = String a (String b EmptyString) /\
              parseInt (String a (String b EmptyString)) = Int n.
Proof.
  intros Hn. destruct n as [|p|p]; [by eexists _, _| |lia].
  change (pretty (Z.pos p)) with (pretty_N_go (N.pos p) EmptyString).
  rewrite pretty_N_go_step by lia.
  destruct (decide (N.pos p < 10)%N) as [Hsmall|Hbig].
  - rewrite (N.div_small (N.pos p) 10 Hsmall), pretty_N_go_0, (N.mod_small _ _ Hsmall).
    assert (Hcases : (N.pos p = 1 \/ N.pos p = 2 \/ N.pos p = 3 \/ N.pos p = 4 \/
                      N.pos p = 5 \/ N.pos p = 6 \/ N.pos p = 7 \/ N.pos p = 8 \/
                      N.pos p = 9)%N) by lia.
    repeat destruct Hcases as [Hc | Hcases]; try (rename Hcases into Hc);
      injection Hc as ->; by eexists _, _.
  - pose proof (parseInt_pretty (Z.pos p)) as Hparse.
    change (pretty (Z.pos p)) with (pretty_N_go (N.pos p) EmptyString) in Hparse.
    rewrite pretty_N_go_step in Hparse by lia.
    assert (Hq : (0 < N.pos p `div` 10 < 10)%N).
    { split; [apply N.div_str_pos; lia|apply N.Div0.div_lt_upper_bound; lia]. }
    rewrite pretty_N_go_step in Hparse |- * by lia.
    rewrite (N.div_small (N.pos p `div` 10) 10) in Hparse |- * by lia.
    rewrite pretty_N_go_0 in Hparse |- *.
    eexists _, _. split; [reflexivity|exact Hparse].
Qed.

Lemma hhmm_form (mins : Z) :
  0 <= mins < 6000 ->
  exists h1 h0 m1 m0,
    hhmm mins = String h1 (String h0 (String ":" (String m1 (String m0 EmptyString)))) /\
    parseInt (String h1 (String h0 EmptyString)) = Int (mins / 60) /\
    parseInt (String m1 (String m0 EmptyString)) = Int (mins mod 60).
Proof.
  intros Hm. unfold hhmm. rewrite Z.rem_mod_nonneg by lia.
  pose proof (Z.div_mod mins 60 ltac:(lia)) as Hdm.
  pose proof (Z.mod_pos_bound mins 60 ltac:(lia)) as Hmod.
  destruct (two_digits (mins / 60)) as (h1 & h0 & -> & Hh).
  { split; [apply Z.div_pos; lia|apply Z.div_lt_upper_bound; lia]. }
  destruct (two_digits (mins mod 60)) as (m1 & m0 & -> & Hmm); [lia|].
  by exists h1, h0, m1, m0.
Qed.

(** X19.  Clock times.  For a whole number of minutes from 0 to 5999 (a
    day has 1440), [hhmm] writes two digits, a colon and two digits; read
    back as numbers these are the hours and the minutes, so no two times
    are written alike. *)
Theorem hhmm_clock (mins mins' : Z) :
  0 <= mins < 6000 -> 0 <= mins' < 6000 ->
  (exists h1 h0 m1 m0,
     hhmm mins = String h1 (String h0 (String ":" (String m1 (String m0 EmptyString)))) /\
     parseInt (String h1 (String h0 EmptyString)) = Int (mins / 60) /\
     parseInt (String m1 (String m0 EmptyString)) = Int (mins mod 60) /\
     mins = 60 * (mins / 60) + mins mod 60 /\ 0 <= mins mod 60 < 60) /\
  (hhmm mins = hhmm mins' -> mins = mins').
Proof.
  intros Hm Hm'.
  destruct (hhmm_form mins Hm) as (h1 & h0 & m1 & m0 & Heq & Hh & Hmm).
  destruct (hhmm_form mins' Hm') as (h1' & h0' & m1' & m0' & Heq' & Hh' & Hmm').
  pose proof (Z.div_mod mins 60 ltac:(lia)) as Hdm.
  pose proof (Z.mod_pos_bound mins 60 ltac:(lia)) as Hmod.
  pose proof (Z.div_mod mins' 60 ltac:(lia)) as Hdm'.
  split.
  - exists h1, h0, m1, m0. repeat split; try done; lia.
  - rewrite Heq, Heq'. intros [= -> -> -> ->].
    rewrite Hh in Hh'. rewrite Hmm in Hmm'.
    injection Hh' as Hq. injection Hmm' as Hr. lia.
Qed.

Lemma hhmm_clock_witness :
  (exists h1 h0 m1 m0,
     hhmm 780 = String h1 (String h0 (String ":" (String m1 (String m0 EmptyString)))) /\
     parseInt (String h1 (String h0 EmptyString)) = Int (780 / 60) /\
     parseInt (String m1 (String m0 EmptyString)) = Int (780 mod 60) /\
     780 = 60 * (780 / 60) + 780 mod 60 /\ 0 <= 780 mod 60 < 60) /\
  (hhmm 780 = hhmm 810 -> 780 = 810).
Proof. apply (hhmm_clock 780 810); lia. Defined.

(** ** Snapping to half hours: [snap30] *)

Lemma snap30_bounds (m : Q) :
  (inject_Z (snap30 m) - 15 <= m)%Q /\ (m < inject_Z (snap30 m) + 15)%Q.
Proof.
  unfold snap30, round.
  pose proof (Qfloor_le (m / 30 + (1 # 2))) as Hle.
  pose proof (Qlt_floor (m / 30 + (1 # 2))) as Hlt.
  set (f := Qfloor (m / 30 + (1 # 2))) in *. clearbody f.
  destruct m as [n d].
  unfold Qminus, Qdiv in *.
  unfold Qle, Qlt, Qplus, Qopp, Qmult, Qinv, inject_Z in *.
  cbn [Qnum Qden] in *.
  rewrite ?Pos2Z.inj_mul in *. split; lia.
Qed.

Lemma snap30_multiple (k : Z) : snap30 (inject_Z (30 * k)) = 30 * k.
Proof.
  unfold snap30, round.
  rewrite (Qfloor_comp _ ((2 * k + 1) # 2)).
  - unfold Qfloor. cbn [Qnum Qden]. 
    pose proof (Z.div_mod (2 * k + 1) 2 ltac:(lia)). 
    pose proof (Z.mod_pos_bound (2 * k + 1) 2 ltac:(lia)). lia.
  - unfold Qeq, Qplus, Qdiv, Qmult, Qinv, inject_Z. cbn [Qnum Qden]. lia.
Qed.

Lemma snap30_mono (m m' : Q) : (m <= m')%Q -> snap30 m <= snap30 m'.
Proof.
  intros Hle. unfold snap30, round.
  assert (Qfloor (m / 30 + (1 # 2)) <= Qfloor (m' / 30 + (1 # 2))); [|lia].
  apply Qfloor_resp_le. apply Qplus_le_l. unfold Qdiv. apply Qmult_le_compat_r; [done|].
  done.
Qed.

Lemma snap30_unique (m : Q) (k : Z) :
  (inject_Z (30 * k) - 15 <= m)%Q -> (m < inject_Z (30 * k) + 15)%Q ->
  snap30 m = 30 * k.
Proof.
  intros Hlo Hhi. destruct (snap30_bounds m) as [Hlo' Hhi'].
  unfold snap30, round in *.
  set (f := Qfloor (m / 30 + (1 # 2))) in *. clearbody f.
  destruct m as [n d].
  unfold Qminus in *.
  unfold Qle, Qlt, Qplus, Qopp, inject_Z in *.
  cbn [Qnum Qden] in *.
  assert (f = k); [|lia]. nia.
Qed.

(** X20.  [snap30] gives the multiple of 30 that is nearest to its
    argument, the upper one of two that are equally near: the result is a
    multiple of 30, the argument lies from 15 below it to less than 15
    above it, and it is the only multiple of 30 of which this holds.  A
    multiple of 30 is left as it is, and snapping keeps the order of
    times. *)
Theorem snap30_nearest (m : Q) :
  (exists k, snap30 m = 30 * k) /\
  (inject_Z (snap30 m) - 15 <= m)%Q /\ (m < inject_Z (snap30 m) + 15)%Q /\
  (forall k, (inject_Z (30 * k) - 15 <= m)%Q -> (m < inject_Z (30 * k) + 15)%Q ->
     snap30 m = 30 * k) /\
  (forall k, snap30 (inject_Z (30 * k)) = 30 * k) /\
  (forall m', (m <= m')%Q -> snap30 m <= snap30 m').
Proof.
  split; [exists (round (m / 30)); unfold snap30; lia|].
  destruct (snap30_bounds m) as [Hlo Hhi].
  split; [done|]. split; [done|]. split; [apply snap30_unique|].
  split; [apply snap30_multiple|apply snap30_mono].
Qed.

(** ** The planner: how many times the loop runs *)

Section Iterations.
Variable requiredPerHourInt : list Z.
Variable limits : Limits.
Variable opts : Opts.

#[local] Abbreviation placeOne := (placeOne limits opts).

Lemma placeOne_total c st b st' :
  placeOne c st = (b, st') ->
  placedFT st' + placedPT st' = placedFT st + placedPT st + (if b then 1 else 0).
Proof.
  intros [[-> ->]|[-> (s & _ & ->)]]%placeOne_inv; [lia|].
  pose proof (placeAt_placed opts c s st) as Hp.
  pose proof (placeAt_placed_other opts c s st) as Hq.
  destruct c; cbn [placedOf other] in Hp, Hq; lia.
Qed.

Lemma orElse_total c1 c2 st b st' :
  orElse (placeOne c1) (placeOne c2) st = (b, st') ->
  placedFT st' + placedPT st' = placedFT st + placedPT st + (if b then 1 else 0).
Proof.
  unfold orElse. destruct (placeOne c1 st) as [b1 st1] eqn:E1.
  pose proof (placeOne_total _ _ _ _ E1) as H1. destruct b1.
  - by intros [= <- <-].
  - intros E2. pose proof (placeOne_total _ _ _ _ E2) as H2. lia.
Qed.

Lemma while_total c1 c2 fuel st st' n :
  while fuel (orElse (placeOne c1) (placeOne c2)) st = Some (st', n) ->
  placedFT st' + placedPT st' + 1 = placedFT st + placedPT st + Z.of_nat n.
Proof.
  revert st n. induction fuel as [|fuel IH]; intros st n; [done|]. simpl.
  destruct (orElse (placeOne c1) (placeOne c2) st) as [b st1] eqn:Ec.
  pose proof (orElse_total _ _ _ _ _ Ec) as Hstep. destruct b.
  - destruct (while fuel (orElse (placeOne c1) (placeOne c2)) st1) as [[st2 m]|] eqn:Ew;
      [|done].
    intros [= <- <-]. specialize (IH _ _ Ew). lia.
  - intros [= <- <-]. lia.
Qed.

Lemma mixedBody_total ft pt st ft' pt' st' progress :
  mixedBody limits opts ft pt st = (ft', pt', st', progress) ->
  let d := placedFT st' + placedPT st' - (placedFT st + placedPT st) in
  if progress then 1 <= d <= 2 else d = 0.
Proof.
  unfold mixedBody.
  change (placeOneFT limits) with (placeOne ClsFT).
  change (placeOnePT limits opts) with (placeOne ClsPT).
  destruct (belowTarget opts ft pt).
  - destruct (placeOne ClsFT st) as [b1 st1] eqn:E1.
    destruct (placeOne ClsPT st1) as [b2 st2] eqn:E2.
    pose proof (placeOne_total _ _ _ _ E1). pose proof (placeOne_total _ _ _ _ E2).
    intros [= <- <- <- <-]. cbv zeta. destruct b1, b2; cbn [orb]; lia.
  - destruct (placeOne ClsPT st) as [b1 st1] eqn:E1.
    destruct (placeOne ClsFT st1) as [b2 st2] eqn:E2.
    pose proof (placeOne_total _ _ _ _ E1). pose proof (placeOne_total _ _ _ _ E2).
    intros [= <- <- <- <-]. cbv zeta. destruct b1, b2; cbn [orb]; lia.
Qed.

Lemma mixedLoop_total fuel ft pt st st' n :
  mixedLoop limits opts fuel ft pt st = Some (st', n) ->
  let d := placedFT st' + placedPT st' - (placedFT st + placedPT st) in
  Z.of_nat n - 1 <= d <= 2 * (Z.of_nat n - 1).
Proof.
  revert ft pt st n. induction fuel as [|fuel IH]; intros ft pt st n; [done|]. simpl.
  destruct (mixedBody limits opts ft pt st) as [[[ft' pt'] st1] b] eqn:Eb.
  pose proof (mixedBody_total _ _ _ _ _ _ _ Eb) as Hstep. cbv zeta in Hstep.
  destruct b.
  - destruct (mixedLoop limits opts fuel ft' pt' st1) as [[st2 m]|] eqn:Ew; [|done].
    intros [= <- <-]. specialize (IH _ _ _ _ Ew). cbv zeta in IH. lia.
  - intros [= <- <-]. lia.
Qed.
End Iterations.

(** X21.  How often the loop runs.  Under the strategies that try one
    class and then the other (every strategy but [mixed]) each
    evaluation of the loop condition but the last places exactly one
    shift, so the loop evaluates it once more than there are shifts in
    the plan.  An iteration of the mixed strategy places one or two
    shifts, all but the last, which places none. *)
Theorem loop_iterations (requiredPerHourInt : list Z) (limits : Limits) (opts : Opts)
  (fuel : nat) :
  Z.max 0 (maxFTShifts limits) + Z.max 0 (maxPTShifts limits) < Z.of_nat fuel ->
  exists st n plan,
    placeLoop limits opts fuel (initialState requiredPerHourInt) = Some (st, n) /\
    buildShiftPlanStrategic requiredPerHourInt limits opts fuel = Some plan /\
    let shifts := totalCount (Plan.shiftsFT plan) + totalCount (Plan.shiftsPT plan) in
    (strategy opts <> "mixed" -> Z.of_nat n = shifts + 1) /\
    (strategy opts = "mixed" -> Z.of_nat n - 1 <= shifts <= 2 * (Z.of_nat n - 1)).
Proof.
  intros Hfuel.
  destruct (run_ends requiredPerHourInt limits opts fuel Hfuel)
    as (st & n & Hloop & Hrun & Hr & _).
  exists st, n, (planOf requiredPerHourInt limits st).
  split; [done|]. split; [done|].
  unfold planOf. cbn [Plan.shiftsFT Plan.shiftsPT]. cbv zeta.
  rewrite !totalCount_merge.
  destruct (reachable_placed _ _ _ st Hr ClsFT) as [HpF _].
  destruct (reachable_placed _ _ _ st Hr ClsPT) as [HpP _].
  cbn [placedOf shiftsOf] in HpF, HpP. rewrite <- HpF, <- HpP.
  revert Hloop. unfold placeLoop.
  change (placeOneFT limits) with (placeOne limits opts ClsFT).
  change (placeOnePT limits opts) with (placeOne limits opts ClsPT).
  assert (Hw : forall c1 c2,
    while fuel (orElse (placeOne limits opts c1) (placeOne limits opts c2))
      (initialState requiredPerHourInt) = Some (st, n) ->
    Z.of_nat n = placedFT st + placedPT st + 1).
  { intros c1 c2 Hw%while_total. unfold initialState in Hw. cbn [placedFT placedPT] in Hw.
    lia. }
  destruct (String.eqb_spec (strategy opts) "ft_first") as [Hs|_].
  { intros Hl%Hw. split; [done|]. rewrite Hs. discriminate. }
  destruct (String.eqb_spec (strategy opts) "pt_first") as [Hs|_].
  { intros Hl%Hw. split; [done|]. rewrite Hs. discriminate. }
  destruct (String.eqb_spec (strategy opts) "mixed") as [Hs|Hs].
  { intros Hl%mixedLoop_total. cbv zeta in Hl. unfold initialState in Hl.
    cbn [placedFT placedPT] in Hl. split; [done|]. intros _. lia. }
  destruct (isWeekend opts); intros Hl%Hw; (split; [done|]); intros Hm; by destruct Hs.
Qed.

Lemma loop_iterations_witness :
  exists st n plan,
    placeLoop sampleLimits sampleOpts 10 (initialState sampleRequired) = Some (st, n) /\
    buildShiftPlanStrategic sampleRequired sampleLimits sampleOpts 10 = Some plan /\
    let shifts := totalCount (Plan.shiftsFT plan) + totalCount (Plan.shiftsPT plan) in
    (strategy sampleOpts <> "mixed" -> Z.of_nat n = shifts + 1) /\
    (strategy sampleOpts = "mixed" -> Z.of_nat n - 1 <= shifts <= 2 * (Z.of_nat n - 1)).
Proof.
  apply (loop_iterations sampleRequired sampleLimits sampleOpts 10).
  vm_compute. reflexivity.
Defined.

(** ** Determinism: every run gives the same plan *)

Lemma weigh_fold_mergeStep g l out :
  weigh g (fold_left mergeStep l out) = weigh g out + weigh g l.
Proof.
  revert out. induction l as [|p l IH]; intros out; simpl; [lia|].
  rewrite IH, weigh_mergeStep. simpl. lia.
Qed.

Section AnySort.
Variables arr sorted : list ShiftWindow.
Hypothesis Hsort : sortsTo arr sorted.

Lemma mergeSorted_sorted : StronglySorted before (fold_left mergeStep sorted []).
Proof.
  destruct Hsort as [_ Hs]. apply merge_fold; [done|constructor|].
  intros x y Hx. by apply elem_of_nil in Hx.
Qed.

(** Whatever the sort did with the windows that compare equal, a window
    is in the merged list exactly when [arr] has a window of its interval
    and its count is the sum of the counts of these. *)
Lemma elem_of_mergeSorted w :
  w ∈ fold_left mergeStep sorted [] <->
  (exists w', w' ∈ arr /\ sameInterval w w') /\
  count w = weigh (onInterval w) arr.
Proof.
  destruct Hsort as [Hperm Hs].
  assert (Hcount : forall x, x ∈ fold_left mergeStep sorted [] ->
            count x = weigh (onInterval x) arr).
  { intros x Hx. rewrite <- (weigh_Permutation _ _ _ Hperm).
    pose proof (weigh_fold_mergeStep (onInterval x) sorted []) as Hw.
    change (weigh (onInterval x) []) with 0 in Hw. rewrite Z.add_0_l in Hw.
    rewrite <- Hw. symmetry.
    apply weigh_onInterval_sorted; [apply mergeSorted_sorted|done]. }
  split.
  - intros Hw. split; [|by apply Hcount].
    destruct (merge_fold sorted [] Hs (SSorted_nil _)) as [_ Hk].
    { intros x y Hx. by apply elem_of_nil in Hx. }
    destruct (Hk w Hw) as (w' & [Hw'|Hw'] & Hsame); [by apply elem_of_nil in Hw'|].
    exists w'. split; [by rewrite <- Hperm|done].
  - intros [(w' & Hw' & Hsame) Hc].
    destruct (merge_fold_keeps sorted [] w') as (w'' & Hw'' & Hsame').
    { right. by rewrite Hperm. }
    pose proof (Hcount w'' Hw'') as Hc''.
    assert (w'' = w) as <-; [|done].
    destruct Hsame as [Hs1 He1], Hsame' as [Hs2 He2].
    assert (Hon : onInterval w'' = onInterval w).
    { unfold onInterval. by rewrite Hs2, He2, Hs1, He1. }
    rewrite Hon, <- Hc in Hc''.
    destruct w'', w; simpl in *; f_equal; lia.
Qed.

(** Every result of the sort merges to the list that [merge] computes. *)
Lemma mergeSorted_merge : fold_left mergeStep sorted [] = merge arr.
Proof.
  apply (StronglySorted_unique_strong before);
    [|apply mergeSorted_sorted|apply merge_sorted|].
  - intros x y _ _ Hxy Hyx. destruct (before_asym x y Hxy Hyx).
  - apply NoDup_Permutation;
      [apply StronglySorted_before_NoDup, mergeSorted_sorted
      |apply StronglySorted_before_NoDup, merge_sorted|].
    intros w. by rewrite elem_of_mergeSorted, elem_of_merge.
Qed.
End AnySort.

Lemma sortWindows_Permutation arr : sortWindows arr ≡ₚ arr.
Proof.
  unfold sortWindows.
  enough (Hgen : forall acc,
    fold_left (fun sorted p => insertWindow p sorted) arr acc ≡ₚ arr ++ acc).
  { rewrite Hgen. by rewrite app_nil_r. }
  assert (Hins : forall p l, insertWindow p l ≡ₚ p :: l).
  { intros p l. induction l as [|q l IH]; simpl; [done|].
    destruct (compareWindows q p <=? 0); [|done]. rewrite IH. apply Permutation_swap. }
  induction arr as [|p arr IH]; intros acc; simpl; [done|].
  rewrite IH, Hins. by rewrite Permutation_middle.
Qed.

(** The sort of the embedding is one of the sorts that the engine may
    run, so [merge] is one of the results of [mergesTo]. *)
Lemma sortWindows_sortsTo arr : sortsTo arr (sortWindows arr).
Proof. split; [apply sortWindows_Permutation|apply sortWindows_sorted]. Qed.

Lemma mergesTo_merge arr out : mergesTo arr out <-> out = merge arr.
Proof.
  split.
  - intros (sorted & Hsort & ->). by apply mergeSorted_merge.
  - intros ->. exists (sortWindows arr). split; [apply sortWindows_sortsTo|done].
Qed.

Lemma planWith_merge requiredPerHourInt limits st :
  planWith requiredPerHourInt limits st (merge (shiftsFT st)) (merge (shiftsPT st))
  = planOf requiredPerHourInt limits st.
Proof. reflexivity. Qed.

(** Every run ends in the plan that the function computes. *)
Lemma runsTo_function requiredPerHourInt limits opts plan :
  runsTo requiredPerHourInt limits opts plan <->
  exists fuel, buildShiftPlanStrategic requiredPerHourInt limits opts fuel = Some plan.
Proof.
  unfold runsTo, buildShiftPlanStrategic. split.
  - intros (fuel & st & n & mF & mP & Hloop & HF%mergesTo_merge & HP%mergesTo_merge & ->).
    exists fuel. rewrite Hloop, HF, HP. by rewrite planWith_merge.
  - intros [fuel Hrun].
    destruct (placeLoop limits opts fuel (initialState requiredPerHourInt))
      as [[st n]|] eqn:Hloop; [|done].
    injection Hrun as <-.
    exists fuel, st, n, (merge (shiftsFT st)), (merge (shiftsPT st)).
    split; [done|]. split; [by apply mergesTo_merge|]. split; [by apply mergesTo_merge|].
    by rewrite planWith_merge.
Qed.


